(** * MPC1000 program files and SP-303 sample preparation

    A shallow embedding of [organize_sp303_banks.py] and
    [preprocess_sp303_wavs.py].

    - Python [bytes] are [list byte]; [str] is [string]; [int] counters
      that start at zero and only grow are [nat]; header fields read from
      a RIFF container are [Z].
    - The [pads] dictionary is a [gmap nat string].
    - Python [float] is IEEE binary64, taken from the standard library's
      executable specification [SpecFloat].
    - [pathlib] paths are a root and a list of components, built and
      compared as the POSIX flavour does.
    - Exceptions are explicit results; the file system touched by the
      scripts is an explicit state. *)

From Stdlib Require Import ZArith NArith List Bool Ascii String Lia.
From Stdlib.Strings Require Import Byte.
From stdpp Require Import base option list gmap strings pretty.
From Stdlib Require Import SpecFloat.

Local Open Scope nat_scope.

(** ** Helpers shared by the two scripts *)

(** Python's [data[lo:hi]] for [0 <= lo <= hi]: the slice is cut short when
    the buffer ends early. *)
Definition slice {A : Type} (lo hi : nat) (data : list A) : list A :=
  take (hi - lo) (drop lo data).

(** Equality of bytes is decidable. *)
#[global] Instance byte_eq_dec : EqDecision byte := Byte.byte_eq_dec.

(** The code point of a byte and of a character. *)
Definition byte_code (b : byte) : N := Byte.to_N b.
Definition char_code (c : ascii) : N := N_of_ascii c.

(** [chr(byte)] for a byte value. *)
Definition chr (b : byte) : ascii := ascii_of_byte b.

(** [str.isspace()] on a code point below 256. *)
Definition py_isspace (c : ascii) : bool :=
  let n := char_code c in
  ((9 <=? n) && (n <=? 13) || (28 <=? n) && (n <=? 32)
   || (n =? 133) || (n =? 160))%N.

(** [str.strip()] with no argument: leading and trailing white space goes. *)
Fixpoint lstrip_chars (l : list ascii) : list ascii :=
  match l with
  | c :: l' => if py_isspace c then lstrip_chars l' else l
  | [] => []
  end.

Definition strip_chars (l : list ascii) : list ascii :=
  rev (lstrip_chars (rev (lstrip_chars l))).

Definition strip (s : string) : string :=
  string_of_list_ascii (strip_chars (list_ascii_of_string s)).

(** [needle in hay] on strings. *)
Fixpoint contains (needle hay : string) : bool :=
  String.prefix needle hay
  || match hay with
     | EmptyString => false
     | String _ hay' => contains needle hay'
     end.

(** [pathlib]'s paths, in the POSIX flavour: the root, which is empty, one
    slash or two, and the components, none of them empty or a single dot.
    Two paths are equal when root and components are. *)
Record pure_path : Type := PurePath {
  root : string;
  parts : list string
}.

#[global] Instance pure_path_eq_dec : EqDecision pure_path.
Proof. solve_decision. Defined.

(** [s.split(sep)] for a separator of one character. *)
Fixpoint split_on (sep : ascii) (s : string) : list string :=
  match s with
  | EmptyString => [EmptyString]
  | String c s' =>
      if Ascii.eqb c sep then EmptyString :: split_on sep s'
      else match split_on sep s' with
           | x :: xs => String c x :: xs
           | [] => [String c EmptyString]
           end
  end.

(** [s.lstrip('/')] *)
Fixpoint lstrip_sep (s : string) : string :=
  match s with
  | String c s' => if Ascii.eqb c "/" then lstrip_sep s' else s
  | EmptyString => EmptyString
  end.

(** A component that parsing keeps. *)
Definition kept_part (x : string) : bool :=
  negb (String.eqb x "") && negb (String.eqb x ".").

(** [Path(s)]: exactly two leading slashes are kept as the root, any other
    number of them is one slash; repeated slashes, a slash at the end and
    the components ["."] go. *)
Definition Path (s : string) : pure_path :=
  let stripped := lstrip_sep s in
  let slashes := String.length s - String.length stripped in
  {| root := if slashes =? 0 then "" else if slashes =? 2 then "//" else "/";
     parts := List.filter kept_part (split_on "/" stripped) |}.

(** [p / s]: a rooted [s] replaces [p]. *)
Definition joinpath (p : pure_path) (s : string) : pure_path :=
  let q := Path s in
  if String.eqb (root q) "" then {| root := root p; parts := parts p ++ parts q |}
  else q.

(** [str(p)] *)
Definition path_str (p : pure_path) : string :=
  let s := String.append (root p) (String.concat "/" (parts p)) in
  if String.eqb s "" then "." else s.

(** What the scripts can raise. [ValueError] is the rejected header (the
    specification calls it a format error); [OSError] is a failed file
    operation on the named path. *)
Inductive error : Type :=
  | ValueError (header : string)
  | OSError (path : string).

Inductive result (A : Type) : Type :=
  | Ok (a : A)
  | Raise (e : error).
Arguments Ok {A} a.
Arguments Raise {A} e.

(** ** organize_sp303_banks.py *)

Module Pgm.

Definition PAD_ENTRY_SIZE : nat := 164.
Definition FIRST_SAMPLE_OFFSET : nat := 24.
Definition SAMPLE_NAME_SIZE : nat := 16.
Definition MAX_PADS : nat := 64.
Definition MAGIC : string := "MPC1000 PGM".

(** [bytes.decode('ascii', errors='ignore')]: bytes from 128 on are dropped. *)
Definition decode_ascii_ignore (bs : list byte) : string :=
  string_of_list_ascii (map chr (filter (λ b, (byte_code b <? 128)%N = true) bs)).

Definition header (data : list byte) : string :=
  decode_ascii_ignore (slice 4 20 data).

Definition printable (b : byte) : bool :=
  ((32 <=? byte_code b) && (byte_code b <=? 126))%N.

Definition is_null (b : byte) : bool := (byte_code b =? 0)%N.

(** The inner [for byte in sample_name_raw] loop: printable bytes are
    appended, a zero byte ends the loop, any other byte is passed over. *)
Fixpoint decode_name (raw : list byte) : string :=
  match raw with
  | [] => EmptyString
  | b :: rest =>
      if printable b then String (chr b) (decode_name rest)
      else if is_null b then EmptyString
      else decode_name rest
  end.



(** The name of the record at [offset], decoded and stripped. *)
Definition sample_name_at (data : list byte) (offset : nat) : string :=
  strip (decode_name (slice offset (offset + SAMPLE_NAME_SIZE) data)).

(** [not sample_name or len(sample_name) < 2] *)
Definition invalid_name (sample_name : string) : bool :=
  String.eqb sample_name EmptyString || (String.length sample_name <? 2).

(** The variables of the [while] loop. *)
Record scan_state : Type := ScanState {
  pad_index : nat;
  offset : nat;
  pads : gmap nat string
}.

Definition scan_init : scan_state :=
  {| pad_index := 0; offset := FIRST_SAMPLE_OFFSET; pads := ∅ |}.

(** [offset + SAMPLE_NAME_SIZE <= len(data) and pad_index < 64] *)
Definition scan_cond (data : list byte) (st : scan_state) : bool :=
  (offset st + SAMPLE_NAME_SIZE <=? length data) && (pad_index st <? MAX_PADS).

Inductive step_result : Type :=
  | Break
  | Continue (st : scan_state).

(** One pass through the loop body.  Both the [continue] of a skipped
    record and the normal end of the body move on by one index and one
    entry size; only the first record can [break]. *)
Definition scan_step (data : list byte) (st : scan_state) : step_result :=
  let sample_name := sample_name_at data (offset st) in
  if invalid_name sample_name then
    if 0 <? pad_index st then
      Continue {| pad_index := pad_index st + 1;
                  offset := offset st + PAD_ENTRY_SIZE;
                  pads := pads st |}
    else Break
  else
    Continue {| pad_index := pad_index st + 1;
                offset := offset st + PAD_ENTRY_SIZE;
                pads := <[pad_index st := sample_name]> (pads st) |}.

(** The [while] loop; [None] only when the fuel runs out first. *)
Fixpoint scan (fuel : nat) (data : list byte) (st : scan_state)
  : option (gmap nat string) :=
  if scan_cond data st then
    match fuel with
    | 0 => None
    | S fuel' =>
        match scan_step data st with
        | Break => Some (pads st)
        | Continue st' => scan fuel' data st'
        end
    end
  else Some (pads st).

(** [parse_pgm_file], on the bytes read from [pgm_path]. *)
Definition parse_pgm_file_fuel (fuel : nat) (data : list byte)
  : option (result (gmap nat string)) :=
  if contains MAGIC (header data) then
    Ok <$> scan fuel data scan_init
  else Some (Raise (ValueError (header data))).

Definition parse_pgm_file (data : list byte) : option (result (gmap nat string)) :=
  parse_pgm_file_fuel MAX_PADS data.

(** *** Synthetic descriptors

    A descriptor assembled from known names: a 24-byte header, then one
    164-byte record per name, the name zero-padded to 16 bytes and
    followed by 148 bytes of other pad data. *)

Definition name_field (name : string) : list byte :=
  list_byte_of_string name
  ++ replicate (SAMPLE_NAME_SIZE - String.length name) x00.

Definition make_record (name : string) (payload : list byte) : list byte :=
  name_field name ++ payload.

Definition make_descriptor (hdr : list byte) (records : list (string * list byte))
  : list byte :=
  hdr ++ concat (map (λ r, make_record r.1 r.2) records).

Definition printable_char (c : ascii) : bool :=
  ((32 <=? char_code c) && (char_code c <=? 126))%N.

(** A name of 2 to 16 printable characters. *)
Definition printable_name (name : string) : bool :=
  (2 <=? String.length name) && (String.length name <=? SAMPLE_NAME_SIZE)
  && forallb printable_char (list_ascii_of_string name).

Definition is_space_char (c : ascii) : bool := (char_code c =? 32)%N.

(** A printable name that neither begins nor ends with a space. *)
Definition trimmed_name (name : string) : bool :=
  printable_name name
  && match list_ascii_of_string name with
     | [] => false
     | c :: _ => negb (is_space_char c)
     end
  && match rev (list_ascii_of_string name) with
     | [] => false
     | c :: _ => negb (is_space_char c)
     end.

(** The payload that follows a name field inside one entry. *)
Definition PAYLOAD_SIZE : nat := PAD_ENTRY_SIZE - SAMPLE_NAME_SIZE.

(** A record of a synthetic descriptor: a trimmed name and its payload. *)
Definition well_formed_record (r : string * list byte) : Prop :=
  trimmed_name r.1 = true ∧ length r.2 = PAYLOAD_SIZE.

(** *** What the scan finds, record by record *)

Definition record_offset (i : nat) : nat :=
  FIRST_SAMPLE_OFFSET + i * PAD_ENTRY_SIZE.

Definition record_name (data : list byte) (i : nat) : string :=
  sample_name_at data (record_offset i).

(** Record [i] is within reach of the loop condition. *)
Definition record_present (data : list byte) (i : nat) : bool :=
  (record_offset i + SAMPLE_NAME_SIZE <=? length data) && (i <? MAX_PADS).

Definition record_entry (data : list byte) (i : nat) : option string :=
  if record_present data i && negb (invalid_name (record_name data i))
  then Some (record_name data i) else None.

(** States the loop passes through. *)
Inductive reachable (data : list byte) : scan_state → Prop :=
  | reachable_init : reachable data scan_init
  | reachable_step st st' :
      reachable data st →
      scan_cond data st = true →
      scan_step data st = Continue st' →
      reachable data st'.

(** *** find_wav_file *)

Definition lower_char (c : ascii) : ascii :=
  let n := char_code c in
  if ((65 <=? n) && (n <=? 90))%N then ascii_of_N (n + 32) else c.

(** [str.lower()], on ASCII letters. *)
Definition lower (s : string) : string :=
  string_of_list_ascii (map lower_char (list_ascii_of_string s)).

Definition ends_with (suffix s : string) : bool :=
  String.prefix (string_of_list_ascii (rev (list_ascii_of_string suffix)))
                (string_of_list_ascii (rev (list_ascii_of_string s))).

(** [Path.stem] of a file name matched by ["*.wav"]: the name without its
    last suffix; a name that is nothing but [".wav"] has no suffix. *)
Definition stem (name : string) : string :=
  if String.length name <=? 4 then name
  else String.substring 0 (String.length name - 4) name.

(** [Path(wav_dir).glob("*.wav")], over the names found in [wav_dir] in the
    order the directory yields them. *)
Definition glob_wav (listing : list string) : list string :=
  List.filter (ends_with ".wav") listing.

(** [find_wav_file], over the names of the entries of [wav_dir].  The test
    [wav_path.exists()] is a look-up among them, as it is for a sample name
    that holds no path separator. *)
Definition find_wav_file (sample_name : string) (listing : list string)
  : option string :=
  let sample_name_clean := strip sample_name in
  let wav_path := String.append sample_name_clean ".wav" in
  if existsb (String.eqb wav_path) listing then Some wav_path
  else
    match List.find (λ wav_file, String.eqb (lower (stem wav_file)) (lower sample_name_clean))
                    (glob_wav listing) with
    | Some wav_file => Some wav_file
    | None =>
        List.find (λ wav_file, contains (lower sample_name_clean) (lower (stem wav_file)))
                  (glob_wav listing)
    end.

(** *** create_sp303_banks *)

(** The surroundings of one run: the names in [wav_dir], the directories
    that [mkdir] cannot create, and the source files on which
    [shutil.copy2] fails. *)
Record org_world : Type := OrgWorld {
  wav_listing : list string;
  mkdir_fails : string → bool;
  copy_fails : string → bool
}.

(** What a run does, in order. *)
Inductive event : Type :=
  | BankDir (bank_name : string)
  | Copied (global_pad_num : nat) (sample_name wav_file dest : string)
  | NotFound (global_pad_num : nat) (sample_name : string)
  | NoAssignment (global_pad_num : nat)
  | BankCreated (bank_name : string).

(** The pad an event is about, if any. *)
Definition event_pad (ev : event) : option nat :=
  match ev with
  | Copied p _ _ _ | NotFound p _ | NoAssignment p => Some p
  | BankDir _ | BankCreated _ => None
  end.

(** The pads a log has dealt with, in order. *)
Definition pads_handled (log : list event) : list nat := omap event_pad log.

(** A run threads its log and stops at the first exception. *)
Definition run (A : Type) : Type := list event → list event * result A.

Definition ret {A : Type} (a : A) : run A := λ log, (log, Ok a).
Definition raise {A : Type} (e : error) : run A := λ log, (log, Raise e).
Definition emit (ev : event) : run unit := λ log, (log ++ [ev], Ok tt).
Definition bind {A B : Type} (m : run A) (k : A → run B) : run B :=
  λ log, match m log with
         | (log', Ok a) => k a log'
         | (log', Raise e) => (log', Raise e)
         end.

Notation "m >>> k" := (bind m (λ _, k)) (at level 62, right associativity, only parsing).

(** A [for] loop over a list. *)
Fixpoint for_each {A : Type} (body : A → run unit) (xs : list A) : run unit :=
  match xs with
  | [] => ret tt
  | x :: xs' => body x >>> for_each body xs'
  end.

Definition bank_names : list string := ["A"; "B"; "C"; "D"; "E"; "F"; "G"; "H"]%string.

(** [f"{n:04d}"] *)
Definition format_04d (n : nat) : string :=
  let digits := pretty n in
  String.append
    (string_of_list_ascii (replicate (4 - String.length digits) "0"%char))
    digits.

(** [Path(output_dir) / f"Bank_{bank_name}"] *)
Definition bank_dir (output_dir bank_name : string) : pure_path :=
  joinpath (Path output_dir) (String.append "Bank_" bank_name).

(** [str(bank_dir / f"SMPL{pad_in_bank+1:04d}.WAV")] *)
Definition dest_path (output_dir bank_name : string) (pad_in_bank : nat) : string :=
  path_str (joinpath (bank_dir output_dir bank_name)
              (String.append "SMPL"
                 (String.append (format_04d (pad_in_bank + 1)) ".WAV"))).

(** The body of the inner loop.  Nothing here catches what [shutil.copy2]
    raises. *)
Definition organize_pad (pads : gmap nat string) (w : org_world)
    (output_dir : string) (bank_idx : nat) (bank_name : string)
    (pad_in_bank : nat) : run unit :=
  let global_pad_num := bank_idx * 8 + pad_in_bank in
  match pads !! global_pad_num with
  | Some sample_name =>
      match find_wav_file sample_name (wav_listing w) with
      | Some wav_file =>
          let dest := dest_path output_dir bank_name pad_in_bank in
          if copy_fails w wav_file then raise (OSError wav_file)
          else emit (Copied global_pad_num sample_name wav_file dest)
      | None => emit (NotFound global_pad_num sample_name)
      end
  | None => emit (NoAssignment global_pad_num)
  end.

(** [bank_dir.mkdir(parents=True, exist_ok=True)]; what it raises is not
    caught either. *)
Definition mkdir (w : org_world) (output_dir bank_name : string) : run unit :=
  let dir := path_str (bank_dir output_dir bank_name) in
  if mkdir_fails w dir then raise (OSError dir) else emit (BankDir bank_name).

(** The body of the outer loop. *)
Definition organize_bank (pads : gmap nat string) (w : org_world)
    (output_dir : string) (bank : nat * string) : run unit :=
  mkdir w output_dir bank.2 >>>
  for_each (organize_pad pads w output_dir bank.1 bank.2) (seq 0 8) >>>
  emit (BankCreated bank.2).

Definition organize (pads : gmap nat string) (w : org_world)
    (output_dir : string) : run unit :=
  for_each (organize_bank pads w output_dir) (zip (seq 0 8) bank_names).

(** [create_sp303_banks], on the bytes of the program file. *)
Definition create_sp303_banks (data : list byte) (w : org_world)
    (output_dir : string) : option (list event * result unit) :=
  match parse_pgm_file data with
  | None => None
  | Some (Raise e) => Some ([], Raise e)
  | Some (Ok pads) => Some (organize pads w output_dir [])
  end.

(** Whether the copy for a pad fails, once the run gets there. *)
Definition copy_raises (pads : gmap nat string) (w : org_world) (p : nat) : bool :=
  match pads !! p with
  | Some sample_name =>
      match find_wav_file sample_name (wav_listing w) with
      | Some wav_file => copy_fails w wav_file
      | None => false
      end
  | None => false
  end.

(** Whether the directory of bank number [b] cannot be created. *)
Definition mkdir_raises (w : org_world) (output_dir : string) (b : nat) : bool :=
  match bank_names !! b with
  | Some bank_name => mkdir_fails w (path_str (bank_dir output_dir bank_name))
  | None => false
  end.

(** *** Example descriptors and surroundings *)

Definition example_header : list byte :=
  replicate 4 x00 ++ list_byte_of_string MAGIC ++ replicate 9 x00.

Definition blank_payload : list byte := replicate PAYLOAD_SIZE x00.

Definition two_pads : list (string * list byte) :=
  [("KICK"%string, blank_payload); ("SNARE"%string, blank_payload)].

(** A printable name with a space at its end. *)
Definition untrimmed : list (string * list byte) :=
  [("KICK "%string, blank_payload)].

Definition sixty_five : list (string * list byte) :=
  replicate 65 ("KICK"%string, blank_payload).



(** A header followed by one name field and nothing else: 40 bytes. *)
Definition bare_name : list byte := example_header ++ name_field "KICK".

(** A header without the magic. *)
Definition no_magic : list byte := replicate 24 x00 ++ name_field "KICK".

(** The claim's records: printable names, whatever their ends. *)
Definition printable_record (r : string * list byte) : bool :=
  printable_name r.1 && (length r.2 =? PAYLOAD_SIZE).

Definition parsed_size (data : list byte) : option nat :=
  match parse_pgm_file data with
  | Some (Ok m) => Some (size m)
  | _ => None
  end.

Definition healthy_world : org_world :=
  {| wav_listing := ["kick.wav"; "snare.wav"]%string;
     mkdir_fails := λ _, false; copy_fails := λ _, false |}.

Definition failing_world : org_world :=
  {| wav_listing := ["kick.wav"; "snare.wav"]%string;
     mkdir_fails := λ _, false; copy_fails := String.eqb "kick.wav" |}.

(** The directory of bank B cannot be created. *)
Definition no_bank_B_world : org_world :=
  {| wav_listing := ["kick.wav"; "snare.wav"]%string;
     mkdir_fails := String.eqb "out/Bank_B"; copy_fails := λ _, false |}.

Definition one_pad_data : list byte :=
  make_descriptor example_header [("KICK"%string, blank_payload)].

(** *** What the parser looks at, and where a copy goes *)

(** The byte positions the parser reads: the header window [data[4:20]] and
    the 16-byte name field of each of the first 64 entries. *)
Definition is_read (pos : nat) : bool :=
  (4 <=? pos) && (pos <? 20)
  || (FIRST_SAMPLE_OFFSET <=? pos)
     && ((pos - FIRST_SAMPLE_OFFSET) mod PAD_ENTRY_SIZE <? SAMPLE_NAME_SIZE)
     && ((pos - FIRST_SAMPLE_OFFSET) / PAD_ENTRY_SIZE <? MAX_PADS).

(** A name as the listing of a directory holds it: ASCII, so that [lower]
    is [str.lower()], and free of the null character and of the path
    separator, so that [Path(wav_dir) / name] is an entry of [wav_dir]. *)
Definition plain_char (c : ascii) : bool :=
  ((1 <=? char_code c) && (char_code c <? 128) && negb (char_code c =? 47))%N.

Definition plain_name (s : string) : bool :=
  forallb plain_char (list_ascii_of_string s).

(** What [str] puts before the names joined to a path. *)
Definition dir_prefix (p : pure_path) : string :=
  String.append (root p)
    (String.concat "" (map (λ x, String.append x "/") (parts p))).

(** The destination of pad [p] below the output directory. *)
Definition slot_path (p : nat) : string :=
  dest_path "" (default EmptyString (bank_names !! (p / 8))) (p mod 8).

(** Two records with the names of [two_pads] and another payload, behind a
    header whose first four bytes differ as well. *)
Definition loud_payload : list byte := replicate PAYLOAD_SIZE xff.

Definition loud_pads : list byte :=
  make_descriptor (replicate 4 xff ++ drop 4 example_header)
    [("KICK"%string, loud_payload); ("SNARE"%string, loud_payload)].

(** A directory with a longer name for the kick and an upper-case
    extension. *)
Definition mixed_listing : list string :=
  ["My Kick 2.wav"; "KICK.WAV"]%string.

Definition three_kicks : list string :=
  ["kick2.wav"; "KICK.wav"; "Kick.wav"]%string.

Definition shouting_listing : list string :=
  ["KICK.WAV"; "snare.wav"]%string.

End Pgm.

(** ** Python floats *)

Module PyFloat.

Local Open Scope Z_scope.

Definition prec : Z := 53.
Definition emax : Z := 1024.

Definition float : Type := spec_float.

(** [float(z)] for the integers met here, all below [2^53] in size and so
    converted without rounding. *)
Definition of_int (z : Z) : float := binary_normalize prec emax z 0 false.

Definition mul (x y : float) : float := SFmul prec emax x y.
Definition div (x y : float) : float := SFdiv prec emax x y.

(** [x < y] and [x >= y]; both are false when a NaN is compared. *)
Definition ltb (x y : float) : bool := SFltb x y.
Definition geb (x y : float) : bool := SFleb y x.

(** [a / b] on two integers; [None] is ZeroDivisionError. *)
Definition true_div (a b : Z) : option float :=
  if b =? 0 then None else Some (div (of_int a) (of_int b)).

(** [int(x)]: the fraction is cut off; [None] is the ValueError or
    OverflowError raised on a NaN or an infinity. *)
Definition to_int (x : float) : option Z :=
  match x with
  | S754_zero _ => Some 0
  | S754_finite s m e => Some (cond_Zopp s (Z.shiftl (Z.pos m) e))
  | S754_infinity _ | S754_nan => None
  end.

(** [math.floor(x)], for comparison with [int(x)]. *)
Definition floor (x : float) : option Z :=
  match x with
  | S754_zero _ => Some 0
  | S754_finite false m e => Some (Z.shiftl (Z.pos m) e)
  | S754_finite true m e => Some (Z.shiftl (Z.neg m) e)
  | S754_infinity _ | S754_nan => None
  end.

Definition is_float (x : float) : bool := valid_binary prec emax x.

End PyFloat.

(** ** preprocess_sp303_wavs.py *)

Module Wav.

Import PyFloat.
Local Open Scope Z_scope.

(** [MIN_DURATION = 0.11]: the binary64 number nearest to 11/100. *)
Definition MIN_DURATION : float := S754_finite false 7926335344172073 (-56).

(** *** The wave module, as far as the script uses it

    A PCM container as [wave.open] reads it: the three format fields of the
    [fmt] chunk, the size field of the [data] chunk, and the bytes the file
    holds behind that field.  The frame count is taken from the size field,
    not from the bytes, so a file that was cut short counts more frames
    than it holds. *)
Record wav_file : Type := WavFile {
  nchannels : Z;
  sampwidth : Z;
  framerate : Z;
  chunksize : Z;
  data : list byte
}.

(** What a path holds: a PCM container, or something [wave.open] rejects. *)
Inductive file : Type :=
  | Pcm (w : wav_file)
  | NotWave.

(** The files, by the path string handed to [open] (two strings are two
    files), and the paths that cannot be opened for writing. *)
Record world : Type := World {
  files : gmap string file;
  readonly : gset string
}.

(** The files with [f] at [path]. *)
Definition put (path : string) (f : file) (wd : world) : world :=
  {| files := <[path := f]> (files wd); readonly := readonly wd |}.

Definition framesize (w : wav_file) : Z := nchannels w * sampwidth w.

(** What the reader takes: the field widths of a RIFF header (16-bit
    channel count and bits per sample, so at most 8192 bytes per sample,
    32-bit frame rate and chunk size), with a channel count and a sample
    width that are not zero.  The byte rate and the block align of the
    header are read and ignored. *)
Definition riff_ok (w : wav_file) : bool :=
  (1 <=? nchannels w) && (nchannels w <? 2 ^ 16)
  && (1 <=? sampwidth w) && (sampwidth w <=? 2 ^ 13)
  && (0 <=? framerate w) && (framerate w <? 2 ^ 32)
  && (0 <=? chunksize w) && (chunksize w <? 2 ^ 32).

(** [wave.open(path, 'rb')]; [None] is any exception. *)
Definition wave_open_read (path : string) (wd : world) : option wav_file :=
  match files wd !! path with
  | Some (Pcm w) => if riff_ok w then Some w else None
  | _ => None
  end.

(** [getparams()], without the constant compression fields. *)
Record wave_params : Type := WaveParams {
  p_nchannels : Z;
  p_sampwidth : Z;
  p_framerate : Z;
  p_nframes : Z
}.

(** [getnframes()]: [chunksize // framesize], set when the file is opened. *)
Definition getnframes (w : wav_file) : Z := chunksize w / framesize w.

Definition getparams (w : wav_file) : wave_params :=
  {| p_nchannels := nchannels w; p_sampwidth := sampwidth w;
     p_framerate := framerate w; p_nframes := getnframes w |}.

(** [_Chunk.read(size)] at the start of the [data] chunk: never past the
    end of the chunk, and no more than the file holds. *)
Definition chunk_read (w : wav_file) (size : Z) : list byte :=
  let size := if (size <? 0) || (chunksize w <? size) then chunksize w else size in
  take (Z.to_nat size) (data w).

(** [readframes(n)], first call after the open. *)
Definition readframes (w : wav_file) (n : Z) : list byte :=
  if n =? 0 then [] else chunk_read w (n * framesize w).

(** What [setparams] accepts: at least one channel, a sample width of 1 to
    4 bytes, a positive frame rate. *)
Definition setparams_ok (params : wave_params) : bool :=
  (1 <=? p_nchannels params)
  && (1 <=? p_sampwidth params) && (p_sampwidth params <=? 4)
  && (0 <? p_framerate params).

(** Whether [struct.pack] takes the fields [_write_header] hands it:
    32 bits for [36 + datalength], the frame rate, the byte rate and the
    data length, 16 bits for the channel count, the block align and the
    bits per sample. *)
Definition header_packs (params : wave_params) (datalength : Z) : bool :=
  let byte_rate := p_nchannels params * p_framerate params * p_sampwidth params in
  let block_align := p_nchannels params * p_sampwidth params in
  let bits := p_sampwidth params * 8 in
  (0 <=? 36 + datalength) && (36 + datalength <? 2 ^ 32)
  && (0 <=? p_nchannels params) && (p_nchannels params <? 2 ^ 16)
  && (0 <=? p_framerate params) && (p_framerate params <? 2 ^ 32)
  && (0 <=? byte_rate) && (byte_rate <? 2 ^ 32)
  && (0 <=? block_align) && (block_align <? 2 ^ 16)
  && (0 <=? bits) && (bits <? 2 ^ 16)
  && (0 <=? datalength) && (datalength <? 2 ^ 32).

(** What a write that goes through leaves: the format of [params], the
    size field patched to the bytes written. *)
Definition written (params : wave_params) (frames : list byte) : wav_file :=
  {| nchannels := p_nchannels params; sampwidth := p_sampwidth params;
     framerate := p_framerate params;
     chunksize := Z.of_nat (length frames); data := frames |}.

(** [wave.open(path, 'wb')], [setparams(params)], [writeframes(frames)] and
    the close.  The boolean is False when any of them raises.  A path that
    cannot be opened stays as it is.  Otherwise the open has emptied the
    file: when [setparams] or the packing of the header raises, what is
    left is no WAV file; when only the patching of the size fields raises,
    the header keeps the data length computed from [params]. *)
Definition wave_write (path : string) (params : wave_params)
    (frames : list byte) (wd : world) : bool * world :=
  let datawritten := Z.of_nat (length frames) in
  if decide (path ∈ readonly wd) then (false, wd)
  else if negb (setparams_ok params) then (false, put path NotWave wd)
  else
    let nframes :=
      if p_nframes params =? 0
      then datawritten / (p_nchannels params * p_sampwidth params)
      else p_nframes params in
    let datalength := nframes * p_nchannels params * p_sampwidth params in
    if negb (header_packs params datalength) then (false, put path NotWave wd)
    else if (datalength =? datawritten) || (36 + datawritten <? 2 ^ 32)
    then (true, put path (Pcm (written params frames)) wd)
    else (false, put path (Pcm {| nchannels := p_nchannels params;
                                  sampwidth := p_sampwidth params;
                                  framerate := p_framerate params;
                                  chunksize := datalength; data := frames |}) wd).

(** *** The audio asset of the specification *)
Record AudioAsset : Type := Asset {
  channel_count : Z;
  sample_width_bytes : Z;
  frame_rate_hz : Z;
  frame_count : Z;
  raw_frame_bytes : list byte
}.

Definition asset_of (w : wav_file) : AudioAsset :=
  {| channel_count := nchannels w; sample_width_bytes := sampwidth w;
     frame_rate_hz := framerate w; frame_count := getnframes w;
     raw_frame_bytes := readframes w (getnframes w) |}.

Definition read_asset (path : string) (wd : world) : option AudioAsset :=
  asset_of <$> wave_open_read path wd.

(** A file that holds all the frames its header counts. *)
Definition holds_its_frames (w : wav_file) : bool :=
  getnframes w * framesize w <=? Z.of_nat (length (data w)).

(** A format the writer takes: what [setparams] accepts of a readable
    file, with a byte rate and a block align that fit their header
    fields. *)
Definition writable_format (w : wav_file) : bool :=
  (sampwidth w <=? 4) && (0 <? framerate w)
  && (nchannels w * framerate w * sampwidth w <? 2 ^ 32)
  && (nchannels w * sampwidth w <? 2 ^ 16).

(** *** get_wav_info, is_too_short, is_sp303_compatible *)

Record wav_info : Type := WavInfo {
  channels : Z;
  sample_width : Z;
  info_framerate : Z;
  frames : Z;
  duration : float
}.

Definition get_wav_info (wav_path : string) (wd : world) : option wav_info :=
  match wave_open_read wav_path wd with
  | None => None
  | Some wav =>
      match true_div (getnframes wav) (framerate wav) with
      | None => None
      | Some d =>
          Some {| channels := nchannels wav; sample_width := sampwidth wav;
                  info_framerate := framerate wav; frames := getnframes wav;
                  duration := d |}
      end
  end.

Definition is_too_short (info : option wav_info) : bool :=
  match info with
  | None => false
  | Some info => ltb (duration info) MIN_DURATION
  end.

Definition is_sp303_compatible (info : option wav_info) : bool :=
  match info with
  | None => false
  | Some info =>
      (info_framerate info =? 44100)
      && (sample_width info =? 2)
      && ((channels info =? 1) || (channels info =? 2))
      && geb (duration info) MIN_DURATION
  end.

(** *** pad_short_sample

    The result of [wave_write] is the result of the call: True when the
    write goes through, False from the handler when it raises.  The lines
    printed are taken to be printed. *)

Definition pad_short_sample (input_path output_path : string)
    (target_duration : float) (wd : world) : bool * world :=
  match wave_open_read input_path wd with
  | None => (false, wd)
  | Some wav_in =>
      let params := getparams wav_in in
      let frames := readframes wav_in (p_nframes params) in
      match true_div (p_nframes params) (p_framerate params) with
      | None => (false, wd)
      | Some current_duration =>
          if geb current_duration target_duration then
            if negb (String.eqb input_path output_path) then
              wave_write output_path params frames wd
            else (true, wd)
          else
            match to_int (mul target_duration (of_int (p_framerate params))) with
            | None => (false, wd)
            | Some target_frames =>
                let silence_frames := target_frames - p_nframes params in
                let silence_bytes :=
                  silence_frames * p_nchannels params * p_sampwidth params in
                let silence := replicate (Z.to_nat silence_bytes) x00 in
                let padded_frames := frames ++ silence in
                wave_write output_path params padded_frames wd
            end
      end
  end.

(** The file a pass-through copy writes: same format, the frames read from
    the source. *)
Definition copy_of (w : wav_file) : wav_file :=
  written (getparams w) (readframes w (getnframes w)).

(** The file the padding branch writes for a given [target_frames]. *)
Definition padded_of (w : wav_file) (target_frames : Z) : wav_file :=
  written (getparams w)
    (readframes w (getnframes w)
     ++ replicate (Z.to_nat ((target_frames - getnframes w)
                             * nchannels w * sampwidth w)) x00).

(** *** convert_format *)

Definition convert_format (input_path output_path : string) (wd : world)
  : bool * world :=
  match wave_open_read input_path wd with
  | None => (false, wd)
  | Some wav_in =>
      let params := getparams wav_in in
      let frames := readframes wav_in (p_nframes params) in
      let needs_conversion :=
        negb (p_framerate params =? 44100) || negb (p_sampwidth params =? 2) in
      if negb needs_conversion then
        if negb (String.eqb input_path output_path) then
          wave_write output_path params frames wd
        else (true, wd)
      else
        if negb (String.eqb input_path output_path) then
          (false, (wave_write output_path params frames wd).2)
        else (false, wd)
  end.

(** *** preprocess_directory *)

Record counters : Type := Counters {
  compatible_count : nat;
  padded_count : nat;
  format_issues : nat;
  error_count : nat
}.

Definition no_counts : counters :=
  {| compatible_count := 0; padded_count := 0; format_issues := 0; error_count := 0 |}.

Definition total (c : counters) : nat :=
  (compatible_count c + padded_count c + format_issues c + error_count c)%nat.

Definition count_compatible (c : counters) : counters :=
  {| compatible_count := S (compatible_count c); padded_count := padded_count c;
     format_issues := format_issues c; error_count := error_count c |}.
Definition count_padded (c : counters) : counters :=
  {| compatible_count := compatible_count c; padded_count := S (padded_count c);
     format_issues := format_issues c; error_count := error_count c |}.
Definition count_format_issue (c : counters) : counters :=
  {| compatible_count := compatible_count c; padded_count := padded_count c;
     format_issues := S (format_issues c); error_count := error_count c |}.
Definition count_error (c : counters) : counters :=
  {| compatible_count := compatible_count c; padded_count := padded_count c;
     format_issues := format_issues c; error_count := S (error_count c) |}.

(** [str(Path(dir) / name)] *)
Definition join (dir name : string) : string :=
  path_str (joinpath (Path dir) name).

(** [framerate != 44100 or sample_width != 2] *)
Definition format_differs (info : wav_info) : bool :=
  negb (info_framerate info =? 44100) || negb (sample_width info =? 2).

(** The four verdicts of the specification. *)
Inductive verdict : Type := Compliant | TooShort | FormatMismatch | Unreadable.

(** The branch the loop body takes for a file, read off its
    [if]/[elif]/[else]. *)
Definition classify (info : option wav_info) : verdict :=
  match info with
  | None => Unreadable
  | Some i =>
      if is_too_short info then TooShort
      else if format_differs i then FormatMismatch
      else Compliant
  end.

(** The precedence as the specification words it, channel count included. *)
Definition spec_verdict (info : option wav_info) : verdict :=
  match info with
  | None => Unreadable
  | Some i =>
      if ltb (duration i) MIN_DURATION then TooShort
      else if negb (info_framerate i =? 44100) || negb (sample_width i =? 2)
              || negb ((channels i =? 1) || (channels i =? 2))
      then FormatMismatch
      else Compliant
  end.

(** The body of the [for wav_file in sorted(wav_files)] loop, on the
    strings of the two directory paths.
    [copy_out] is [output_dir and output_path != input_path]. *)
Definition process_file (input_path output_path : string) (copy_out : bool)
    (name : string) (st : counters * world) : counters * world :=
  let '(c, wd) := st in
  let wav_file := join input_path name in
  let info := get_wav_info wav_file wd in
  match info with
  | None => (count_error c, wd)
  | Some i =>
      let output_file := join output_path name in
      if is_too_short info then
        match pad_short_sample wav_file output_file MIN_DURATION wd with
        | (true, wd1) =>
            let c1 := count_padded c in
            match get_wav_info output_file wd1 with
            | Some new_info =>
                if format_differs new_info then
                  (count_format_issue c1,
                   (convert_format output_file output_file wd1).2)
                else (c1, wd1)
            | None => (c1, wd1)
            end
        | (false, wd1) => (count_error c, wd1)
        end
      else if format_differs i then
        match convert_format wav_file output_file wd with
        | (true, wd1) => (count_compatible c, wd1)
        | (false, wd1) => (count_format_issue c, wd1)
        end
      else
        (count_compatible c,
         if copy_out then (pad_short_sample wav_file output_file (of_int 0) wd).2
         else wd)
  end.

(** [preprocess_directory], given the sorted names of the WAV files of
    [input_dir], once the output directory is there; the result is the four
    counts of the summary.  An [output_dir] that is [None] or empty is
    falsy; the two directories are compared as paths, so that ["in/"] and
    ["in"] are the same. *)
Definition preprocess_directory (input_dir : string) (output_dir : option string)
    (wav_files : list string) (wd : world) : counters * world :=
  let input_path := Path input_dir in
  let truthy := match output_dir with
                | Some d => negb (String.eqb d "")
                | None => false
                end in
  let output_path := if truthy then Path (default EmptyString output_dir)
                     else input_path in
  let copy_out := truthy && negb (bool_decide (output_path = input_path)) in
  fold_left (λ st name, process_file (path_str input_path) (path_str output_path)
                          copy_out name st)
            wav_files (no_counts, wd).

(** *** Example files *)

(** 50 ms of mono 16-bit audio at 16000 Hz: 800 frames. *)
Definition short_16k : wav_file :=
  {| nchannels := 1; sampwidth := 2; framerate := 16000;
     chunksize := 1600; data := replicate 1600 x01 |}.

Definition short_16k_world : world :=
  {| files := {[ "in/a.wav"%string := Pcm short_16k ]}; readonly := ∅ |}.

Definition short_16k_names : list string := ["a.wav"%string].

(** 5000 frames of three-channel 16-bit audio at 44100 Hz. *)
Definition three_channel : wav_file :=
  {| nchannels := 3; sampwidth := 2; framerate := 44100;
     chunksize := 30000; data := replicate (Z.to_nat 30000) x01 |}.

Definition three_channel_world : world :=
  {| files := {[ "in/wide.wav"%string := Pcm three_channel ]}; readonly := ∅ |}.

(** Mono 16-bit audio at 44100 Hz that was cut short: the header counts
    100 frames, the file holds 50. *)
Definition cut_short : wav_file :=
  {| nchannels := 1; sampwidth := 2; framerate := 44100;
     chunksize := 200; data := replicate 100 x01 |}.

Definition cut_short_world : world :=
  {| files := {[ "in/cut.wav"%string := Pcm cut_short ]}; readonly := ∅ |}.

(** 10 frames of mono audio at 100 Hz with 5 bytes a sample: the reader
    takes it, [setparams] does not. *)
Definition five_bytes_wide : wav_file :=
  {| nchannels := 1; sampwidth := 5; framerate := 100;
     chunksize := 50; data := replicate 50 x01 |}.

Definition five_bytes_wide_world : world :=
  {| files := {[ "in/wide5.wav"%string := Pcm five_bytes_wide ]}; readonly := ∅ |}.

(** Two formats the reader takes and the writer refuses: a block align
    beyond 16 bits, and a byte rate beyond 32 bits. *)
Definition many_channels : wav_file :=
  {| nchannels := 40000; sampwidth := 2; framerate := 44100;
     chunksize := 0; data := [] |}.

Definition fast_pair : wav_file :=
  {| nchannels := 2; sampwidth := 1; framerate := 2 ^ 31;
     chunksize := 2; data := [x01; x01] |}.

Definition refused_world : world :=
  {| files := {[ "in/many.wav"%string := Pcm many_channels;
                 "in/fast.wav"%string := Pcm fast_pair ]};
     readonly := ∅ |}.

(** *** What a run may touch *)

(** Two states of the files that differ at most at [out]. *)
Definition same_elsewhere (out : string) (wd wd' : world) : Prop :=
  readonly wd' = readonly wd ∧ ∀ p, p ≠ out → files wd' !! p = files wd !! p.

(** [str(Path(output_dir) if output_dir else input_path)] *)
Definition output_path_of (input_dir : string) (output_dir : option string) : string :=
  match output_dir with
  | Some d => if String.eqb d "" then path_str (Path input_dir) else path_str (Path d)
  | None => path_str (Path input_dir)
  end.

(** [output_dir and output_path != input_path] *)
Definition copies_out (input_dir : string) (output_dir : option string) : bool :=
  match output_dir with
  | Some d => negb (String.eqb d "") && negb (bool_decide (Path d = Path input_dir))
  | None => false
  end.

(** 1000 frames of mono 16-bit audio at 22050 Hz, about 45 ms. *)
Definition short_22k : wav_file :=
  {| nchannels := 1; sampwidth := 2; framerate := 22050;
     chunksize := 2000; data := replicate 2000 x01 |}.

Definition short_22k_world : world :=
  {| files := {[ "in/b.wav"%string := Pcm short_22k ]}; readonly := ∅ |}.

(** 1000 frames of mono 8-bit audio at 8000 Hz: long enough, and not in
    the format of the sampler. *)
Definition long_8k : wav_file :=
  {| nchannels := 1; sampwidth := 1; framerate := 8000;
     chunksize := 1000; data := replicate 1000 x01 |}.

Definition long_8k_world : world :=
  {| files := {[ "in/c.wav"%string := Pcm long_8k ]}; readonly := ∅ |}.

End Wav.

(** * Properties *)

(** ** Bytes, characters and stripping *)

Lemma byte_code_of_ascii (c : ascii) : byte_code (byte_of_ascii c) = char_code c.
Proof. destruct c as [[] [] [] [] [] [] [] []]; reflexivity. Qed.

Lemma char_code_chr (b : byte) : char_code (chr b) = byte_code b.
Proof. destruct b; reflexivity. Qed.

Lemma lstrip_chars_suffix (l : list ascii) : ∃ k, lstrip_chars l = drop k l.
Proof.
  induction l as [|c l [k IH]]; [by exists 0|]. simpl.
  destruct (py_isspace c); [by exists (S k) | by exists 0].
Qed.

Lemma lstrip_chars_Forall (P : ascii → Prop) (l : list ascii) :
  Forall P l → Forall P (lstrip_chars l).
Proof.
  intros H. destruct (lstrip_chars_suffix l) as [k ->]. by apply Forall_drop.
Qed.

Lemma strip_chars_Forall (P : ascii → Prop) (l : list ascii) :
  Forall P l → Forall P (strip_chars l).
Proof.
  intros H. unfold strip_chars.
  apply Forall_rev, lstrip_chars_Forall, Forall_rev. by apply lstrip_chars_Forall.
Qed.

Lemma lstrip_chars_head (l : list ascii) :
  match lstrip_chars l with
  | [] => True
  | c :: _ => py_isspace c = false
  end.
Proof.
  induction l as [|c l IH]; [done|]. simpl.
  destruct (py_isspace c) eqn:E; [done|]. by simpl.
Qed.

Lemma lstrip_chars_id (l : list ascii) :
  match l with [] => True | c :: _ => py_isspace c = false end →
  lstrip_chars l = l.
Proof. destruct l as [|c l]; [done|]. simpl. by intros ->. Qed.

Lemma lstrip_chars_idemp (l : list ascii) : lstrip_chars (lstrip_chars l) = lstrip_chars l.
Proof. apply lstrip_chars_id, lstrip_chars_head. Qed.

(** Stripping leaves no white space at either end. *)
Lemma strip_chars_ends (l : list ascii) :
  match strip_chars l with [] => True | c :: _ => py_isspace c = false end
  ∧ match rev (strip_chars l) with [] => True | c :: _ => py_isspace c = false end.
Proof.
  unfold strip_chars. rewrite rev_involutive. split; [|apply lstrip_chars_head].
  set (m := lstrip_chars l).
  assert (Hm : match m with [] => True | c :: _ => py_isspace c = false end)
    by apply lstrip_chars_head.
  destruct (lstrip_chars_suffix (rev m)) as [k ->].
  assert (E : m = rev (drop k (rev m)) ++ rev (take k (rev m))).
  { by rewrite <- rev_app_distr, take_drop, rev_involutive. }
  destruct (rev (drop k (rev m))) as [|c t]; [done|].
  rewrite E in Hm. done.
Qed.

Lemma strip_chars_id (l : list ascii) :
  match l with [] => True | c :: _ => py_isspace c = false end →
  match rev l with [] => True | c :: _ => py_isspace c = false end →
  strip_chars l = l.
Proof.
  intros H1 H2. unfold strip_chars.
  rewrite (lstrip_chars_id l H1), (lstrip_chars_id (rev l) H2).
  apply rev_involutive.
Qed.

Lemma strip_idemp (s : string) : strip (strip s) = strip s.
Proof.
  unfold strip. rewrite list_ascii_of_string_of_list_ascii.
  f_equal. apply strip_chars_id; apply strip_chars_ends.
Qed.

(** ** Decoding a name field *)

Import Pgm.


Lemma decode_name_chars (raw : list byte) :
  Forall (λ c, printable_char c = true) (list_ascii_of_string (decode_name raw)).
Proof.
  induction raw as [|b raw IH]; simpl; [constructor|].
  destruct (printable b) eqn:Hp.
  - simpl. constructor; [|done].
    unfold printable_char. rewrite char_code_chr. exact Hp.
  - destruct (is_null b); [constructor | done].
Qed.



Lemma strip_empty : strip EmptyString = EmptyString.
Proof. reflexivity. Qed.


(** ** The scan loop *)

Lemma scan_step_Continue (data : list byte) (st st' : scan_state) :
  scan_step data st = Continue st' →
  pad_index st' = S (pad_index st)
  ∧ offset st' = offset st + PAD_ENTRY_SIZE
  ∧ pads st' =
      if invalid_name (sample_name_at data (offset st)) then pads st
      else <[pad_index st := sample_name_at data (offset st)]> (pads st).
Proof.
  unfold scan_step.
  destruct (invalid_name _); [destruct (0 <? pad_index st)|];
    intros [= <-]; simpl; repeat split; first [lia | done].
Qed.

(** The loop always ends within the 64 passes its condition allows. *)
Lemma scan_total (fuel : nat) (data : list byte) (st : scan_state) :
  MAX_PADS ≤ fuel + pad_index st → is_Some (scan fuel data st).
Proof.
  revert st. induction fuel as [|fuel IH]; intros st Hfuel; simpl.
  - destruct (scan_cond data st) eqn:Hc; [|by eexists].
    unfold scan_cond in Hc. apply andb_true_iff in Hc as [_ Hc].
    apply Nat.ltb_lt in Hc. lia.
  - destruct (scan_cond data st); [|by eexists].
    destruct (scan_step data st) as [|st'] eqn:Hs; [by eexists|].
    apply IH. apply scan_step_Continue in Hs as (-> & _). lia.
Qed.

Lemma parse_pgm_file_total (data : list byte) : is_Some (parse_pgm_file data).
Proof.
  unfold parse_pgm_file, parse_pgm_file_fuel.
  destruct (contains MAGIC (header data)); [|by eexists].
  destruct (scan_total MAX_PADS data scan_init) as [m ->]; [lia|].
  by eexists.
Qed.

Lemma record_offset_S (i : nat) : record_offset (S i) = record_offset i + PAD_ENTRY_SIZE.
Proof. unfold record_offset, PAD_ENTRY_SIZE. lia. Qed.

Lemma record_offset_mono (i j : nat) : i ≤ j → record_offset i ≤ record_offset j.
Proof. unfold record_offset, PAD_ENTRY_SIZE. nia. Qed.

Lemma scan_cond_present (data : list byte) (st : scan_state) :
  offset st = record_offset (pad_index st) →
  scan_cond data st = record_present data (pad_index st).
Proof. unfold scan_cond, record_present. by intros ->. Qed.

Lemma record_present_mono (data : list byte) (i j : nat) :
  i ≤ j → record_present data i = false → record_present data j = false.
Proof.
  unfold record_present. intros Hij H.
  apply andb_false_iff in H. apply andb_false_iff.
  pose proof (record_offset_mono i j Hij).
  destruct H as [H|H]; [left|right].
  - apply Nat.leb_gt in H. apply Nat.leb_gt. lia.
  - apply Nat.ltb_ge in H. apply Nat.ltb_ge. lia.
Qed.

Lemma record_entry_absent (data : list byte) (i : nat) :
  record_present data i = false → record_entry data i = None.
Proof. unfold record_entry. by intros ->. Qed.

(** Once the first record is accepted, the loop records exactly the
    entries within reach that carry a valid name. *)
Lemma scan_entries (fuel : nat) (data : list byte) (st : scan_state) :
  MAX_PADS ≤ fuel + pad_index st →
  0 < pad_index st →
  offset st = record_offset (pad_index st) →
  (∀ i, pad_index st ≤ i → pads st !! i = None) →
  ∃ m, scan fuel data st = Some m
       ∧ ∀ i, m !! i = if decide (i < pad_index st) then pads st !! i
                       else record_entry data i.
Proof.
  revert st. induction fuel as [|fuel IH]; intros st Hfuel Hpos Hoff Hfresh.
  - simpl. destruct (scan_cond data st) eqn:Hc.
    + unfold scan_cond in Hc. apply andb_true_iff in Hc as [_ Hc].
      apply Nat.ltb_lt in Hc. lia.
    + exists (pads st). split; [done|]. intros i. case_decide; [done|].
      rewrite Hfresh by lia. symmetry. apply record_entry_absent.
      apply (record_present_mono data (pad_index st)); [lia|].
      by rewrite <- scan_cond_present.
  - simpl. destruct (scan_cond data st) eqn:Hc.
    + destruct (scan_step data st) as [|st'] eqn:Hs.
      { unfold scan_step in Hs. apply Nat.ltb_lt in Hpos. rewrite Hpos in Hs.
        by destruct (invalid_name _). }
      apply scan_step_Continue in Hs as (Hi & Ho & Hp).
      destruct (IH st') as (m & Hm & Hlook).
      * lia.
      * lia.
      * rewrite Ho, Hi, Hoff. symmetry. apply record_offset_S.
      * intros i Hle. rewrite Hp.
        destruct (invalid_name _); [apply Hfresh; lia|].
        rewrite lookup_insert_ne by lia. apply Hfresh. lia.
      * exists m. split; [done|]. intros i. rewrite Hlook, Hi.
        destruct (decide (i < pad_index st)) as [Hlt|Hge].
        { rewrite decide_True by lia. rewrite Hp.
          destruct (invalid_name _); [done|]. by rewrite lookup_insert_ne by lia. }
        destruct (decide (i < S (pad_index st))) as [Hlt|Hge']; [|done].
        assert (i = pad_index st) as -> by lia.
        rewrite Hp. unfold record_entry, record_name.
        rewrite <- scan_cond_present, Hc, <- Hoff by done. simpl.
        destruct (invalid_name _); simpl; [apply Hfresh; lia|].
        by rewrite lookup_insert_eq.
    + exists (pads st). split; [done|]. intros i. case_decide; [done|].
      rewrite Hfresh by lia. symmetry. apply record_entry_absent.
      apply (record_present_mono data (pad_index st)); [lia|].
      by rewrite <- scan_cond_present.
Qed.

Lemma scan_S (fuel : nat) (data : list byte) (st : scan_state) :
  scan (S fuel) data st =
    if scan_cond data st then
      match scan_step data st with
      | Break => Some (pads st)
      | Continue st' => scan fuel data st'
      end
    else Some (pads st).
Proof. reflexivity. Qed.

Lemma scan_step_init (data : list byte) :
  scan_step data scan_init =
    if invalid_name (record_name data 0) then Break
    else Continue {| pad_index := 1; offset := record_offset 1;
                     pads := <[0 := record_name data 0]> ∅ |}.
Proof. reflexivity. Qed.

(** A descriptor with the magic parses to the entries of its records, or
    to nothing when the first record is rejected. *)
Lemma parse_entries (data : list byte) :
  contains MAGIC (header data) = true →
  ∃ m, parse_pgm_file data = Some (Ok m)
       ∧ ∀ i, m !! i = if record_entry data 0 is Some _ then record_entry data i else None.
Proof.
  intros Hmagic. unfold parse_pgm_file, parse_pgm_file_fuel. rewrite Hmagic.
  change MAX_PADS with (S 63). rewrite scan_S, scan_step_init.
  change (scan_cond data scan_init) with (record_present data 0).
  destruct (record_present data 0) eqn:Hc.
  - destruct (invalid_name (record_name data 0)) eqn:Hv.
    + exists ∅. split; [done|]. intros i.
      unfold record_entry at 1. rewrite Hc, Hv. apply lookup_empty.
    + assert (H0 : record_entry data 0 = Some (record_name data 0)).
      { unfold record_entry. by rewrite Hc, Hv. }
      edestruct (scan_entries 63 data) as (m & -> & Hlook);
        [| | | | exists m; split; [done|]].
      * unfold MAX_PADS. simpl pad_index. lia.
      * simpl pad_index. lia.
      * done.
      * intros i Hle. simpl in Hle. simpl pads.
        rewrite lookup_insert_ne by lia. apply lookup_empty.
      * intros i. rewrite Hlook, H0. simpl pad_index. simpl pads.
        case_decide; [|done].
        assert (i = 0) as -> by lia. by rewrite H0, lookup_insert_eq.
  - exists ∅. split; [done|]. intros i.
    rewrite (record_entry_absent data 0) by done. apply lookup_empty.
Qed.

(** ** Synthetic descriptors *)

Lemma length_list_ascii_of_string (s : string) :
  length (list_ascii_of_string s) = String.length s.
Proof. induction s as [|c s IH]; simpl; [done|]. by rewrite IH. Qed.

Lemma length_list_byte_of_string (s : string) :
  length (list_byte_of_string s) = String.length s.
Proof.
  unfold list_byte_of_string. by rewrite length_map, length_list_ascii_of_string.
Qed.

Lemma length_name_field (name : string) :
  String.length name ≤ SAMPLE_NAME_SIZE → length (name_field name) = SAMPLE_NAME_SIZE.
Proof.
  intros H. unfold name_field.
  rewrite length_app, length_list_byte_of_string, length_replicate. lia.
Qed.

Lemma decode_name_zeros (k : nat) : decode_name (replicate k x00) = EmptyString.
Proof. by destruct k. Qed.

Lemma decode_name_field (name : string) :
  forallb printable_char (list_ascii_of_string name) = true →
  decode_name (name_field name) = name.
Proof.
  unfold name_field. generalize (SAMPLE_NAME_SIZE - String.length name) as k.
  induction name as [|c name IH]; intros k Hp.
  - apply decode_name_zeros.
  - simpl in Hp. apply andb_true_iff in Hp as [Hc Hp].
    change (list_byte_of_string (String c name))
      with (byte_of_ascii c :: list_byte_of_string name).
    simpl. unfold printable. rewrite byte_code_of_ascii.
    unfold printable_char in Hc. rewrite Hc.
    unfold chr. rewrite ascii_of_byte_of_ascii. f_equal. by apply IH.
Qed.

Lemma printable_space (c : ascii) :
  printable_char c = true → py_isspace c = is_space_char c.
Proof.
  unfold printable_char, py_isspace, is_space_char.
  generalize (char_code c) as n. intros n H.
  apply andb_true_iff in H as [H1 H2].
  apply N.leb_le in H1. apply N.leb_le in H2.
  destruct (N.eqb_spec n 32) as [->|Hne]; [done|].
  repeat match goal with
         | |- context [(?a <=? ?b)%N] => destruct (N.leb_spec a b)
         | |- context [(?a =? ?b)%N] => destruct (N.eqb_spec a b)
         end; simpl; try done; lia.
Qed.

Lemma trimmed_name_strip (name : string) : trimmed_name name = true → strip name = name.
Proof.
  unfold trimmed_name, printable_name. intros H.
  repeat (apply andb_true_iff in H as [H ?]).
  unfold strip.
  rewrite strip_chars_id, string_of_list_ascii_of_string; [done| |].
  - destruct (list_ascii_of_string name) as [|c l] eqn:E; [done|].
    simpl in *. rewrite printable_space; [by apply negb_true_iff|].
    by destruct (printable_char c).
  - assert (Hall : Forall (λ c, printable_char c = true) (rev (list_ascii_of_string name))).
    { apply Forall_rev, Forall_forall. intros c Hc.
      eapply forallb_forall; [eassumption|]. by apply list_elem_of_In. }
    destruct (rev (list_ascii_of_string name)) as [|c l]; [done|].
    rewrite printable_space; [by apply negb_true_iff|].
    by inversion Hall.
Qed.

Lemma trimmed_name_valid (name : string) :
  trimmed_name name = true → invalid_name name = false.
Proof.
  unfold trimmed_name, printable_name, invalid_name. intros H.
  repeat (apply andb_true_iff in H as [H ?]).
  apply Nat.leb_le in H. apply orb_false_iff. split.
  - destruct name; [simpl in H; lia | done].
  - apply Nat.ltb_ge. lia.
Qed.

Lemma trimmed_name_length (name : string) :
  trimmed_name name = true → String.length name ≤ SAMPLE_NAME_SIZE.
Proof.
  unfold trimmed_name, printable_name. intros H.
  repeat (apply andb_true_iff in H as [H ?]). by apply Nat.leb_le.
Qed.

Lemma trimmed_name_printable (name : string) :
  trimmed_name name = true →
  forallb printable_char (list_ascii_of_string name) = true.
Proof.
  unfold trimmed_name, printable_name. intros H.
  by repeat (apply andb_true_iff in H as [H ?]).
Qed.

(** Chunks of one size laid end to end. *)
Lemma drop_concat_uniform {A : Type} (n i : nat) (chunks : list (list A)) :
  Forall (λ c, length c = n) chunks →
  drop (i * n) (concat chunks) = concat (drop i chunks).
Proof.
  revert chunks. induction i as [|i IH]; intros chunks Hall; [done|].
  destruct chunks as [|c chunks]; [simpl concat; by rewrite drop_nil|].
  inversion Hall as [|? ? Hc Hrest]; subst. simpl concat.
  replace (S i * length c) with (length c + i * length c) by lia.
  rewrite <- drop_drop, drop_app_length. by apply IH.
Qed.

Lemma length_concat_uniform {A : Type} (n : nat) (chunks : list (list A)) :
  Forall (λ c, length c = n) chunks →
  length (concat chunks) = length chunks * n.
Proof.
  induction 1 as [|c chunks Hc _ IH]; [done|].
  simpl. rewrite length_app, IH, Hc. lia.
Qed.



Lemma length_make_record (r : string * list byte) :
  well_formed_record r → length (make_record r.1 r.2) = PAD_ENTRY_SIZE.
Proof.
  intros [Ht Hl]. unfold make_record.
  rewrite length_app, length_name_field, Hl by by apply trimmed_name_length.
  done.
Qed.

Lemma length_make_descriptor (hdr : list byte) (records : list (string * list byte)) :
  Forall well_formed_record records →
  length (make_descriptor hdr records)
  = length hdr + length records * PAD_ENTRY_SIZE.
Proof.
  intros Hall. unfold make_descriptor.
  rewrite length_app, (length_concat_uniform PAD_ENTRY_SIZE), length_map; [done|].
  apply Forall_map. eapply Forall_impl; [exact Hall|].
  intros r Hr. by apply length_make_record.
Qed.

Lemma header_make_descriptor (hdr : list byte) (records : list (string * list byte)) :
  length hdr = FIRST_SAMPLE_OFFSET →
  header (make_descriptor hdr records) = header hdr.
Proof.
  intros Hl. unfold header, make_descriptor, slice. f_equal.
  rewrite drop_app_le by (rewrite Hl; unfold FIRST_SAMPLE_OFFSET; lia).
  rewrite take_app_le; [done|].
  rewrite length_drop, Hl. unfold FIRST_SAMPLE_OFFSET. lia.
Qed.

Lemma record_name_make_descriptor (hdr : list byte)
    (records : list (string * list byte)) (i : nat) (r : string * list byte) :
  length hdr = FIRST_SAMPLE_OFFSET →
  Forall well_formed_record records →
  records !! i = Some r →
  record_name (make_descriptor hdr records) i = r.1.
Proof.
  intros Hl Hall Hi.
  assert (Hr : well_formed_record r).
  { eapply Forall_forall in Hall; [exact Hall|]. by eapply list_elem_of_lookup_2. }
  destruct Hr as [Ht Hp].
  unfold record_name, sample_name_at, slice, record_offset, make_descriptor.
  rewrite <- Hl, <- drop_drop, drop_app_length.
  rewrite (drop_concat_uniform PAD_ENTRY_SIZE).
  2:{ apply Forall_map. eapply Forall_impl; [exact Hall|].
      intros r' Hr'. by apply length_make_record. }
  rewrite skipn_map.
  rewrite (drop_S _ r i Hi). simpl map. simpl concat.
  replace (length hdr + i * PAD_ENTRY_SIZE + SAMPLE_NAME_SIZE
           - (length hdr + i * PAD_ENTRY_SIZE)) with SAMPLE_NAME_SIZE by lia.
  unfold make_record. rewrite <- app_assoc.
  rewrite take_app_length' by (symmetry; by apply length_name_field, trimmed_name_length).
  rewrite decode_name_field by by apply trimmed_name_printable.
  by apply trimmed_name_strip.
Qed.

Lemma record_entry_make_descriptor (hdr : list byte)
    (records : list (string * list byte)) (i : nat) :
  length hdr = FIRST_SAMPLE_OFFSET →
  length records ≤ MAX_PADS →
  Forall well_formed_record records →
  record_entry (make_descriptor hdr records) i = fst <$> records !! i.
Proof.
  intros Hl Hn Hall. unfold record_entry, record_present.
  rewrite length_make_descriptor, Hl by done.
  destruct (records !! i) as [r|] eqn:Hi.
  - pose proof (lookup_lt_Some _ _ _ Hi) as Hlt.
    rewrite (record_name_make_descriptor hdr records i r) by done.
    assert (Hr : well_formed_record r).
    { eapply Forall_forall in Hall; [exact Hall|]. by eapply list_elem_of_lookup_2. }
    rewrite (trimmed_name_valid _ (proj1 Hr)).
    replace (_ <=? _) with true; [replace (i <? MAX_PADS) with true; [done|]|].
    + symmetry. apply Nat.ltb_lt. lia.
    + symmetry. apply Nat.leb_le.
      unfold record_offset, PAD_ENTRY_SIZE, SAMPLE_NAME_SIZE. lia.
  - apply lookup_ge_None in Hi.
    replace (_ <=? _) with false; [done|].
    symmetry. apply Nat.leb_gt.
    unfold record_offset, PAD_ENTRY_SIZE, SAMPLE_NAME_SIZE. lia.
Qed.

Lemma size_map_seq {A : Type} (start : nat) (xs : list A) :
  size (map_seq start xs : gmap nat A) = length xs.
Proof.
  revert start. induction xs as [|x xs IH]; intros start; simpl.
  - apply map_size_empty.
  - rewrite map_size_insert_None by apply map_seq_cons_disjoint. by rewrite IH.
Qed.

(** ** The parser on whole descriptors *)

(** C1, amended.  A descriptor built from a 24-byte header with the magic
    and at most 64 records, each a trimmed printable name of 2 to 16
    characters zero-padded to 16 bytes and followed by 148 payload bytes,
    parses to exactly the names, keyed 0..N-1. *)
Theorem parse_synthetic_descriptor (hdr : list byte)
    (records : list (string * list byte)) :
  length hdr = FIRST_SAMPLE_OFFSET →
  contains MAGIC (header hdr) = true →
  length records ≤ MAX_PADS →
  Forall well_formed_record records →
  ∃ m, parse_pgm_file (make_descriptor hdr records) = Some (Ok m)
       ∧ size m = length records
       ∧ (∀ i, i ∈ dom m ↔ i < length records)
       ∧ (∀ i, m !! i = fst <$> records !! i)
       ∧ m = map_seq 0 (records.*1).
Proof.
  intros Hl Hmagic Hn Hall.
  destruct (parse_entries (make_descriptor hdr records)) as (m & Hparse & Hlook).
  { by rewrite header_make_descriptor. }
  assert (Hm : ∀ i, m !! i = fst <$> records !! i).
  { intros i. rewrite Hlook, !record_entry_make_descriptor by done.
    destruct records as [|r records]; [done|]. done. }
  assert (Heq : m = map_seq 0 (records.*1)).
  { apply map_eq. intros i. by rewrite Hm, lookup_map_seq_0, list_lookup_fmap. }
  exists m. repeat split; try done.
  - by rewrite Heq, size_map_seq, length_fmap.
  - rewrite elem_of_dom, Hm. intros [x Hx].
    destruct (records !! i) eqn:E; [|done]. by eapply lookup_lt_Some.
  - rewrite elem_of_dom, Hm. intros Hlt.
    destruct (lookup_lt_is_Some_2 records i Hlt) as [r ->]. by eexists.
Qed.

(** The parse raises exactly when the decoded bytes 4..19 lack the magic. *)
Lemma parse_raises_iff (data : list byte) :
  parse_pgm_file data = Some (Raise (ValueError (header data)))
  ↔ contains MAGIC (header data) = false.
Proof.
  unfold parse_pgm_file, parse_pgm_file_fuel.
  destruct (contains MAGIC (header data)); [|done].
  split; [|done]. by destruct (scan _ _ _).
Qed.

Lemma parse_outcomes (data : list byte) :
  (contains MAGIC (header data) = false
   ∧ parse_pgm_file data = Some (Raise (ValueError (header data))))
  ∨ (contains MAGIC (header data) = true
     ∧ ∃ m, parse_pgm_file data = Some (Ok m)).
Proof.
  destruct (contains MAGIC (header data)) eqn:H.
  - right. split; [done|]. destruct (parse_entries data H) as (m & ? & _). eauto.
  - left. split; [done|]. by apply parse_raises_iff.
Qed.

Lemma header_app (pre rest : list byte) :
  20 ≤ length pre → header (pre ++ rest) = header pre.
Proof.
  intros Hl. unfold header, slice. f_equal.
  rewrite drop_app_le by lia. rewrite take_app_le; [done|].
  rewrite length_drop. lia.
Qed.

(** C9, amended.  With the magic present and fewer than 40 bytes in all,
    so that no 16-byte name field fits after offset 24, the parse gives
    the empty map and does not raise. *)
Theorem parse_no_name_field (data : list byte) :
  contains MAGIC (header data) = true →
  length data < FIRST_SAMPLE_OFFSET + SAMPLE_NAME_SIZE →
  parse_pgm_file data = Some (Ok ∅).
Proof.
  intros Hmagic Hlen.
  destruct (parse_entries data Hmagic) as (m & -> & Hlook).
  do 2 f_equal. apply map_eq. intros i. rewrite Hlook, lookup_empty.
  rewrite (record_entry_absent data 0); [done|].
  unfold record_present, record_offset.
  apply andb_false_iff. left. apply Nat.leb_gt. lia.
Qed.

(** ** The two modes of the scan *)


(** The map the loop returns is the one held by the state in which it
    stops, and that state is one the loop passes through. *)
Lemma scan_stops_at_reachable (fuel : nat) (data : list byte) (st : scan_state)
    (m : gmap nat string) :
  reachable data st →
  scan fuel data st = Some m →
  ∃ st', reachable data st' ∧ pads st' = m
         ∧ (scan_cond data st' = false ∨ scan_step data st' = Break).
Proof.
  revert st. induction fuel as [|fuel IH]; intros st Hr; simpl.
  - destruct (scan_cond data st) eqn:Hc; [done|]. intros [= <-]. eauto.
  - destruct (scan_cond data st) eqn:Hc; [|intros [= <-]; eauto].
    destruct (scan_step data st) as [|st1] eqn:Hs; [intros [= <-]; eauto|].
    apply IH. by eapply reachable_step.
Qed.


(** ** The bank organizer *)

(** The pads a log has dealt with, in order. *)
Lemma pads_handled_app (log1 log2 : list event) :
  pads_handled (log1 ++ log2) = pads_handled log1 ++ pads_handled log2.
Proof. apply omap_app. Qed.

Section Organizer.

Context (pads : gmap nat string) (w : org_world) (out : string).

(** The string [mkdir] is called on for a bank. *)
Let dir (name : string) : string := path_str (bank_dir out name).

Lemma organize_pad_ok (b : nat) (name : string) (s : nat) (log : list event) :
  copy_raises pads w (b * 8 + s) = false →
  ∃ ev, organize_pad pads w out b name s log = (log ++ [ev], Ok tt)
        ∧ event_pad ev = Some (b * 8 + s).
Proof.
  unfold copy_raises, organize_pad. intros H.
  destruct (pads !! (b * 8 + s)) as [sample_name|]; [|by eexists].
  destruct (find_wav_file _ _) as [wav_file|]; [|by eexists].
  rewrite H. by eexists.
Qed.

Lemma organize_pad_raises (b : nat) (name : string) (s : nat) (log : list event) :
  copy_raises pads w (b * 8 + s) = true →
  ∃ f, organize_pad pads w out b name s log = (log, Raise (OSError f)).
Proof.
  unfold copy_raises, organize_pad. intros H.
  destruct (pads !! (b * 8 + s)) as [sample_name|]; [|done].
  destruct (find_wav_file _ _) as [wav_file|]; [|done].
  rewrite H. by eexists.
Qed.

Lemma for_each_cons {A : Type} (body : A → run unit) (x : A) (xs : list A)
    (log : list event) :
  for_each body (x :: xs) log =
    match body x log with
    | (log', Ok _) => for_each body xs log'
    | (log', Raise e) => (log', Raise e)
    end.
Proof. reflexivity. Qed.

Lemma slots_ok (b : nat) (name : string) (s0 k : nat) (log : list event) :
  (∀ s, s0 ≤ s < s0 + k → copy_raises pads w (b * 8 + s) = false) →
  ∃ log', for_each (organize_pad pads w out b name) (seq s0 k) log = (log', Ok tt)
          ∧ pads_handled log' = pads_handled log ++ seq (b * 8 + s0) k.
Proof.
  revert s0 log. induction k as [|k IH]; intros s0 log Hok.
  - exists log. split; [done|]. simpl. by rewrite app_nil_r.
  - simpl seq. rewrite for_each_cons.
    destruct (organize_pad_ok b name s0 log) as (ev & -> & Hev);
      [apply Hok; lia|].
    destruct (IH (S s0) (log ++ [ev])) as (log' & -> & Hh);
      [intros s Hs; apply Hok; lia|].
    exists log'. split; [done|].
    rewrite Hh, pads_handled_app. unfold pads_handled at 2. simpl. rewrite Hev.
    simpl. rewrite <- app_assoc. simpl. do 3 f_equal. lia.
Qed.

Lemma slots_raise (b : nat) (name : string) (s0 k s : nat) (log : list event) :
  s0 ≤ s < s0 + k →
  (∀ s', s0 ≤ s' < s → copy_raises pads w (b * 8 + s') = false) →
  copy_raises pads w (b * 8 + s) = true →
  ∃ log' f, for_each (organize_pad pads w out b name) (seq s0 k) log
              = (log', Raise (OSError f))
            ∧ pads_handled log' = pads_handled log ++ seq (b * 8 + s0) (s - s0).
Proof.
  revert s0 log. induction k as [|k IH]; intros s0 log Hs Hok Hbad; [lia|].
  simpl seq. rewrite for_each_cons.
  destruct (decide (s0 = s)) as [->|Hne].
  - destruct (organize_pad_raises b name s log Hbad) as (f & ->).
    exists log, f. split; [done|]. rewrite Nat.sub_diag. simpl. by rewrite app_nil_r.
  - destruct (organize_pad_ok b name s0 log) as (ev & -> & Hev);
      [apply Hok; lia|].
    destruct (IH (S s0) (log ++ [ev])) as (log' & f & -> & Hh);
      [lia | intros s' Hs'; apply Hok; lia | done | ].
    exists log', f. split; [done|].
    rewrite Hh, pads_handled_app. unfold pads_handled at 2. simpl. rewrite Hev.
    simpl. rewrite <- app_assoc. simpl.
    replace (s - s0) with (S (s - S s0)) by lia. simpl. do 3 f_equal. lia.
Qed.

Lemma organize_bank_unfold (b : nat) (name : string) (log : list event) :
  organize_bank pads w out (b, name) log =
    if mkdir_fails w (dir name) then (log, Raise (OSError (dir name)))
    else
      match for_each (organize_pad pads w out b name) (seq 0 8) (log ++ [BankDir name]) with
      | (log', Ok _) => (log' ++ [BankCreated name], Ok tt)
      | (log', Raise e) => (log', Raise e)
      end.
Proof.
  unfold organize_bank, mkdir, bind, emit, raise, dir. simpl.
  destruct (mkdir_fails w _); [done|].
  by destruct (for_each (organize_pad pads w out b name) (seq 0 8)
                (log ++ [BankDir name])) as [log' [[]|e]].
Qed.

Lemma bank_ok (b : nat) (name : string) (log : list event) :
  mkdir_fails w (dir name) = false →
  (∀ p, b * 8 ≤ p < b * 8 + 8 → copy_raises pads w p = false) →
  ∃ log', organize_bank pads w out (b, name) log = (log', Ok tt)
          ∧ pads_handled log' = pads_handled log ++ seq (b * 8) 8.
Proof.
  intros Hdir Hok. rewrite organize_bank_unfold, Hdir.
  destruct (slots_ok b name 0 8 (log ++ [BankDir name]))
    as (log' & -> & Hh); [intros s Hs; apply Hok; lia|].
  eexists. split; [done|].
  rewrite Nat.add_0_r in Hh.
  rewrite pads_handled_app, Hh, pads_handled_app.
  change (pads_handled [BankDir name]) with (@nil nat).
  change (pads_handled [BankCreated name]) with (@nil nat).
  by rewrite !app_nil_r.
Qed.

Lemma bank_raises (b : nat) (name : string) (p : nat) (log : list event) :
  mkdir_fails w (dir name) = false →
  b * 8 ≤ p < b * 8 + 8 →
  (∀ q, b * 8 ≤ q < p → copy_raises pads w q = false) →
  copy_raises pads w p = true →
  ∃ log' f, organize_bank pads w out (b, name) log = (log', Raise (OSError f))
            ∧ pads_handled log' = pads_handled log ++ seq (b * 8) (p - b * 8).
Proof.
  intros Hdir Hp Hok Hbad. rewrite organize_bank_unfold, Hdir.
  destruct (slots_raise b name 0 8 (p - b * 8) (log ++ [BankDir name]))
    as (log' & f & -> & Hh).
  - lia.
  - intros s' Hs'. apply Hok. lia.
  - by replace (b * 8 + (p - b * 8)) with p by lia.
  - exists log', f. split; [done|].
    rewrite Hh, pads_handled_app, Nat.add_0_r, Nat.sub_0_r.
    change (pads_handled [BankDir name]) with (@nil nat).
    by rewrite app_nil_r.
Qed.

Lemma bank_mkdir_raises (b : nat) (name : string) (log : list event) :
  mkdir_fails w (dir name) = true →
  organize_bank pads w out (b, name) log = (log, Raise (OSError (dir name))).
Proof. intros Hdir. by rewrite organize_bank_unfold, Hdir. Qed.


Lemma banks_raise (b0 : nat) (names : list string) (p : nat) (log : list event) :
  b0 * 8 ≤ p < (b0 + length names) * 8 →
  (∀ i name, names !! i = Some name → (b0 + i) * 8 ≤ p →
             mkdir_fails w (dir name) = false) →
  (∀ q, b0 * 8 ≤ q < p → copy_raises pads w q = false) →
  copy_raises pads w p = true →
  ∃ log' f, for_each (organize_bank pads w out) (zip (seq b0 (length names)) names) log
              = (log', Raise (OSError f))
            ∧ pads_handled log' = pads_handled log ++ seq (b0 * 8) (p - b0 * 8).
Proof.
  revert b0 log. induction names as [|name names IH]; intros b0 log Hp Hdir Hok Hbad.
  - simpl in Hp. lia.
  - simpl length in *. simpl seq. simpl zip. rewrite for_each_cons.
    assert (Hd0 : mkdir_fails w (dir name) = false)
      by (apply (Hdir 0 name); [done | lia]).
    destruct (decide (p < b0 * 8 + 8)) as [Hin|Hout].
    + destruct (bank_raises b0 name p log) as (log1 & f & -> & H1);
        [done | lia | done | done |].
      by exists log1, f.
    + destruct (bank_ok b0 name log) as (log1 & -> & H1);
        [done | intros q Hq; apply Hok; lia|].
      destruct (IH (S b0) log1) as (log' & f & -> & Hh);
        [lia | | intros q Hq; apply Hok; lia | done |].
      { intros i n Hi Hle. apply (Hdir (S i) n); [done | lia]. }
      exists log', f. split; [done|].
      rewrite Hh, H1, <- app_assoc. f_equal.
      replace (p - b0 * 8) with (8 + (p - S b0 * 8)) by lia.
      rewrite seq_app. do 2 f_equal. lia.
Qed.

Lemma banks_mkdir_raise (b0 : nat) (names : list string) (i : nat) (name : string)
    (log : list event) :
  names !! i = Some name →
  (∀ j n, names !! j = Some n → j < i → mkdir_fails w (dir n) = false) →
  (∀ q, b0 * 8 ≤ q < (b0 + i) * 8 → copy_raises pads w q = false) →
  mkdir_fails w (dir name) = true →
  ∃ log', for_each (organize_bank pads w out) (zip (seq b0 (length names)) names) log
            = (log', Raise (OSError (dir name)))
          ∧ pads_handled log' = pads_handled log ++ seq (b0 * 8) (i * 8).
Proof.
  revert b0 i log. induction names as [|n0 names IH]; intros b0 i log Hi Hdir Hok Hbad;
    [done|].
  simpl length. simpl seq. simpl zip. rewrite for_each_cons.
  destruct i as [|i].
  - injection Hi as ->. rewrite (bank_mkdir_raises b0 name log Hbad).
    exists log. split; [done|]. simpl. by rewrite app_nil_r.
  - destruct (bank_ok b0 n0 log) as (log1 & -> & H1);
      [apply (Hdir 0 n0); [done | lia] | intros q Hq; apply Hok; lia|].
    assert (Hdir' : ∀ j n, names !! j = Some n → j < i →
                           mkdir_fails w (dir n) = false).
    { intros j n Hj Hlt. apply (Hdir (S j) n); [done | lia]. }
    assert (Hok' : ∀ q, S b0 * 8 ≤ q < (S b0 + i) * 8 → copy_raises pads w q = false).
    { intros q Hq. apply Hok. lia. }
    destruct (IH (S b0) i log1 Hi Hdir' Hok' Hbad) as (log' & -> & Hh).
    exists log'. split; [done|].
    rewrite Hh, H1, <- app_assoc. by f_equal.
Qed.

Lemma first_failure (f : nat → bool) (n : nat) :
  (∀ p, p < n → f p = false)
  ∨ ∃ p, p < n ∧ f p = true ∧ ∀ q, q < p → f q = false.
Proof.
  induction n as [|n [IH|(p & Hp & Hf & Hq)]].
  - left. intros p Hp. lia.
  - destruct (f n) eqn:Hn.
    + right. exists n. repeat split; [lia | done | done].
    + left. intros p Hp. destruct (decide (p = n)) as [->|]; [done|]. apply IH. lia.
  - right. exists p. repeat split; [lia | done | done].
Qed.

(** The test on a bank number is the test on the directory of its name. *)
Lemma mkdir_raises_name (b : nat) (name : string) :
  bank_names !! b = Some name → mkdir_raises w out b = mkdir_fails w (dir name).
Proof. intros H. unfold mkdir_raises. by rewrite H. Qed.


Lemma organize_raises (p : nat) :
  p < 64 →
  (∀ b, b * 8 ≤ p → mkdir_raises w out b = false) →
  (∀ q, q < p → copy_raises pads w q = false) →
  copy_raises pads w p = true →
  ∃ log f, organize pads w out [] = (log, Raise (OSError f))
           ∧ pads_handled log = seq 0 p.
Proof.
  intros Hp Hdir Hok Hbad.
  destruct (banks_raise 0 bank_names p []) as (log & f & Hrun & Hh).
  { simpl. lia. }
  { intros b name Hb Hle. rewrite <- (mkdir_raises_name b name Hb). apply Hdir. lia. }
  { intros q Hq. apply Hok. lia. }
  { done. }
  exists log, f. split; [exact Hrun|]. rewrite Hh. simpl. f_equal. lia.
Qed.

Lemma organize_mkdir_raises (b : nat) :
  b < 8 →
  (∀ b', b' < b → mkdir_raises w out b' = false) →
  (∀ q, q < b * 8 → copy_raises pads w q = false) →
  mkdir_raises w out b = true →
  ∃ log f, organize pads w out [] = (log, Raise (OSError f))
           ∧ pads_handled log = seq 0 (b * 8).
Proof.
  intros Hb Hdir Hok Hbad.
  destruct (lookup_lt_is_Some_2 bank_names b) as [name Hname]; [simpl; lia|].
  destruct (banks_mkdir_raise 0 bank_names b name []) as (log & Hrun & Hh).
  { done. }
  { intros j n Hj Hlt. rewrite <- (mkdir_raises_name j n Hj). by apply Hdir. }
  { intros q Hq. apply Hok. lia. }
  { by rewrite <- (mkdir_raises_name b name Hname). }
  exists log, (dir name). split; [exact Hrun | exact Hh].
Qed.

(** Any directory that cannot be created and any copy that fails ends the
    run, at the first of them it gets to. *)
Lemma organize_fails :
  (∃ b, b < 8 ∧ mkdir_raises w out b = true)
  ∨ (∃ p, p < 64 ∧ copy_raises pads w p = true) →
  ∃ log f, organize pads w out [] = (log, Raise (OSError f)).
Proof.
  intros Hfail.
  destruct (first_failure (mkdir_raises w out) 8) as [Hd|(b & Hb & Hbad & Hbq)];
    destruct (first_failure (copy_raises pads w) 64) as [Hc|(p & Hp & Hpbad & Hpq)].
  - destruct Hfail as [(b & Hb & Hbad)|(p & Hp & Hbad)];
      [rewrite Hd in Hbad by done | rewrite Hc in Hbad by done]; done.
  - destruct (organize_raises p Hp) as (log & f & Hrun & _);
      [intros b' Hb'; apply Hd; lia | done | done |]. eauto.
  - destruct (organize_mkdir_raises b Hb) as (log & f & Hrun & _);
      [done | intros q Hq; apply Hc; lia | done |]. eauto.
  - destruct (decide (p < b * 8)) as [Hlt|Hge].
    + destruct (organize_raises p Hp) as (log & f & Hrun & _);
        [intros b' Hb'; apply Hbq; lia | done | done |]. eauto.
    + destruct (organize_mkdir_raises b Hb) as (log & f & Hrun & _);
        [done | intros q Hq; apply Hpq; lia | done |]. eauto.
Qed.

End Organizer.


(** C4, amended.  The parse raises exactly when the decoded bytes 4..19
    lack the magic, whatever follows the header, and raises nothing else;
    for a whole run this error is fatal before any directory is made or pad
    dealt with.  It is not the only fatal one: with the magic present, a
    bank directory that cannot be created or a copy that fails ends the run
    as well. *)
Theorem header_check_is_fatal (data : list byte) :
  (parse_pgm_file data = Some (Raise (ValueError (header data)))
   ↔ contains MAGIC (header data) = false)
  ∧ (∀ e, parse_pgm_file data = Some (Raise e) → e = ValueError (header data))
  ∧ is_Some (parse_pgm_file data)
  ∧ (∀ pre rest rest',
       data = pre ++ rest → length pre = 20 →
       contains MAGIC (header data) = false →
       parse_pgm_file (pre ++ rest') = Some (Raise (ValueError (header data))))
  ∧ (∀ w out,
       contains MAGIC (header data) = false →
       create_sp303_banks data w out = Some ([], Raise (ValueError (header data))))
  ∧ (∀ w out pads,
       parse_pgm_file data = Some (Ok pads) →
       (∃ b, b < 8 ∧ mkdir_raises w out b = true)
       ∨ (∃ p, p < 64 ∧ copy_raises pads w p = true) →
       ∃ log f, create_sp303_banks data w out = Some (log, Raise (OSError f))).
Proof.
  repeat split.
  - apply parse_raises_iff.
  - apply parse_raises_iff.
  - intros e He. destruct (parse_outcomes data) as [[_ H]|[_ [m H]]]; congruence.
  - apply parse_pgm_file_total.
  - intros pre rest rest' -> Hl Hmagic.
    rewrite header_app in * by lia.
    rewrite <- (header_app pre rest') by lia.
    apply parse_raises_iff. by rewrite header_app by lia.
  - intros w out Hmagic. unfold create_sp303_banks.
    by rewrite (proj2 (parse_raises_iff data) Hmagic).
  - intros w out pads Hparse Hfail. unfold create_sp303_banks. rewrite Hparse.
    destruct (organize_fails pads w out Hfail) as (log & f & ->). eauto.
Qed.

(** ** The entries of a parsed map *)

Lemma length_lstrip_chars (l : list ascii) : length (lstrip_chars l) ≤ length l.
Proof.
  induction l as [|c l IH]; simpl; [done|].
  destruct (py_isspace c); simpl; lia.
Qed.

Lemma length_strip (s : string) : String.length (strip s) ≤ String.length s.
Proof.
  unfold strip, strip_chars.
  rewrite <- !length_list_ascii_of_string, list_ascii_of_string_of_list_ascii.
  rewrite length_rev.
  etrans; [apply length_lstrip_chars|]. rewrite length_rev. apply length_lstrip_chars.
Qed.

Lemma length_decode_name (raw : list byte) :
  String.length (decode_name raw) ≤ length raw.
Proof.
  induction raw as [|b raw IH]; simpl; [done|].
  destruct (printable b); simpl; [lia|].
  destruct (is_null b); simpl; lia.
Qed.

Lemma length_slice {A : Type} (lo hi : nat) (data : list A) :
  length (slice lo hi data) ≤ hi - lo.
Proof. unfold slice. rewrite length_take. lia. Qed.

Lemma length_sample_name_at (data : list byte) (offset : nat) :
  String.length (sample_name_at data offset) ≤ SAMPLE_NAME_SIZE.
Proof.
  unfold sample_name_at.
  etrans; [apply length_strip|]. etrans; [apply length_decode_name|].
  etrans; [apply length_slice|]. lia.
Qed.

Lemma sample_name_at_chars (data : list byte) (offset : nat) :
  Forall (λ c, printable_char c = true)
         (list_ascii_of_string (sample_name_at data offset)).
Proof.
  unfold sample_name_at, strip. rewrite list_ascii_of_string_of_list_ascii.
  apply strip_chars_Forall, decode_name_chars.
Qed.

Lemma record_entry_Some (data : list byte) (i : nat) (name : string) :
  record_entry data i = Some name →
  record_present data i = true ∧ invalid_name name = false ∧ name = record_name data i.
Proof.
  unfold record_entry. destruct (record_present data i); [|done].
  destruct (invalid_name (record_name data i)) eqn:Hv; [done|].
  simpl. intros [= <-]. done.
Qed.

Lemma invalid_name_false (name : string) :
  invalid_name name = false → 2 ≤ String.length name.
Proof.
  unfold invalid_name. intros H. apply orb_false_iff in H as [_ H].
  apply Nat.ltb_ge in H. exact H.
Qed.

(** X1.  Every entry of a parsed map sits at a pad index below 64 whose
    name field lies inside the buffer, and is the name decoded there: 2 to
    16 printable characters with no white space at either end.  A map with
    any entry has one for pad 0. *)
Theorem parsed_names_are_valid (data : list byte) (m : gmap nat string)
    (i : nat) (name : string) :
  parse_pgm_file data = Some (Ok m) →
  m !! i = Some name →
  i < MAX_PADS
  ∧ record_offset i + SAMPLE_NAME_SIZE ≤ length data
  ∧ name = record_name data i
  ∧ 2 ≤ String.length name ≤ SAMPLE_NAME_SIZE
  ∧ Forall (λ c, printable_char c = true) (list_ascii_of_string name)
  ∧ strip name = name
  ∧ is_Some (m !! 0).
Proof.
  intros Hparse Hi.
  destruct (parse_outcomes data) as [[_ Hx]|[Hmagic _]]; [congruence|].
  destruct (parse_entries data Hmagic) as (m' & Hm' & Hlook).
  assert (m' = m) as -> by congruence.
  pose proof (Hlook i) as Hli. pose proof (Hlook 0) as Hl0.
  rewrite Hi in Hli.
  destruct (record_entry data 0) as [n0|] eqn:H0; [|done].
  symmetry in Hli. apply record_entry_Some in Hli as (Hp & Hv & ->).
  unfold record_present in Hp. apply andb_true_iff in Hp as [Hp1 Hp2].
  apply Nat.leb_le in Hp1. apply Nat.ltb_lt in Hp2.
  split; [done|]. split; [done|]. split; [done|].
  split; [split; [by apply invalid_name_false | apply length_sample_name_at]|].
  split; [apply sample_name_at_chars|].
  split; [unfold record_name, sample_name_at; apply strip_idemp|].
  rewrite Hl0. by eexists.
Qed.

(** ** The bytes the parser reads *)

Lemma slice_agree {A : Type} (lo hi : nat) (data data' : list A) :
  (∀ pos, lo ≤ pos < hi → data !! pos = data' !! pos) →
  slice lo hi data = slice lo hi data'.
Proof.
  intros H. unfold slice. apply list_eq. intros j.
  destruct (decide (j < hi - lo)) as [Hj|Hj].
  - rewrite !lookup_take_lt, !lookup_drop by done. apply H. lia.
  - rewrite !lookup_take_ge by lia. done.
Qed.

Lemma is_read_header (pos : nat) : 4 ≤ pos < 20 → is_read pos = true.
Proof.
  intros H. unfold is_read. apply orb_true_iff. left.
  apply andb_true_iff. split; [apply Nat.leb_le | apply Nat.ltb_lt]; lia.
Qed.

Lemma is_read_name_field (i pos : nat) :
  i < MAX_PADS → record_offset i ≤ pos < record_offset i + SAMPLE_NAME_SIZE →
  is_read pos = true.
Proof.
  unfold is_read, record_offset, MAX_PADS, FIRST_SAMPLE_OFFSET, SAMPLE_NAME_SIZE,
    PAD_ENTRY_SIZE.
  intros Hi Hpos. apply orb_true_iff. right.
  assert (E : pos - 24 = i * 164 + (pos - 24 - i * 164)) by lia.
  assert (Hr : pos - 24 - i * 164 < 164) by lia.
  rewrite !andb_true_iff. repeat split.
  - apply Nat.leb_le. lia.
  - apply Nat.ltb_lt.
    rewrite E, Nat.add_comm, Nat.Div0.mod_add, Nat.mod_small by lia. lia.
  - apply Nat.ltb_lt.
    rewrite E, Nat.add_comm, Nat.div_add, Nat.div_small by lia. lia.
Qed.

Section Agree.

Context (data data' : list byte).
Hypothesis agree : ∀ pos, is_read pos = true → data !! pos = data' !! pos.

Lemma header_agree : header data = header data'.
Proof.
  unfold header. f_equal. apply slice_agree.
  intros pos Hpos. apply agree, is_read_header. lia.
Qed.

Lemma record_name_agree (i : nat) :
  i < MAX_PADS → record_name data i = record_name data' i.
Proof.
  intros Hi. unfold record_name, sample_name_at. do 2 f_equal.
  apply slice_agree. intros pos Hpos. apply agree, (is_read_name_field i); lia.
Qed.

(** Whether a record is in reach shows at the last byte of its name field. *)
Lemma record_present_agree (i : nat) :
  record_present data i = record_present data' i.
Proof.
  unfold record_present.
  destruct (i <? MAX_PADS) eqn:Hi; [|by rewrite !andb_false_r].
  apply Nat.ltb_lt in Hi. rewrite !andb_true_r.
  assert (H : data !! (record_offset i + 15) = data' !! (record_offset i + 15)).
  { apply agree, (is_read_name_field i); [done|]. unfold SAMPLE_NAME_SIZE. lia. }
  unfold SAMPLE_NAME_SIZE.
  destruct (record_offset i + 16 <=? length data) eqn:H1;
    destruct (record_offset i + 16 <=? length data') eqn:H2; try done.
  - apply Nat.leb_le in H1. apply Nat.leb_gt in H2.
    rewrite (lookup_ge_None_2 data') in H by lia.
    apply lookup_ge_None_1 in H. lia.
  - apply Nat.leb_gt in H1. apply Nat.leb_le in H2.
    rewrite (lookup_ge_None_2 data) in H by lia.
    symmetry in H. apply lookup_ge_None_1 in H. lia.
Qed.

Lemma record_entry_agree (i : nat) : record_entry data i = record_entry data' i.
Proof.
  unfold record_entry. rewrite record_present_agree.
  destruct (record_present data' i) eqn:Hp; [|done].
  unfold record_present in Hp. apply andb_true_iff in Hp as [_ Hi].
  apply Nat.ltb_lt in Hi. by rewrite record_name_agree.
Qed.

Lemma parse_agree : parse_pgm_file data = parse_pgm_file data'.
Proof.
  pose proof header_agree as Hh.
  destruct (parse_outcomes data) as [[Hmagic ->]|[Hmagic _]].
  - rewrite Hh in *. symmetry. by apply parse_raises_iff.
  - destruct (parse_entries data Hmagic) as (m & -> & Hlook).
    rewrite Hh in Hmagic.
    destruct (parse_entries data' Hmagic) as (m' & -> & Hlook').
    do 2 f_equal. apply map_eq. intros i.
    rewrite Hlook, Hlook', !record_entry_agree. done.
Qed.

End Agree.

(** X2.  The parse is a function of the bytes 4..19 and of the 16-byte name
    fields of the first 64 entries: two buffers that agree there, also on
    which of these positions exist, parse alike, and so does a whole run.
    No payload byte, no byte of the first four and nothing behind the 64th
    name field is looked at. *)
Theorem parse_reads_only_name_fields (data data' : list byte) :
  (∀ pos, is_read pos = true → data !! pos = data' !! pos) →
  parse_pgm_file data = parse_pgm_file data'
  ∧ (∀ w out, create_sp303_banks data w out = create_sp303_banks data' w out).
Proof.
  intros agree. pose proof (parse_agree data data' agree) as H.
  split; [done|]. intros w out. unfold create_sp303_banks. by rewrite H.
Qed.

(** Agreement at the read positions, checked position by position. *)
Lemma agree_by_check (data data' : list byte) :
  length data = length data' →
  forallb (λ pos, implb (is_read pos) (bool_decide (data !! pos = data' !! pos)))
          (seq 0 (length data)) = true →
  ∀ pos, is_read pos = true → data !! pos = data' !! pos.
Proof.
  intros Hl Hall pos Hr.
  destruct (decide (pos < length data)) as [Hlt|Hge].
  - rewrite forallb_forall in Hall.
    assert (Hin : In pos (seq 0 (length data))) by (apply in_seq; lia).
    specialize (Hall pos Hin). rewrite Hr in Hall. simpl in Hall.
    by apply bool_decide_eq_true in Hall.
  - rewrite !lookup_ge_None_2 by lia. done.
Qed.

(** ** Finding the file of a sample *)

Lemma prefix_refl (s : string) : String.prefix s s = true.
Proof.
  induction s as [|c s IH]; simpl; [done|].
  destruct (ascii_dec c c); [done|congruence].
Qed.

Lemma prefix_app (s t : string) : String.prefix s (String.append s t) = true.
Proof.
  induction s as [|c s IH]; simpl; [by destruct t|].
  destruct (ascii_dec c c); [done|congruence].
Qed.

Lemma contains_refl (s : string) : contains s s = true.
Proof. destruct s; cbn [contains]; by rewrite prefix_refl. Qed.

Lemma list_ascii_of_string_app (s t : string) :
  list_ascii_of_string (String.append s t)
  = list_ascii_of_string s ++ list_ascii_of_string t.
Proof. induction s as [|c s IH]; simpl; [done|]. by rewrite IH. Qed.

Lemma string_of_list_ascii_app (l k : list ascii) :
  string_of_list_ascii (l ++ k)
  = String.append (string_of_list_ascii l) (string_of_list_ascii k).
Proof. induction l as [|c l IH]; simpl; [done|]. by rewrite IH. Qed.

Lemma ends_with_app (s suffix : string) :
  ends_with suffix (String.append s suffix) = true.
Proof.
  unfold ends_with. rewrite list_ascii_of_string_app, rev_app_distr.
  rewrite string_of_list_ascii_app. apply prefix_app.
Qed.

Lemma length_append (s t : string) :
  String.length (String.append s t) = String.length s + String.length t.
Proof. induction s as [|c s IH]; simpl; [done|]. by rewrite IH. Qed.

Lemma substring_append (s t : string) :
  String.substring 0 (String.length s) (String.append s t) = s.
Proof.
  induction s as [|c s IH]; simpl; [by destruct t|]. by rewrite IH.
Qed.

Lemma stem_append (s : string) :
  s ≠ EmptyString → stem (String.append s ".wav") = s.
Proof.
  intros Hs. unfold stem. rewrite length_append. simpl String.length.
  destruct (String.length s + 4 <=? 4) eqn:H.
  - apply Nat.leb_le in H. destruct s; [done|simpl in H; lia].
  - replace (String.length s + 4 - 4) with (String.length s) by lia.
    apply substring_append.
Qed.

(** The file name built from a sample name passes the loosest of the three
    tests; for the empty name the file is [".wav"], its own stem. *)
Lemma exact_name_matches (s : string) :
  contains (lower s) (lower (stem (String.append s ".wav"))) = true.
Proof.
  destruct s as [|c s]; [reflexivity|].
  rewrite stem_append by done. apply contains_refl.
Qed.

Lemma existsb_eqb (x : string) (l : list string) :
  existsb (String.eqb x) l = true ↔ In x l.
Proof.
  rewrite existsb_exists. split.
  - intros (y & Hy & E). apply String.eqb_eq in E. by subst.
  - intros H. exists x. split; [done|]. apply String.eqb_refl.
Qed.

Lemma glob_wav_In (f : string) (listing : list string) :
  In f (glob_wav listing) ↔ In f listing ∧ ends_with ".wav" f = true.
Proof. unfold glob_wav. apply filter_In. Qed.

Section Find.

Context (sample_name : string) (listing : list string).

Let clean := strip sample_name.

Lemma find_wav_file_found (f : string) :
  find_wav_file sample_name listing = Some f →
  In f listing ∧ ends_with ".wav" f = true
  ∧ contains (lower clean) (lower (stem f)) = true.
Proof.
  unfold find_wav_file. fold clean.
  destruct (existsb _ listing) eqn:Hex.
  - intros [= <-]. apply existsb_eqb in Hex.
    split; [done|]. split; [apply ends_with_app | apply exact_name_matches].
  - destruct (List.find _ (glob_wav listing)) as [g|] eqn:H1.
    + intros [= <-]. apply find_some in H1 as [Hin Hm].
      apply glob_wav_In in Hin as [Hin Hw]. apply String.eqb_eq in Hm.
      split; [done|]. split; [done|]. rewrite Hm. apply contains_refl.
    + intros H2. apply find_some in H2 as [Hin Hm].
      apply glob_wav_In in Hin as [Hin Hw]. done.
Qed.

Lemma find_wav_file_none :
  find_wav_file sample_name listing = None
  ↔ ∀ f, In f listing → ends_with ".wav" f = true →
         contains (lower clean) (lower (stem f)) = false.
Proof.
  split.
  - unfold find_wav_file. fold clean.
    destruct (existsb _ listing); [done|].
    destruct (List.find _ (glob_wav listing)) as [g|]; [done|].
    intros H f Hin Hw.
    apply (find_none _ _ H). by apply glob_wav_In.
  - intros Hno. destruct (find_wav_file sample_name listing) as [f|] eqn:H; [|done].
    apply find_wav_file_found in H as (Hin & Hw & Hm).
    rewrite (Hno f Hin Hw) in Hm. done.
Qed.

Lemma find_wav_file_exact :
  In (String.append clean ".wav") listing →
  find_wav_file sample_name listing = Some (String.append clean ".wav").
Proof.
  intros Hin. unfold find_wav_file. fold clean.
  by rewrite (proj2 (existsb_eqb _ _) Hin).
Qed.

Lemma find_wav_file_stem (g : string) :
  ¬ In (String.append clean ".wav") listing →
  In g listing → ends_with ".wav" g = true →
  lower (stem g) = lower clean →
  ∃ f, find_wav_file sample_name listing = Some f
       ∧ lower (stem f) = lower clean.
Proof.
  intros Hno Hin Hw Hm. unfold find_wav_file. fold clean.
  destruct (existsb _ listing) eqn:Hex; [by apply existsb_eqb in Hex|].
  destruct (List.find _ (glob_wav listing)) as [f|] eqn:H1.
  - exists f. split; [done|]. apply find_some in H1 as [_ H1].
    by apply String.eqb_eq in H1.
  - exfalso. pose proof (find_none _ _ H1 g) as Hn. simpl in Hn.
    rewrite Hm, String.eqb_refl in Hn. discriminate Hn. by apply glob_wav_In.
Qed.

End Find.

(** X3.  With plain names, where the directory is case-sensitive: a file
    that [find_wav_file] returns is an entry of the directory, its name ends
    in the lower-case [".wav"], and its stem holds the trimmed sample name,
    case apart.  A file with another extension, ".WAV" included, is never
    returned. *)
Theorem find_wav_file_sound (sample_name : string) (listing : list string)
    (f : string) :
  plain_name sample_name = true →
  forallb plain_name listing = true →
  find_wav_file sample_name listing = Some f →
  In f listing ∧ ends_with ".wav" f = true
  ∧ contains (lower (strip sample_name)) (lower (stem f)) = true.
Proof. intros _ _. apply find_wav_file_found. Qed.

(** X4.  With plain names: nothing is found exactly when no entry ending in
    [".wav"] has a stem that holds the trimmed sample name, case apart; the
    three searches of the function come to this one test. *)
Theorem find_wav_file_none_iff (sample_name : string) (listing : list string) :
  plain_name sample_name = true →
  forallb plain_name listing = true →
  (find_wav_file sample_name listing = None
   ↔ ∀ f, In f listing → ends_with ".wav" f = true →
          contains (lower (strip sample_name)) (lower (stem f)) = false).
Proof. intros _ _. apply find_wav_file_none. Qed.

(** X5.  With plain names: the file named exactly after the trimmed sample
    name is returned whenever it is there, whatever else matches and in
    whatever order; without it, a file whose stem equals the name, case
    apart, keeps every file that merely holds the name from being returned. *)
Theorem find_wav_file_priority (sample_name : string) (listing : list string) :
  plain_name sample_name = true →
  forallb plain_name listing = true →
  (In (String.append (strip sample_name) ".wav") listing →
   find_wav_file sample_name listing
   = Some (String.append (strip sample_name) ".wav"))
  ∧ (¬ In (String.append (strip sample_name) ".wav") listing →
     ∀ g, In g listing → ends_with ".wav" g = true →
          lower (stem g) = lower (strip sample_name) →
          ∃ f, find_wav_file sample_name listing = Some f
               ∧ lower (stem f) = lower (strip sample_name)).
Proof.
  intros _ _. split.
  - apply find_wav_file_exact.
  - intros Hno g. by apply find_wav_file_stem.
Qed.

(** ** The log of a run *)

Lemma for_each_Forall {A : Type} (P : event → Prop) (body : A → run unit)
    (xs : list A) :
  (∀ x log, In x xs → Forall P log → Forall P (body x log).1) →
  ∀ log, Forall P log → Forall P (for_each body xs log).1.
Proof.
  induction xs as [|x xs IH]; intros Hbody log Hlog; [done|].
  rewrite for_each_cons.
  pose proof (Hbody x log (or_introl eq_refl) Hlog) as Hx.
  destruct (body x log) as [log1 [[]|e]]; [|done].
  apply IH; [|done]. intros y l Hy. apply Hbody. by right.
Qed.

Lemma for_each_log {A : Type} (body : A → run unit) (out_of : A → list event)
    (xs : list A) :
  (∀ x l l', In x xs → body x l = (l', Ok tt) → l' = l ++ out_of x) →
  ∀ log log', for_each body xs log = (log', Ok tt) →
              log' = log ++ concat (map out_of xs).
Proof.
  induction xs as [|x xs IH]; intros Hbody log log'.
  - intros [= <-]. simpl. by rewrite app_nil_r.
  - rewrite for_each_cons.
    destruct (body x log) as [log1 [[]|e]] eqn:Hx; [|done].
    intros Hrest. apply IH in Hrest; [|intros y l l' Hy; apply Hbody; by right].
    rewrite Hrest, (Hbody x log log1 (or_introl eq_refl) Hx).
    simpl. by rewrite <- app_assoc.
Qed.

Section Log.

Context (pads : gmap nat string) (w : org_world) (out : string).

(** What a pad leaves in the log when its copy does not fail. *)
Let pad_event (b : nat) (name : string) (s : nat) : event :=
  match pads !! (b * 8 + s) with
  | Some sample_name =>
      match find_wav_file sample_name (wav_listing w) with
      | Some wav_file =>
          Copied (b * 8 + s) sample_name wav_file (dest_path out name s)
      | None => NotFound (b * 8 + s) sample_name
      end
  | None => NoAssignment (b * 8 + s)
  end.

Let bank_events (bank : nat * string) : list event :=
  BankDir bank.2 :: map (pad_event bank.1 bank.2) (seq 0 8) ++ [BankCreated bank.2].

Lemma organize_pad_log (b : nat) (name : string) (s : nat) (l l' : list event) :
  organize_pad pads w out b name s l = (l', Ok tt) →
  l' = l ++ [pad_event b name s].
Proof.
  unfold organize_pad, pad_event.
  destruct (pads !! (b * 8 + s)) as [sample_name|]; [|by intros [= <-]].
  destruct (find_wav_file _ _) as [wav_file|]; [|by intros [= <-]].
  destruct (copy_fails w wav_file); [done|]. by intros [= <-].
Qed.

Lemma organize_bank_log (bank : nat * string) (l l' : list event) :
  organize_bank pads w out bank l = (l', Ok tt) →
  l' = l ++ bank_events bank.
Proof.
  destruct bank as [b name]. rewrite organize_bank_unfold.
  destruct (mkdir_fails w _); [done|].
  destruct (for_each _ _ _) as [l1 [[]|e]] eqn:H; [|done].
  intros [= <-].
  apply (for_each_log _ (λ s, [pad_event b name s])) in H.
  - rewrite H. unfold bank_events. simpl. by rewrite <- !app_assoc.
  - intros s l0 l0' _. apply organize_pad_log.
Qed.

Lemma organize_log (log : list event) :
  organize pads w out [] = (log, Ok tt) →
  log = concat (map bank_events (zip (seq 0 8) bank_names)).
Proof.
  intros H. apply (for_each_log _ bank_events) in H; [done|].
  intros bank l l' _. apply organize_bank_log.
Qed.

(** What holds of every event a run leaves, finished or not. *)
Let event_ok (ev : event) : Prop :=
  match ev with
  | Copied p sample_name wav_file dest =>
      p < 64 ∧ pads !! p = Some sample_name
      ∧ find_wav_file sample_name (wav_listing w) = Some wav_file
      ∧ copy_fails w wav_file = false
      ∧ ∃ b, bank_names !! (p / 8) = Some b ∧ dest = dest_path out b (p mod 8)
  | _ => True
  end.

Lemma organize_pad_event_ok (b : nat) (name : string) (s : nat) (l : list event) :
  bank_names !! b = Some name → s < 8 →
  Forall event_ok l → Forall event_ok (organize_pad pads w out b name s l).1.
Proof.
  intros Hb Hs Hl. unfold organize_pad.
  destruct (pads !! (b * 8 + s)) as [sample_name|] eqn:Hp;
    [|apply Forall_app; split; [done|by repeat constructor]].
  destruct (find_wav_file _ _) as [wav_file|] eqn:Hf;
    [|apply Forall_app; split; [done|by repeat constructor]].
  destruct (copy_fails w wav_file) eqn:Hc; [done|].
  apply Forall_app. split; [done|]. constructor; [|constructor].
  assert (b < 8) by (apply lookup_lt_Some in Hb; simpl in Hb; lia).
  assert (Hd : (b * 8 + s) / 8 = b).
  { rewrite Nat.add_comm, Nat.div_add, Nat.div_small by lia. done. }
  assert (Hm : (b * 8 + s) mod 8 = s).
  { rewrite Nat.add_comm, Nat.Div0.mod_add, Nat.mod_small by lia. done. }
  unfold event_ok. rewrite Hd, Hm. repeat split; try done; [lia|]. by exists name.
Qed.

Lemma organize_event_ok (log : list event) (r : result unit) :
  organize pads w out [] = (log, r) → Forall event_ok log.
Proof.
  intros H. change log with (log, r).1. rewrite <- H.
  apply for_each_Forall; [|constructor].
  intros [b name] l Hin Hl. rewrite organize_bank_unfold.
  destruct (mkdir_fails w _); [done|].
  assert (Hb : bank_names !! b = Some name).
  { simpl in Hin. repeat (destruct Hin as [[= <- <-]|Hin]; [reflexivity|]). done. }
  assert (Hslots : Forall event_ok
            (for_each (organize_pad pads w out b name) (seq 0 8) (l ++ [BankDir name])).1).
  { apply for_each_Forall.
    - intros s l0 Hs. apply organize_pad_event_ok; [done|]. apply in_seq in Hs. lia.
    - apply Forall_app. split; [done|]. by repeat constructor. }
  destruct (for_each _ _ _) as [l1 [[]|e]]; [|done].
  apply Forall_app. split; [done|]. by repeat constructor.
Qed.

End Log.

(** Joining a plain name to a path adds one component. *)
Lemma joinpath_plain (p : pure_path) (n : string) :
  Path n = {| root := ""; parts := [n] |} →
  joinpath p n = {| root := root p; parts := parts p ++ [n] |}.
Proof. intros H. unfold joinpath. by rewrite H. Qed.

Lemma append_assoc (a b c : string) :
  String.append (String.append a b) c = String.append a (String.append b c).
Proof.
  induction a as [|ch a IHa]; [done|].
  change (String ch (String.append (String.append a b) c)
          = String ch (String.append a (String.append b c))).
  by f_equal.
Qed.

Lemma append_empty_r (a : string) : String.append a "" = a.
Proof.
  induction a as [|c a IH]; [done|].
  change (String c (String.append a "") = String c a). by f_equal.
Qed.

Lemma concat_cons (sep a : string) (k : list string) :
  k ≠ [] →
  String.concat sep (a :: k) = String.append a (String.append sep (String.concat sep k)).
Proof. intros Hk. destruct k; [done|]. reflexivity. Qed.

Lemma concat_empty_cons (a : string) (k : list string) :
  String.concat "" (a :: k) = String.append a (String.concat "" k).
Proof. destruct k; simpl; [by rewrite append_empty_r | done]. Qed.

Lemma concat_sep_two (l : list string) (n m : string) :
  String.concat "/" (l ++ [n; m])
  = String.append (String.concat "" (map (λ x, String.append x "/") l))
      (String.append n (String.append "/" m)).
Proof.
  induction l as [|x l IH]; [done|].
  change ((x :: l) ++ [n; m]) with (x :: (l ++ [n; m])).
  rewrite concat_cons by (by destruct l).
  cbn [map]. rewrite concat_empty_cons, IH. by rewrite !append_assoc.
Qed.

Lemma append_not_empty (a b : string) :
  b ≠ EmptyString → String.eqb (String.append a b) "" = false.
Proof. intros Hb. destruct a; [by destruct b|done]. Qed.

(** The string of a path two plain names below [p]. *)
Lemma path_str_two (p : pure_path) (n m : string) :
  Path n = {| root := ""; parts := [n] |} →
  Path m = {| root := ""; parts := [m] |} →
  path_str (joinpath (joinpath p n) m)
  = String.append (dir_prefix p) (String.append n (String.append "/" m)).
Proof.
  intros Hn Hm. rewrite (joinpath_plain _ m Hm), (joinpath_plain _ n Hn).
  cbn [root parts]. unfold path_str, dir_prefix. cbn [root parts].
  rewrite <- app_assoc. change ([n] ++ [m]) with [n; m].
  rewrite concat_sep_two, <- append_assoc.
  rewrite append_not_empty; [done|].
  destruct n; [|done]. by destruct m.
Qed.

Lemma bank_name_plain (b : string) :
  In b bank_names →
  Path (String.append "Bank_" b) = {| root := ""; parts := [String.append "Bank_" b] |}.
Proof. intros Hb. repeat (destruct Hb as [<-|Hb]; [reflexivity|]). done. Qed.

Lemma slot_name_plain (s : nat) :
  s < 8 →
  let name := String.append "SMPL" (String.append (format_04d (s + 1)) ".WAV") in
  Path name = {| root := ""; parts := [name] |}.
Proof. intros Hs. do 8 (destruct s as [|s]; [reflexivity|]). lia. Qed.

Lemma dest_path_split (out b : string) (s : nat) :
  In b bank_names → s < 8 →
  dest_path out b s = String.append (dir_prefix (Path out)) (dest_path "" b s).
Proof.
  intros Hb Hs. unfold dest_path, bank_dir.
  rewrite !(path_str_two _ _ _ (bank_name_plain b Hb) (slot_name_plain s Hs)).
  reflexivity.
Qed.

Lemma append_inj_l (s x y : string) : String.append s x = String.append s y → x = y.
Proof. induction s as [|c s IH]; simpl; [done|]. intros [= H]. by apply IH. Qed.

(** The 64 destinations differ from one another. *)
Lemma slot_paths_distinct (p q : nat) :
  p < 64 → q < 64 → slot_path p = slot_path q → p = q.
Proof.
  intros Hp Hq E.
  assert (Hall : forallb (λ p, forallb (λ q,
              (p =? q) || negb (String.eqb (slot_path p) (slot_path q)))
              (seq 0 64)) (seq 0 64) = true) by (vm_compute; reflexivity).
  rewrite forallb_forall in Hall.
  specialize (Hall p ltac:(apply in_seq; lia)).
  rewrite forallb_forall in Hall.
  specialize (Hall q ltac:(apply in_seq; lia)).
  rewrite E, String.eqb_refl, orb_false_r in Hall. by apply Nat.eqb_eq.
Qed.

(** X6.  Whatever a run of [create_sp303_banks] copies, finished or ended
    by an error: the copy is for a pad below 64 that the program file
    assigns, of the file [find_wav_file] gives for its name, to slot
    [p mod 8 + 1] of the bank with letter number [p / 8]; no two pads are
    copied to the same destination. *)
Theorem copies_land_in_their_slot (data : list byte) (w : org_world) (out : string)
    (pads : gmap nat string) (log : list event) (r : result unit) :
  parse_pgm_file data = Some (Ok pads) →
  create_sp303_banks data w out = Some (log, r) →
  (∀ p sample_name wav_file dest,
     In (Copied p sample_name wav_file dest) log →
     p < 64 ∧ pads !! p = Some sample_name
     ∧ find_wav_file sample_name (wav_listing w) = Some wav_file
     ∧ copy_fails w wav_file = false
     ∧ ∃ b, bank_names !! (p / 8) = Some b ∧ dest = dest_path out b (p mod 8))
  ∧ (∀ p q name name' f f' dest,
       In (Copied p name f dest) log → In (Copied q name' f' dest) log → p = q).
Proof.
  intros Hparse. unfold create_sp303_banks. rewrite Hparse. intros [= Hrun].
  pose proof (organize_event_ok pads w out log r Hrun) as Hok.
  rewrite Forall_forall in Hok.
  assert (H1 : ∀ p sample_name wav_file dest,
     In (Copied p sample_name wav_file dest) log →
     p < 64 ∧ pads !! p = Some sample_name
     ∧ find_wav_file sample_name (wav_listing w) = Some wav_file
     ∧ copy_fails w wav_file = false
     ∧ ∃ b, bank_names !! (p / 8) = Some b ∧ dest = dest_path out b (p mod 8)).
  { intros p sample_name wav_file dest Hin. apply list_elem_of_In in Hin.
    exact (Hok _ Hin). }
  split; [exact H1|].
  intros p q name name' f f' dest Hp Hq.
  destruct (H1 _ _ _ _ Hp) as (Hp64 & _ & _ & _ & b & Hb & Hd).
  destruct (H1 _ _ _ _ Hq) as (Hq64 & _ & _ & _ & b' & Hb' & Hd').
  apply slot_paths_distinct; [done|done|].
  unfold slot_path. rewrite Hb, Hb'. simpl default.
  apply (append_inj_l (dir_prefix (Path out))).
  rewrite <- !dest_path_split; [congruence | | | |];
    first [ eapply list_elem_of_In, list_elem_of_lookup_2; eassumption
          | apply Nat.mod_upper_bound; lia ].
Qed.

(** X7.  The log of a run that finishes has 80 entries: for each of the
    eight banks the directory, then one entry per slot, then the closing
    line.  The entry of slot [s] of bank [b] is the copy, the report of a
    missing file or the report of a missing assignment for pad
    [8 * b + s], as the map and the directory have it. *)
Theorem complete_run_log (data : list byte) (w : org_world) (out : string)
    (pads : gmap nat string) (log : list event) :
  parse_pgm_file data = Some (Ok pads) →
  create_sp303_banks data w out = Some (log, Ok tt) →
  length log = 80
  ∧ ∀ b name, bank_names !! b = Some name →
      log !! (10 * b) = Some (BankDir name)
      ∧ log !! (10 * b + 9) = Some (BankCreated name)
      ∧ ∀ s, s < 8 →
          log !! (10 * b + 1 + s)
          = Some match pads !! (b * 8 + s) with
                 | Some sample_name =>
                     match find_wav_file sample_name (wav_listing w) with
                     | Some wav_file =>
                         Copied (b * 8 + s) sample_name wav_file (dest_path out name s)
                     | None => NotFound (b * 8 + s) sample_name
                     end
                 | None => NoAssignment (b * 8 + s)
                 end.
Proof.
  intros Hparse. unfold create_sp303_banks. rewrite Hparse. intros [= Hrun].
  apply organize_log in Hrun. subst log. split; [reflexivity|].
  intros b name Hb.
  do 8 (destruct b as [|b];
        [injection Hb as <-; split; [reflexivity|]; split; [reflexivity|];
         intros s Hs; do 8 (destruct s as [|s]; [reflexivity|]); lia|]).
  done.
Qed.

Local Open Scope Z_scope.

(** ** Binary64 rounding *)

Lemma digits2_pos_bounds (p : positive) :
  2 ^ (Z.pos (digits2_pos p) - 1) <= Z.pos p < 2 ^ Z.pos (digits2_pos p).
Proof.
  induction p as [p IH|p IH|]; simpl digits2_pos.
  - rewrite Pos2Z.inj_succ. replace (Z.succ (Z.pos (digits2_pos p)) - 1)
      with (Z.succ (Z.pos (digits2_pos p) - 1)) by lia.
    rewrite !Z.pow_succ_r by lia. lia.
  - rewrite Pos2Z.inj_succ. replace (Z.succ (Z.pos (digits2_pos p)) - 1)
      with (Z.succ (Z.pos (digits2_pos p) - 1)) by lia.
    rewrite !Z.pow_succ_r by lia. lia.
  - simpl. lia.
Qed.

Lemma digits2_pos_unique (p : positive) (d : Z) :
  2 ^ (d - 1) <= Z.pos p < 2 ^ d -> Z.pos (digits2_pos p) = d.
Proof.
  intros [Hlo Hhi]. pose proof (digits2_pos_bounds p) as [Blo Bhi].
  assert (0 < d).
  { destruct (Z_lt_le_dec 0 d) as [|Hd]; [assumption|].
    destruct (Z.eq_dec d 0) as [->|]; [simpl in Hhi; lia|].
    rewrite Z.pow_neg_r in Hhi by lia. lia. }
  destruct (Z.lt_trichotomy (Z.pos (digits2_pos p)) d) as [Hlt|[Heq|Hgt]];
    [|assumption|].
  - assert (2 ^ Z.pos (digits2_pos p) <= 2 ^ (d - 1))
      by (apply Z.pow_le_mono_r; lia). lia.
  - assert (2 ^ d <= 2 ^ (Z.pos (digits2_pos p) - 1))
      by (apply Z.pow_le_mono_r; lia). lia.
Qed.

Lemma shr_m_shr_1 (mrs : shr_record) :
  0 <= shr_m mrs -> shr_m (shr_1 mrs) = shr_m mrs / 2.
Proof.
  destruct mrs as [m r s]. cbn [shr_m]. intros Hm.
  destruct m as [|[p|p|]|p]; cbn [shr_1 shr_m]; try reflexivity; try lia.
  - apply (Z.div_unique _ _ _ 1); lia.
  - apply (Z.div_unique _ _ _ 0); lia.
Qed.

Lemma shr_m_shr_1_nonneg (mrs : shr_record) :
  0 <= shr_m mrs -> 0 <= shr_m (shr_1 mrs).
Proof.
  intros H. rewrite shr_m_shr_1 by assumption. apply Z.div_pos; lia.
Qed.

Lemma shr_m_iter_pos (p : positive) (mrs : shr_record) :
  0 <= shr_m mrs ->
  0 <= shr_m (iter_pos shr_1 p mrs)
  /\ shr_m (iter_pos shr_1 p mrs) = shr_m mrs / 2 ^ Z.pos p.
Proof.
  revert mrs. induction p as [p IH|p IH|]; intros mrs Hm; simpl iter_pos.
  - pose proof (shr_m_shr_1_nonneg mrs Hm) as H1.
    destruct (IH (shr_1 mrs) H1) as [H2 E2].
    destruct (IH _ H2) as [H3 E3]. split; [assumption|].
    rewrite E3, E2, shr_m_shr_1 by assumption.
    assert (0 < 2 ^ Z.pos p) by (apply Z.pow_pos_nonneg; lia).
    rewrite !Z.div_div by lia.
    f_equal.
    replace (Z.pos p~1) with (1 + Z.pos p + Z.pos p) by lia.
    rewrite !Z.pow_add_r by lia. change (2 ^ 1) with 2. lia.
  - destruct (IH mrs Hm) as [H2 E2].
    destruct (IH _ H2) as [H3 E3]. split; [assumption|].
    rewrite E3, E2.
    assert (0 < 2 ^ Z.pos p) by (apply Z.pow_pos_nonneg; lia).
    rewrite !Z.div_div by lia.
    f_equal.
    replace (Z.pos p~0) with (Z.pos p + Z.pos p) by lia.
    rewrite !Z.pow_add_r by lia. lia.
  - split; [apply shr_m_shr_1_nonneg; assumption|]. rewrite shr_m_shr_1 by assumption. reflexivity.
Qed.

Lemma shr_m_record_of_loc (m : Z) (l : location) : shr_m (shr_record_of_loc m l) = m.
Proof. destruct l as [|[]]; reflexivity. Qed.

Lemma shr_fexp_shift (m e : Z) (l : location) (k : Z) :
  0 <= m -> fexp 53 1024 (Zdigits2 m + e) - e = k -> 0 <= k ->
  exists mrs, shr_fexp 53 1024 m e l = (mrs, e + k) /\ shr_m mrs = m / 2 ^ k
              /\ (k = 0 -> mrs = shr_record_of_loc m l).
Proof.
  intros Hm Hk Hk0. unfold shr_fexp. rewrite Hk. unfold shr.
  destruct k as [|p|p]; [| |lia].
  - exists (shr_record_of_loc m l). rewrite Z.add_0_r, shr_m_record_of_loc.
    split; [reflexivity|]. split; [|reflexivity]. symmetry. apply Z.div_1_r.
  - exists (iter_pos shr_1 p (shr_record_of_loc m l)). split; [reflexivity|].
    split; [|discriminate].
    rewrite <- (shr_m_record_of_loc m l) at 2.
    apply shr_m_iter_pos. rewrite shr_m_record_of_loc. assumption.
Qed.

Lemma round_nearest_even_cases (m : Z) (l : location) :
  round_nearest_even m l = m \/ round_nearest_even m l = m + 1.
Proof.
  unfold round_nearest_even. destruct l as [|[]]; auto.
  destruct (Z.even m); auto.
Qed.

(** Rounding a mantissa of at least 53 digits above the subnormal range:
    the mantissa is cut to its leading 53 digits and then kept or moved up
    by one, a carry shifting once more; past the largest exponent the
    result is the infinity. *)
Lemma binary_round_aux_normal (m : positive) (e : Z) (l : location) :
  53 <= Z.pos (digits2_pos m) ->
  -1074 <= Z.pos (digits2_pos m) + e - 53 ->
  exists md ed,
    binary_round_aux 53 1024 false (Z.pos m) e l
      = (if ed <=? 971 then S754_finite false md ed else S754_infinity false)
    /\ 2 ^ 52 <= Z.pos md < 2 ^ 53
    /\ ((Z.pos md = Z.pos m / 2 ^ (Z.pos (digits2_pos m) - 53)
         /\ ed = e + (Z.pos (digits2_pos m) - 53))
        \/ (Z.pos md = Z.pos m / 2 ^ (Z.pos (digits2_pos m) - 53) + 1
            /\ ed = e + (Z.pos (digits2_pos m) - 53))
        \/ (Z.pos m / 2 ^ (Z.pos (digits2_pos m) - 53) + 1 = 2 ^ 53
            /\ Z.pos md = 2 ^ 52
            /\ ed = e + (Z.pos (digits2_pos m) - 53) + 1))
    /\ (l = loc_Exact -> Z.pos (digits2_pos m) = 53 -> md = m /\ ed = e).
Proof.
  intros HD Hmin.
  pose proof (digits2_pos_bounds m) as [Dlo Dhi].
  set (D := Z.pos (digits2_pos m)) in *. set (k := D - 53).
  assert (Hk : 0 <= k) by (unfold k; lia).
  assert (Hpk : 0 < 2 ^ k) by (apply Z.pow_pos_nonneg; lia).
  unfold binary_round_aux.
  destruct (shr_fexp_shift (Z.pos m) e l k) as (mrs & -> & HM & Hmrs); [lia| |lia|].
  { unfold fexp, emin. cbn [Zdigits2]. fold D. unfold k. lia. }
  set (M := Z.pos m / 2 ^ k) in *.
  assert (HMb : 2 ^ 52 <= M < 2 ^ 53).
  { unfold M. split.
    - apply Z.div_le_lower_bound; [assumption|].
      rewrite <- Z.pow_add_r by lia. replace (k + 52) with (D - 1) by (unfold k; lia).
      assumption.
    - apply Z.div_lt_upper_bound; [assumption|].
      rewrite <- Z.pow_add_r by lia. replace (k + 53) with D by (unfold k; lia).
      assumption. }
  assert (Hexact : l = loc_Exact -> D = 53 ->
                   round_nearest_even (shr_m mrs) (loc_of_shr_record mrs) = Z.pos m).
  { intros -> HD53. rewrite Hmrs by (unfold k; lia). reflexivity. }
  assert (Hkeep : forall q, Z.pos q < 2 ^ 53 -> 2 ^ 52 <= Z.pos q ->
            (let '(mrs'', e'') := shr_fexp 53 1024 (Z.pos q) (e + k) loc_Exact in
             match shr_m mrs'' with
             | 0 => S754_zero false
             | Z.pos m0 => if e'' <=? 1024 - 53 then S754_finite false m0 e''
                           else S754_infinity false
             | Z.neg _ => S754_nan
             end)
            = (if e + k <=? 971 then S754_finite false q (e + k)
               else S754_infinity false)).
  { intros q Hq1 Hq2.
    assert (Hq : Z.pos (digits2_pos q) = 53) by (apply digits2_pos_unique; lia).
    destruct (shr_fexp_shift (Z.pos q) (e + k) loc_Exact 0) as (mrs2 & -> & HM2 & _);
      [lia| |lia|].
    { unfold fexp, emin. cbn [Zdigits2]. rewrite Hq. unfold k. lia. }
    rewrite Z.div_1_r in HM2. rewrite HM2, Z.add_0_r. reflexivity. }
  rewrite HM.
  destruct (round_nearest_even_cases M (loc_of_shr_record mrs)) as [Hr|Hr].
  - (* kept *)
    rewrite HM in Hexact. rewrite Hr in *.
    destruct M as [|q|q] eqn:EM; [lia| |lia].
    rewrite Hkeep by lia.
    exists q, (e + k). split; [reflexivity|]. split; [lia|]. split; [left; lia|].
    intros Hl HD53. specialize (Hexact Hl HD53). split; [congruence | unfold k; lia].
  - rewrite HM in Hexact. rewrite Hr in *.
    destruct (Z.eq_dec (M + 1) (2 ^ 53)) as [Hcarry|Hnc].
    + (* moved up with a carry *)
      rewrite Hcarry.
      destruct (shr_fexp_shift (2 ^ 53) (e + k) loc_Exact 1) as (mrs2 & -> & HM2 & _);
        [lia| |lia|].
      { unfold fexp, emin. change (Zdigits2 (2 ^ 53)) with 54. unfold k. lia. }
      change (2 ^ 53 / 2 ^ 1) with (Z.pos (2 ^ 52)%positive) in HM2. rewrite HM2.
      exists (2 ^ 52)%positive, (e + k + 1). split; [reflexivity|].
      split; [change (Z.pos (2 ^ 52)) with (2 ^ 52); lia|].
      split; [right; right; repeat split; reflexivity || assumption|].
      intros Hl HD53. specialize (Hexact Hl HD53).
      assert (k = 0) as Hk0 by (unfold k; lia).
      unfold M in Hexact. rewrite Hk0, Z.div_1_r in Hexact. lia.
    + (* moved up *)
      destruct (M + 1) as [|q|q] eqn:EM; [lia| |lia].
      rewrite Hkeep by lia.
      exists q, (e + k). split; [reflexivity|]. split; [lia|].
      split; [right; left; lia|].
      intros Hl HD53. specialize (Hexact Hl HD53). split; [congruence | unfold k; lia].
Qed.

Lemma pos_iter_xO (p d : positive) : Z.pos (Pos.iter xO p d) = Z.pos p * 2 ^ Z.pos d.
Proof.
  induction d as [|d IH] using Pos.peano_ind.
  - simpl. lia.
  - rewrite Pos.iter_succ, Pos2Z.inj_xO, IH, Pos2Z.inj_succ, Z.pow_succ_r by lia. lia.
Qed.

(** Integers below [2^53] convert without rounding, to a full 53-digit
    mantissa. *)
Lemma of_int_pos (p : positive) :
  Z.pos p < 2 ^ 53 ->
  exists mz ez,
    PyFloat.of_int (Z.pos p) = S754_finite false mz ez
    /\ 2 ^ 52 <= Z.pos mz < 2 ^ 53 /\ -52 <= ez <= 0
    /\ Z.pos mz = Z.pos p * 2 ^ (- ez).
Proof.
  intros Hp. pose proof (digits2_pos_bounds p) as [Dlo Dhi].
  unfold PyFloat.of_int, PyFloat.prec, PyFloat.emax, binary_normalize, binary_round.
  set (D := Z.pos (digits2_pos p)) in *.
  assert (HD : 1 <= D <= 53).
  { split; [unfold D; lia|].
    destruct (Z_le_gt_dec D 53) as [|Hgt]; [assumption|].
    assert (2 ^ 53 <= 2 ^ (D - 1)) by (apply Z.pow_le_mono_r; lia). lia. }
  assert (Hfexp : fexp 53 1024 (D + 0) = D - 53) by (unfold fexp, emin; lia).
  rewrite Hfexp. unfold shl_align.
  assert (Hfin : forall mz ez, 2 ^ 52 <= Z.pos mz < 2 ^ 53 -> -52 <= ez <= 0 ->
            binary_round_aux 53 1024 false (Z.pos mz) ez loc_Exact
            = S754_finite false mz ez).
  { intros mz ez Hmz Hez.
    assert (Hd : Z.pos (digits2_pos mz) = 53) by (apply digits2_pos_unique; lia).
    destruct (binary_round_aux_normal mz ez loc_Exact) as (md & ed & -> & _ & _ & Hex);
      [lia | lia |].
    destruct (Hex eq_refl Hd) as [-> ->].
    replace (ez <=? 971) with true by (symmetry; apply Z.leb_le; lia). reflexivity. }
  destruct (D - 53 - 0) as [|d|d] eqn:Ed; [|lia|].
  - exists p, 0. assert (D = 53) as HD53 by lia.
    rewrite HD53 in Dlo. change (53 - 1) with 52 in Dlo.
    rewrite Hfin by lia. repeat split; try lia. 
  - exists (Pos.iter xO p d), (D - 53).
    assert (Hz : Z.pos (Pos.iter xO p d) = Z.pos p * 2 ^ (53 - D)).
    { rewrite pos_iter_xO. f_equal. f_equal. lia. }
    assert (Hb : 2 ^ 52 <= Z.pos (Pos.iter xO p d) < 2 ^ 53).
    { rewrite Hz.
      assert (E52 : 2 ^ 52 = 2 ^ (D - 1) * 2 ^ (53 - D))
        by (rewrite <- Z.pow_add_r by lia; f_equal; lia).
      assert (E53 : 2 ^ 53 = 2 ^ D * 2 ^ (53 - D))
        by (rewrite <- Z.pow_add_r by lia; f_equal; lia).
      assert (0 < 2 ^ (53 - D)) by (apply Z.pow_pos_nonneg; lia).
      rewrite E52, E53. split; nia. }
    rewrite Hfin by lia. repeat split; try lia.
    rewrite Hz. f_equal. f_equal. lia.
Qed.

Lemma of_int_zero : PyFloat.of_int 0 = S754_zero false.
Proof. reflexivity. Qed.

Lemma SFdiv_core_normal (N R : positive) (en er : Z) :
  2 ^ 52 <= Z.pos N < 2 ^ 53 -> 2 ^ 52 <= Z.pos R < 2 ^ 53 ->
  -52 <= en <= 0 -> -52 <= er <= 0 ->
  SFdiv_core_binary 53 1024 (Z.pos N) en (Z.pos R) er
  = (Z.pos N * 2 ^ 53 / Z.pos R, en - er - 53,
     new_location (Z.pos R) ((Z.pos N * 2 ^ 53) mod Z.pos R)).
Proof.
  intros HN HR Hen Her. unfold SFdiv_core_binary. cbn [Zdigits2].
  rewrite (digits2_pos_unique N 53), (digits2_pos_unique R 53) by lia.
  assert (He : Z.min (fexp 53 1024 (53 + en - (53 + er))) (en - er) = en - er - 53)
    by (unfold fexp, emin; lia).
  rewrite He. replace (en - er - (en - er - 53)) with 53 by lia.
  cbv iota. rewrite Z.shiftl_mul_pow2 by lia.
  unfold Z.div, Z.modulo.
  destruct (Z.div_eucl (Z.pos N * 2 ^ 53) (Z.pos R)) as [q rem]. reflexivity.
Qed.

(** The quotient of two 53-digit mantissas: the result never lies below
    the quotient cut to 53 digits, and the true quotient lies below the
    next mantissa up. *)
Lemma SFdiv_normal (N R : positive) (en er : Z) :
  2 ^ 52 <= Z.pos N < 2 ^ 53 -> 2 ^ 52 <= Z.pos R < 2 ^ 53 ->
  -52 <= en <= 0 -> -52 <= er <= 0 ->
  exists md ed Mq k,
    SFdiv 53 1024 (S754_finite false N en) (S754_finite false R er)
      = S754_finite false md ed
    /\ 2 ^ 52 <= Z.pos md < 2 ^ 53
    /\ 0 <= k <= 1 /\ 2 ^ 52 <= Mq < 2 ^ 53
    /\ Z.pos N * 2 ^ 53 < (Mq + 1) * 2 ^ k * Z.pos R
    /\ ((Z.pos md = Mq /\ ed = en - er - 53 + k)
        \/ (Z.pos md = Mq + 1 /\ ed = en - er - 53 + k)
        \/ (Mq + 1 = 2 ^ 53 /\ Z.pos md = 2 ^ 52 /\ ed = en - er - 53 + k + 1)).
Proof.
  intros HN HR Hen Her. unfold SFdiv. rewrite SFdiv_core_normal by assumption.
  cbn [xorb].
  set (q := Z.pos N * 2 ^ 53 / Z.pos R).
  pose proof (Z.div_mod (Z.pos N * 2 ^ 53) (Z.pos R) ltac:(lia)) as Hdm.
  pose proof (Z.mod_pos_bound (Z.pos N * 2 ^ 53) (Z.pos R) ltac:(lia)) as Hrem.
  fold q in Hdm.
  assert (Hq : 2 ^ 52 <= q < 2 ^ 54).
  { unfold q. split.
    - apply Z.div_le_lower_bound; [lia|]. nia.
    - apply Z.div_lt_upper_bound; [lia|].
      change (2 ^ 54) with (2 * 2 ^ 53). nia. }
  destruct q as [|qp|qp] eqn:Eq; [lia| |lia].
  pose proof (digits2_pos_bounds qp) as [Dlo Dhi].
  set (D := Z.pos (digits2_pos qp)) in *.
  assert (HD : 53 <= D <= 54).
  { split.
    - destruct (Z_le_gt_dec 53 D) as [|Hgt]; [assumption|].
      assert (2 ^ D <= 2 ^ 52) by (apply Z.pow_le_mono_r; lia). lia.
    - destruct (Z_le_gt_dec D 54) as [|Hgt]; [assumption|].
      assert (2 ^ 54 <= 2 ^ (D - 1)) by (apply Z.pow_le_mono_r; lia). lia. }
  destruct (binary_round_aux_normal qp (en - er - 53)
              (new_location (Z.pos R) ((Z.pos N * 2 ^ 53) mod Z.pos R)))
    as (md & ed & -> & Hmd & Hshape & _); [lia | fold D; lia |].
  fold D in Hshape.
  set (k := D - 53) in *. set (Mq := Z.pos qp / 2 ^ k) in *.
  assert (Hpk : 0 < 2 ^ k) by (apply Z.pow_pos_nonneg; unfold k; lia).
  pose proof (Z.div_mod (Z.pos qp) (2 ^ k) ltac:(lia)) as Hqm.
  pose proof (Z.mod_pos_bound (Z.pos qp) (2 ^ k) Hpk) as Hqr.
  fold Mq in Hqm.
  assert (HMq : 2 ^ 52 <= Mq < 2 ^ 53).
  { unfold Mq. split.
    - apply Z.div_le_lower_bound; [assumption|].
      rewrite <- Z.pow_add_r by (unfold k; lia).
      replace (k + 52) with (D - 1) by (unfold k; lia). assumption.
    - apply Z.div_lt_upper_bound; [assumption|].
      rewrite <- Z.pow_add_r by (unfold k; lia).
      replace (k + 53) with D by (unfold k; lia). assumption. }
  exists md, ed, Mq, k.
  replace (ed <=? 971) with true by (symmetry; apply Z.leb_le; unfold k in *; lia).
  split; [reflexivity|]. split; [assumption|]. split; [unfold k; lia|].
  split; [assumption|]. split; [|unfold k in *; lia].
  assert (Z.pos qp + 1 <= (Mq + 1) * 2 ^ k) by lia.
  nia.
Qed.

(** A binary64 number that is not at most a normal one: a NaN, the positive
    infinity, or a larger normal number. *)
Lemma SFleb_false_normal (t : spec_float) (md : positive) (ed : Z) :
  valid_binary 53 1024 t = true ->
  -1074 < ed ->
  SFleb t (S754_finite false md ed) = false ->
  t = S754_nan \/ t = S754_infinity false
  \/ exists mt et, t = S754_finite false mt et
       /\ 2 ^ 52 <= Z.pos mt < 2 ^ 53 /\ -1074 < et
       /\ ((et = ed /\ Z.pos md < Z.pos mt) \/ ed < et).
Proof.
  intros Hv Hed Hle. destruct t as [s|s| |s mt et]; try discriminate; auto.
  - destruct s; [discriminate|auto].
  - destruct s; [discriminate|]. right. right. exists mt, et.
    unfold SFleb, SFcompare in Hle.
    assert (Hcmp : ed < et \/ (et = ed /\ Z.pos md < Z.pos mt)).
    { destruct (Z.compare_spec et ed) as [->|Hlt|Hgt]; [|discriminate|left; lia].
      right. split; [reflexivity|].
      change (Pos.compare_cont Eq mt md) with (Pos.compare mt md) in Hle.
      destruct (Pos.compare_spec mt md); try discriminate. lia. }
    simpl in Hv. unfold bounded, canonical_mantissa in Hv.
    apply andb_prop in Hv as [Hc _]. apply Z.eqb_eq in Hc.
    unfold fexp, emin in Hc.
    assert (Z.pos (digits2_pos mt) = 53) as Hd by lia.
    pose proof (digits2_pos_bounds mt) as Hb. rewrite Hd in Hb.
    change (53 - 1) with 52 in Hb.
    split; [reflexivity|]. split; [assumption|]. split; [lia|]. tauto.
Qed.

(** The product of two normal numbers with 53-digit mantissas. *)
Lemma SFmul_normal (mt R : positive) (et er : Z) :
  2 ^ 52 <= Z.pos mt < 2 ^ 53 -> 2 ^ 52 <= Z.pos R < 2 ^ 53 ->
  -1074 <= et -> -52 <= er <= 0 ->
  exists md ed Mp k,
    SFmul 53 1024 (S754_finite false mt et) (S754_finite false R er)
      = (if ed <=? 971 then S754_finite false md ed else S754_infinity false)
    /\ 52 <= k <= 53
    /\ Mp = Z.pos mt * Z.pos R / 2 ^ k
    /\ 2 ^ 52 <= Mp < 2 ^ 53
    /\ ((Z.pos md = Mp /\ ed = et + er + k)
        \/ (Z.pos md = Mp + 1 /\ ed = et + er + k)
        \/ (Mp + 1 = 2 ^ 53 /\ Z.pos md = 2 ^ 52 /\ ed = et + er + k + 1)).
Proof.
  intros Hmt HR Het Her. unfold SFmul. cbn [xorb].
  pose proof (digits2_pos_bounds (mt * R)) as [Dlo Dhi].
  set (D := Z.pos (digits2_pos (mt * R))) in *.
  rewrite Pos2Z.inj_mul in Dlo, Dhi.
  assert (Hprod : 2 ^ 104 <= Z.pos mt * Z.pos R < 2 ^ 106).
  { change (2 ^ 104) with (2 ^ 52 * 2 ^ 52). change (2 ^ 106) with (2 ^ 53 * 2 ^ 53).
    split; nia. }
  assert (HD : 105 <= D <= 106).
  { split.
    - destruct (Z_le_gt_dec 105 D) as [|Hgt]; [assumption|].
      assert (2 ^ D <= 2 ^ 104) by (apply Z.pow_le_mono_r; lia). lia.
    - destruct (Z_le_gt_dec D 106) as [|Hgt]; [assumption|].
      assert (2 ^ 106 <= 2 ^ (D - 1)) by (apply Z.pow_le_mono_r; lia). lia. }
  destruct (binary_round_aux_normal (mt * R) (et + er) loc_Exact)
    as (md & ed & -> & Hmd & Hshape & _); [fold D; lia | fold D; lia |].
  fold D in Hshape. rewrite Pos2Z.inj_mul in Hshape.
  exists md, ed, (Z.pos mt * Z.pos R / 2 ^ (D - 53)), (D - 53).
  split; [reflexivity|]. split; [lia|]. split; [reflexivity|].
  split; [|exact Hshape].
  assert (Hpk : 0 < 2 ^ (D - 53)) by (apply Z.pow_pos_nonneg; lia).
  split.
  - apply Z.div_le_lower_bound; [assumption|].
    rewrite <- Z.pow_add_r by lia. replace (D - 53 + 52) with (D - 1) by lia.
    assumption.
  - apply Z.div_lt_upper_bound; [assumption|].
    rewrite <- Z.pow_add_r by lia. replace (D - 53 + 53) with D by lia.
    assumption.
Qed.

Lemma binary_round_aux_positive (m e : Z) (l : location) :
  match binary_round_aux 53 1024 false m e l with
  | S754_zero s | S754_infinity s | S754_finite s _ _ => s = false
  | S754_nan => True
  end.
Proof.
  unfold binary_round_aux.
  destruct (shr_fexp 53 1024 m e l) as [mrs' e'].
  destruct (shr_fexp 53 1024 _ e' loc_Exact) as [mrs'' e''].
  destruct (shr_m mrs''); [reflexivity| |exact I].
  destruct (e'' <=? 1024 - 53); reflexivity.
Qed.

Lemma to_int_positive (x : spec_float) (tf : Z) :
  match x with
  | S754_zero s | S754_infinity s | S754_finite s _ _ => s = false
  | S754_nan => True
  end ->
  PyFloat.to_int x = Some tf ->
  0 <= tf /\ PyFloat.floor x = Some tf.
Proof.
  destruct x as [s|s| |s m e]; simpl; intros Hs H; try discriminate.
  - injection H as <-. split; [lia|reflexivity].
  - subst s. injection H as <-. split; [|reflexivity].
    simpl. apply Z.shiftl_nonneg. lia.
Qed.

(** The step on which padding rests: when the duration [n / r] is not at
    least the target [t], the frame count [int(t * r)] is not below [n]. *)
Lemma target_frames_not_below (n r : Z) (t : spec_float) (tf : Z) :
  0 <= n < 2 ^ 53 -> 1 <= r < 2 ^ 53 ->
  PyFloat.is_float t = true ->
  PyFloat.geb (PyFloat.div (PyFloat.of_int n) (PyFloat.of_int r)) t = false ->
  PyFloat.to_int (PyFloat.mul t (PyFloat.of_int r)) = Some tf ->
  n <= tf /\ PyFloat.floor (PyFloat.mul t (PyFloat.of_int r)) = Some tf.
Proof.
  intros Hn Hr Hv Hge Htf.
  unfold PyFloat.is_float, PyFloat.geb, PyFloat.div, PyFloat.mul,
    PyFloat.prec, PyFloat.emax in *.
  destruct r as [|rp|rp]; [lia| |lia].
  destruct (of_int_pos rp) as (R & er & HofR & HR & Her & HRr); [lia|].
  rewrite HofR in *.
  destruct n as [|np|np]; [| |lia].
  - (* an empty file *)
    rewrite of_int_zero in Hge. cbn [SFdiv xorb] in Hge.
    destruct t as [s|s| |s mt et]; try discriminate.
    destruct s; [discriminate|].
    unfold SFmul in Htf |- *. cbn [xorb] in Htf |- *.
    pose proof (binary_round_aux_positive (Z.pos (mt * R)) (et + er) loc_Exact) as Hs.
    destruct (to_int_positive _ tf Hs Htf). split; [lia|assumption].
  - destruct (of_int_pos np) as (N & en & HofN & HN & Hen & HNn); [lia|].
    rewrite HofN in Hge.
    destruct (SFdiv_normal N R en er HN HR Hen Her)
      as (md & ed & Mq & kq & Hd & Hmd & Hkq & HMq & Hquot & Hshape).
    rewrite Hd in Hge.
    destruct (SFleb_false_normal t md ed Hv ltac:(lia) Hge)
      as [->|[->|(mt & et & -> & Hmt & Het & Hcmp)]]; [discriminate|discriminate|].
    destruct (SFmul_normal mt R et er Hmt HR ltac:(lia) Her)
      as (md' & ed' & Mp & kp & Hmul & Hkp & HMp & HMpb & Hshape').
    rewrite Hmul in Htf |- *.
    destruct (ed' <=? 971); [|discriminate].
    cbn [PyFloat.to_int cond_Zopp] in Htf. injection Htf as <-.
    split; [|reflexivity].
    (* the quotient is below the target *)
    set (Eq := en - er - 53 + kq) in *.
    set (u := et - Eq).
    assert (Hu : 0 <= u /\ Mq + 1 <= Z.pos mt * 2 ^ u).
    { unfold u.
      destruct Hshape as [[Hm He]|[[Hm He]|(Hc & Hm & He)]];
        destruct Hcmp as [[Hee Hlt]|Hlt].
      - replace (et - Eq) with 0 by lia. change (2 ^ 0) with 1. lia.
      - split; [lia|].
        assert (2 ^ 1 <= 2 ^ (et - Eq)) by (apply Z.pow_le_mono_r; lia).
        change (2 ^ 1) with 2 in *. nia.
      - replace (et - Eq) with 0 by lia. change (2 ^ 0) with 1. lia.
      - split; [lia|].
        assert (2 ^ 1 <= 2 ^ (et - Eq)) by (apply Z.pow_le_mono_r; lia).
        change (2 ^ 1) with 2 in *. nia.
      - replace (et - Eq) with 1 by lia. change (2 ^ 1) with 2. lia.
      - split; [lia|].
        assert (2 ^ 1 <= 2 ^ (et - Eq)) by (apply Z.pow_le_mono_r; lia).
        change (2 ^ 1) with 2 in *. nia. }
    destruct Hu as [Hu0 Hu1].
    assert (Hpkq : 0 < 2 ^ kq) by (apply Z.pow_pos_nonneg; lia).
    assert (HI1 : Z.pos N * 2 ^ 53 < Z.pos mt * Z.pos R * 2 ^ (u + kq)).
    { rewrite Z.pow_add_r by lia. nia. }
    (* in terms of the integers themselves *)
    set (ep := et + er) in *.
    assert (Huk : u + kq = ep - en + 53) by (unfold u, Eq, ep; lia).
    rewrite Huk, HNn in HI1.
    assert (HI2 : Z.pos np * 2 ^ (- en + 53) < Z.pos mt * Z.pos R * 2 ^ (ep - en + 53)).
    { rewrite (Z.pow_add_r 2 (- en) 53) by lia. lia. }
    clear HI1.
    destruct (Z_le_gt_dec 1 ed') as [Hbig|Hsmall].
    + (* the result is a multiple of two, above every 53-bit integer *)
      rewrite Z.shiftl_mul_pow2 by lia.
      assert (2 ^ 1 <= 2 ^ ed') by (apply Z.pow_le_mono_r; lia).
      change (2 ^ 1) with 2 in *.
      assert (Hmd' : 2 ^ 52 <= Z.pos md').
      { destruct Hshape' as [[-> _]|[[-> _]|(_ & -> & _)]]; lia. }
      change (2 ^ 53) with (2 ^ 52 * 2) in Hn. nia.
    + rewrite Z.shiftl_div_pow2 by lia.
      assert (Hep : ep + kp <= 0).
      { destruct Hshape' as [[_ He]|[[_ He]|(_ & _ & He)]]; lia. }
      assert (Hpe : 0 < 2 ^ (- ed')) by (apply Z.pow_pos_nonneg; lia).
      apply Z.div_le_lower_bound; [assumption|].
      (* m > n * 2^(-ep) *)
      assert (Hm : Z.pos np * 2 ^ (- ep) < Z.pos mt * Z.pos R).
      { assert (E : 2 ^ (- en + 53) = 2 ^ (ep - en + 53) * 2 ^ (- ep)).
        { rewrite <- Z.pow_add_r by lia. f_equal. lia. }
        assert (0 < 2 ^ (ep - en + 53)) by (apply Z.pow_pos_nonneg; lia).
        rewrite E in HI2. nia. }
      assert (Hpkp : 0 < 2 ^ kp) by (apply Z.pow_pos_nonneg; lia).
      assert (HMp' : Z.pos np * 2 ^ (- (ep + kp)) <= Mp).
      { rewrite HMp. apply Z.div_le_lower_bound; [assumption|].
        assert (E : 2 ^ (- ep) = 2 ^ kp * 2 ^ (- (ep + kp))).
        { rewrite <- Z.pow_add_r by lia. f_equal. lia. }
        rewrite E in Hm. nia. }
      destruct Hshape' as [[Hm' He']|[[Hm' He']|(Hc' & Hm' & He')]].
      * rewrite Hm', He'. replace (- (et + er + kp)) with (- (ep + kp)) by (unfold ep; lia).
        lia.
      * rewrite Hm', He'. replace (- (et + er + kp)) with (- (ep + kp)) by (unfold ep; lia).
        lia.
      * rewrite Hm', He'.
        assert (E : 2 ^ (- (ep + kp)) = 2 ^ 1 * 2 ^ (- (ep + kp + 1))).
        { rewrite <- Z.pow_add_r by lia. f_equal. lia. }
        change (2 ^ 1) with 2 in E.
        rewrite E in HMp'. lia.
Qed.

(** ** Containers, reading and writing *)

Import PyFloat Wav.
Local Open Scope Z_scope.

(** A conjunction of integer comparisons that are to hold. *)
Ltac Z_bools :=
  repeat (apply andb_true_iff; split); first [apply Z.leb_le | apply Z.ltb_lt].

(** The comparisons a conjunction of them holds. *)
Ltac Z_bools_in H :=
  repeat (apply andb_true_iff in H as [H ?]);
  repeat match goal with
         | H : (_ <=? _) = true |- _ => apply Z.leb_le in H
         | H : (_ <? _) = true |- _ => apply Z.ltb_lt in H
         end.

Lemma riff_ok_bounds (w : wav_file) :
  riff_ok w = true →
  1 ≤ nchannels w < 2 ^ 16 ∧ 1 ≤ sampwidth w ≤ 2 ^ 13
  ∧ 0 ≤ framerate w < 2 ^ 32 ∧ 0 ≤ chunksize w < 2 ^ 32.
Proof. unfold riff_ok. intros H. Z_bools_in H. lia. Qed.

Lemma framesize_pos (w : wav_file) : riff_ok w = true → 1 ≤ framesize w.
Proof. intros H. apply riff_ok_bounds in H. unfold framesize. nia. Qed.

Lemma getnframes_bounds (w : wav_file) :
  riff_ok w = true →
  0 ≤ getnframes w
  ∧ getnframes w * framesize w ≤ chunksize w
  ∧ getnframes w < 2 ^ 32.
Proof.
  intros H. pose proof (framesize_pos w H) as Hfs.
  pose proof (riff_ok_bounds w H) as (_ & _ & _ & Hlen).
  unfold getnframes.
  pose proof (Z.mul_div_le (chunksize w) (framesize w)).
  pose proof (Z.div_pos (chunksize w) (framesize w)).
  pose proof (Z.div_le_upper_bound (chunksize w) (framesize w) (chunksize w)).
  repeat split; [lia | nia | nia].
Qed.

(** Reading the frames the header counts: that many bytes, or what the
    file holds. *)
Lemma readframes_all (w : wav_file) :
  riff_ok w = true →
  readframes w (getnframes w) = take (Z.to_nat (getnframes w * framesize w)) (data w).
Proof.
  intros H. pose proof (getnframes_bounds w H) as (Hn0 & Hn1 & _).
  pose proof (framesize_pos w H) as Hfs.
  unfold readframes. destruct (Z.eqb_spec (getnframes w) 0) as [->|Hne]; [done|].
  unfold chunk_read.
  replace (getnframes w * framesize w <? 0) with false by (symmetry; apply Z.ltb_ge; nia).
  replace (chunksize w <? getnframes w * framesize w) with false
    by (symmetry; apply Z.ltb_ge; lia).
  done.
Qed.

Lemma holds_its_frames_le (w : wav_file) :
  holds_its_frames w = true →
  getnframes w * framesize w ≤ Z.of_nat (length (data w)).
Proof. unfold holds_its_frames. apply Z.leb_le. Qed.

Lemma length_readframes_le (w : wav_file) :
  riff_ok w = true →
  Z.of_nat (length (readframes w (getnframes w))) ≤ getnframes w * framesize w.
Proof.
  intros H. pose proof (getnframes_bounds w H). pose proof (framesize_pos w H).
  rewrite readframes_all, length_take by done. nia.
Qed.

Lemma length_readframes (w : wav_file) :
  riff_ok w = true → holds_its_frames w = true →
  Z.of_nat (length (readframes w (getnframes w))) = getnframes w * framesize w.
Proof.
  intros H Hw. pose proof (getnframes_bounds w H). pose proof (framesize_pos w H).
  apply holds_its_frames_le in Hw.
  rewrite readframes_all, length_take by done. nia.
Qed.

(** What the writer leaves holds whole frames when it was given whole
    frames. *)
Lemma written_whole (params : wave_params) (k : Z) (frames : list byte) :
  1 ≤ p_nchannels params → 1 ≤ p_sampwidth params → 0 ≤ k →
  Z.of_nat (length frames) = k * (p_nchannels params * p_sampwidth params) →
  getnframes (written params frames) = k
  ∧ readframes (written params frames) k = frames
  ∧ holds_its_frames (written params frames) = true.
Proof.
  intros Hn Hs Hk Hlen.
  assert (Hg : getnframes (written params frames) = k).
  { unfold getnframes, framesize, written. simpl. rewrite Hlen. apply Z.div_mul. nia. }
  split; [exact Hg|]. split.
  - unfold readframes. destruct (Z.eqb_spec k 0) as [->|Hne].
    + destruct frames; [done|]. simpl in Hlen. lia.
    + unfold chunk_read, framesize, written. simpl. rewrite Hlen.
      replace (k * (p_nchannels params * p_sampwidth params) <? 0) with false
        by (symmetry; apply Z.ltb_ge; nia).
      rewrite Z.ltb_irrefl. simpl. apply take_ge. lia.
  - unfold holds_its_frames. rewrite Hg. apply Z.leb_le.
    unfold framesize, written. simpl. lia.
Qed.

Lemma wave_open_read_ok (path : string) (wd : world) (w : wav_file) :
  wave_open_read path wd = Some w →
  files wd !! path = Some (Pcm w) ∧ riff_ok w = true.
Proof.
  unfold wave_open_read. destruct (files wd !! path) as [[w'|]|]; try done.
  destruct (riff_ok w') eqn:E; [|done]. by intros [= <-].
Qed.

Lemma wave_open_read_put (path : string) (w : wav_file) (wd : world) :
  riff_ok w = true → wave_open_read path (put path (Pcm w) wd) = Some w.
Proof. intros H. unfold wave_open_read, put. simpl. by rewrite lookup_insert_eq, H. Qed.

Lemma wave_open_read_put_ne (path path' : string) (f : file) (wd : world) :
  path ≠ path' → wave_open_read path' (put path f wd) = wave_open_read path' wd.
Proof. intros H. unfold wave_open_read, put. simpl. by rewrite lookup_insert_ne. Qed.

(** The header packs when the format fields and the data length fit. *)
Lemma header_packs_iff (params : wave_params) (datalength : Z) :
  header_packs params datalength = true
  ↔ header_packs params 0 = true ∧ 0 ≤ datalength ∧ 36 + datalength < 2 ^ 32.
Proof.
  unfold header_packs. split.
  - intros H. Z_bools_in H. split; [|lia]. Z_bools; lia.
  - intros [H Hd]. Z_bools_in H. Z_bools; lia.
Qed.

(** The format fields of a readable file in a format the writer takes. *)
Lemma writable_format_packs (w : wav_file) :
  riff_ok w = true → writable_format w = true →
  setparams_ok (getparams w) = true ∧ header_packs (getparams w) 0 = true.
Proof.
  intros Hok Hw. apply riff_ok_bounds in Hok as (Hn & Hs & Hr & _).
  unfold writable_format in Hw. Z_bools_in Hw.
  unfold setparams_ok, header_packs, getparams. simpl.
  split; Z_bools; nia.
Qed.

(** What a write that returns True has done. *)
Lemma wave_write_true (path : string) (params : wave_params) (frames : list byte)
    (wd wd' : world) :
  wave_write path params frames wd = (true, wd') →
  (path ∉ readonly wd) ∧ setparams_ok params = true
  ∧ header_packs params 0 = true
  ∧ 36 + Z.of_nat (length frames) < 2 ^ 32
  ∧ riff_ok (written params frames) = true
  ∧ wd' = put path (Pcm (written params frames)) wd
  ∧ wave_open_read path wd' = Some (written params frames).
Proof.
  unfold wave_write. case_decide as Hro; [done|].
  destruct (setparams_ok params) eqn:Hsp; [|done]. cbn [negb].
  destruct (header_packs params _) eqn:Hpk; [|done]. cbn [negb].
  destruct (orb _ _) eqn:Hlen; [|done]. intros [= <-].
  apply header_packs_iff in Hpk as (Hf & Hd0 & Hd).
  assert (Hfit : 36 + Z.of_nat (length frames) < 2 ^ 32).
  { apply orb_true_iff in Hlen as [E|E]; [apply Z.eqb_eq in E|apply Z.ltb_lt in E]; lia. }
  assert (Hok : riff_ok (written params frames) = true).
  { unfold setparams_ok in Hsp. unfold header_packs in Hf. Z_bools_in Hsp. Z_bools_in Hf.
    unfold riff_ok, written. simpl. Z_bools; lia. }
  repeat split; try done. by apply wave_open_read_put.
Qed.

(** A write goes through when the path can be written, [setparams] takes
    the parameters, the fields fit the header, and so do the data length
    computed from the frame count of the parameters and the bytes given. *)
Lemma wave_write_ok (path : string) (params : wave_params) (frames : list byte)
    (wd : world) :
  path ∉ readonly wd →
  setparams_ok params = true →
  header_packs params 0 = true →
  0 ≤ p_nframes params →
  36 + p_nframes params * (p_nchannels params * p_sampwidth params) < 2 ^ 32 →
  36 + Z.of_nat (length frames) < 2 ^ 32 →
  wave_write path params frames wd = (true, put path (Pcm (written params frames)) wd).
Proof.
  intros Hro Hsp Hf Hn0 Hn Hlen. unfold wave_write.
  rewrite decide_False by done. rewrite Hsp. cbn [negb].
  set (nf := if p_nframes params =? 0 then _ else _).
  assert (Hnf : 0 ≤ nf * (p_nchannels params * p_sampwidth params)
                ∧ 36 + nf * (p_nchannels params * p_sampwidth params) < 2 ^ 32).
  { unfold setparams_ok in Hsp. Z_bools_in Hsp.
    assert (Hfs : 1 ≤ p_nchannels params * p_sampwidth params) by nia.
    unfold nf. destruct (Z.eqb_spec (p_nframes params) 0) as [E|E].
    - pose proof (Z.mul_div_le (Z.of_nat (length frames))
                    (p_nchannels params * p_sampwidth params) ltac:(lia)).
      pose proof (Z.div_pos (Z.of_nat (length frames))
                    (p_nchannels params * p_sampwidth params) ltac:(lia) ltac:(lia)).
      nia.
    - nia. }
  rewrite <- Z.mul_assoc.
  rewrite (proj2 (header_packs_iff params _)) by (split; [done | lia]).
  cbn [negb].
  replace (36 + Z.of_nat (length frames) <? 2 ^ 32) with true
    by (symmetry; apply Z.ltb_lt; lia).
  by rewrite orb_true_r.
Qed.

(** A whole file in a format the writer takes, written with frames that
    fit: the write goes through. *)
Lemma wave_write_frames_ok (path : string) (w : wav_file) (frames : list byte)
    (wd : world) :
  path ∉ readonly wd →
  riff_ok w = true → writable_format w = true →
  36 + getnframes w * framesize w < 2 ^ 32 →
  36 + Z.of_nat (length frames) < 2 ^ 32 →
  wave_write path (getparams w) frames wd
  = (true, put path (Pcm (written (getparams w) frames)) wd).
Proof.
  intros Hro Hok Hw Hn Hlen.
  destruct (writable_format_packs w Hok Hw) as [Hsp Hf].
  pose proof (getnframes_bounds w Hok) as (Hn0 & _).
  by apply wave_write_ok.
Qed.

(** A write, whatever becomes of it, leaves every other path and the
    access rights as they were. *)
Lemma wave_write_frame (path : string) (params : wave_params) (frames : list byte)
    (wd : world) :
  same_elsewhere path wd (wave_write path params frames wd).2.
Proof.
  assert (Hput : ∀ f, same_elsewhere path wd (put path f wd)).
  { intros f. split; [done|]. intros p Hp. simpl. by rewrite lookup_insert_ne. }
  unfold wave_write. case_decide; [by split|].
  destruct (negb (setparams_ok params)); [apply Hput|].
  destruct (negb (header_packs params _)); [apply Hput|].
  destruct (orb _ _); apply Hput.
Qed.

Lemma true_div_Some (a b : Z) :
  b ≠ 0 → true_div a b = Some (div (of_int a) (of_int b)).
Proof. intros H. unfold true_div. by rewrite (proj2 (Z.eqb_neq b 0) H). Qed.

Lemma true_div_inv (a b : Z) (d : float) :
  true_div a b = Some d → b ≠ 0 ∧ d = div (of_int a) (of_int b).
Proof.
  unfold true_div. destruct (Z.eqb_spec b 0); [done|]. by intros [= <-].
Qed.

(** The copy of a file that holds its frames: the same asset, in a file
    that holds its frames. *)
Lemma copy_of_facts (w : wav_file) :
  riff_ok w = true → holds_its_frames w = true →
  Z.of_nat (length (data (copy_of w))) = getnframes w * framesize w
  ∧ getnframes (copy_of w) = getnframes w
  ∧ readframes (copy_of w) (getnframes w) = readframes w (getnframes w)
  ∧ holds_its_frames (copy_of w) = true
  ∧ asset_of (copy_of w) = asset_of w.
Proof.
  intros Hok Hw. pose proof (riff_ok_bounds w Hok) as (Hn & Hs & Hr & Hl).
  pose proof (getnframes_bounds w Hok) as (Hn0 & Hn1 & Hn2).
  pose proof (length_readframes w Hok Hw) as Hlen.
  destruct (written_whole (getparams w) (getnframes w) (readframes w (getnframes w)))
    as (Hg & Hrf & Hh); [simpl; lia | simpl; lia | lia | exact Hlen |].
  fold (copy_of w) in Hg, Hrf, Hh.
  split; [exact Hlen|]. split; [exact Hg|]. split; [exact Hrf|]. split; [exact Hh|].
  unfold asset_of. rewrite Hg, Hrf. done.
Qed.

(** ** pad_short_sample *)

Lemma pad_short_sample_read (inp out : string) (t : float) (wd : world) (w : wav_file) :
  wave_open_read inp wd = Some w →
  pad_short_sample inp out t wd =
    match true_div (getnframes w) (framerate w) with
    | None => (false, wd)
    | Some current_duration =>
        if geb current_duration t then
          if negb (String.eqb inp out) then
            wave_write out (getparams w) (data (copy_of w)) wd
          else (true, wd)
        else
          match to_int (mul t (of_int (framerate w))) with
          | None => (false, wd)
          | Some target_frames =>
              wave_write out (getparams w) (data (padded_of w target_frames)) wd
          end
    end.
Proof. intros H. unfold pad_short_sample. by rewrite H. Qed.

Lemma pad_short_sample_unreadable (inp out : string) (t : float) (wd : world) :
  wave_open_read inp wd = None → pad_short_sample inp out t wd = (false, wd).
Proof. intros H. unfold pad_short_sample. by rewrite H. Qed.

(** The padded file of a file that holds its frames. *)
Lemma padded_of_facts (w : wav_file) (tf : Z) :
  riff_ok w = true → holds_its_frames w = true →
  Z.of_nat (length (data (padded_of w tf)))
    = Z.max (getnframes w) tf * framesize w
  ∧ getnframes (padded_of w tf) = Z.max (getnframes w) tf
  ∧ readframes (padded_of w tf) (getnframes (padded_of w tf)) = data (padded_of w tf)
  ∧ holds_its_frames (padded_of w tf) = true.
Proof.
  intros Hok Hw. pose proof (riff_ok_bounds w Hok) as (Hn & Hs & Hr & Hl).
  pose proof (getnframes_bounds w Hok) as (Hn0 & Hn1 & Hn2).
  pose proof (length_readframes w Hok Hw) as Hlen.
  assert (Hlen' : Z.of_nat (length (data (padded_of w tf)))
                  = Z.max (getnframes w) tf * framesize w).
  { unfold padded_of, written. cbn [data]. rewrite length_app, length_replicate.
    unfold framesize in *.
    set (k := (tf - getnframes w) * nchannels w * sampwidth w).
    assert (Hk : k = (tf - getnframes w) * (nchannels w * sampwidth w))
      by (unfold k; ring).
    assert (Hfs : 1 ≤ nchannels w * sampwidth w) by nia.
    destruct (Z.max_spec (getnframes w) tf) as [[Hlt ->]|[Hge ->]].
    - assert (0 ≤ k) by nia. lia.
    - assert (k ≤ 0) by nia. lia. }
  destruct (written_whole (getparams w) (Z.max (getnframes w) tf)
              (data (padded_of w tf))) as (Hg & Hrf & Hh);
    [simpl; lia | simpl; lia | lia | exact Hlen' |].
  change (written (getparams w) (data (padded_of w tf))) with (padded_of w tf)
    in Hg, Hrf, Hh.
  split; [done|]. split; [done|]. split; [by rewrite Hg | done].
Qed.



(** A call that returns True leaves a readable output in the format of
    the input. *)
Lemma pad_short_sample_format (inp out : string) (t : float) (wd wd1 : world) :
  pad_short_sample inp out t wd = (true, wd1) →
  ∃ w w1, wave_open_read inp wd = Some w
          ∧ wave_open_read out wd1 = Some w1
          ∧ framerate w ≠ 0
          ∧ nchannels w1 = nchannels w ∧ sampwidth w1 = sampwidth w
          ∧ framerate w1 = framerate w.
Proof.
  destruct (wave_open_read inp wd) as [w|] eqn:Hr;
    [|by rewrite pad_short_sample_unreadable].
  rewrite (pad_short_sample_read inp out t wd w Hr).
  destruct (true_div _ _) as [d|] eqn:Hd; [|done].
  apply true_div_inv in Hd as [Hfr ->].
  destruct (geb _ t).
  - destruct (String.eqb_spec inp out) as [->|Hne]; cbn [negb].
    + intros [= <-]. by exists w, w.
    + intros Hw. apply wave_write_true in Hw as (_ & _ & _ & _ & _ & _ & Hread).
      by exists w, (copy_of w).
  - destruct (to_int _) as [tf|]; [|done].
    intros Hw. apply wave_write_true in Hw as (_ & _ & _ & _ & _ & _ & Hread).
    by exists w, (padded_of w tf).
Qed.


Lemma SFltb_SFleb (x y : spec_float) : SFltb x y = true → SFleb y x = false.
Proof.
  unfold SFltb, SFleb.
  destruct x as [sx|sx| |sx mx ex], y as [sy|sy| |sy my ey]; simpl; try done;
    try (by destruct sx); try (by destruct sy); try (by destruct sx, sy).
  destruct sx, sy; try done.
  - rewrite (Z.compare_antisym ex ey).
    destruct (ex ?= ey) eqn:E; simpl; try done.
    change (PosDef.Pos.compare_cont Eq mx my) with (Pos.compare mx my).
    change (PosDef.Pos.compare_cont Eq my mx) with (Pos.compare my mx).
    rewrite (Pos.compare_antisym mx my).
    by destruct (Pos.compare mx my).
  - rewrite (Z.compare_antisym ex ey).
    destruct (ex ?= ey) eqn:E; simpl; try done.
    change (PosDef.Pos.compare_cont Eq mx my) with (Pos.compare mx my).
    change (PosDef.Pos.compare_cont Eq my mx) with (Pos.compare my mx).
    rewrite (Pos.compare_antisym mx my).
    by destruct (Pos.compare mx my).
Qed.

Lemma ltb_not_geb (x y : float) : ltb x y = true → geb x y = false.
Proof. apply SFltb_SFleb. Qed.

(** C2, amended.  On a readable file that holds the frames its header
    counts, in a format the writer takes, with a non-zero frame rate and a
    writable output path: when the duration is at least the target and the
    frames fit a header, the output is the input asset; when it is below
    the target and the frame count [int(t * framerate)] exists and fits,
    the output has that frame count, which is the floor of the product and
    not below the input's, the input's frames followed by zero bytes only,
    and the input's format. *)
Theorem pad_short_sample_pads (inp out : string) (t : float) (wd : world)
    (w : wav_file) (d : float) :
  wave_open_read inp wd = Some w →
  holds_its_frames w = true →
  writable_format w = true →
  true_div (getnframes w) (framerate w) = Some d →
  out ∉ readonly wd →
  is_float t = true →
  (geb d t = true →
   36 + getnframes w * framesize w < 2 ^ 32 →
   ∃ wd', pad_short_sample inp out t wd = (true, wd')
          ∧ read_asset out wd' = Some (asset_of w))
  ∧ (ltb d t = true →
     ∀ tf, to_int (mul t (of_int (framerate w))) = Some tf →
           36 + tf * framesize w < 2 ^ 32 →
     ∃ wd' a', pad_short_sample inp out t wd = (true, wd')
       ∧ read_asset out wd' = Some a'
       ∧ frame_count a' = tf
       ∧ floor (mul t (of_int (framerate w))) = Some tf
       ∧ frame_count (asset_of w) ≤ frame_count a'
       ∧ raw_frame_bytes a'
         = raw_frame_bytes (asset_of w)
           ++ replicate (Z.to_nat ((tf - frame_count (asset_of w)) * framesize w)) x00
       ∧ frame_rate_hz a' = frame_rate_hz (asset_of w)
       ∧ sample_width_bytes a' = sample_width_bytes (asset_of w)
       ∧ channel_count a' = channel_count (asset_of w)).
Proof.
  intros Hr Hwhole Hfmt Hd Hro Hv.
  pose proof (wave_open_read_ok _ _ _ Hr) as [Hfile Hok].
  pose proof (riff_ok_bounds w Hok) as (Hn & Hs & Hfr & Hl).
  pose proof (getnframes_bounds w Hok) as (Hn0 & Hn1 & Hn2).
  pose proof (framesize_pos w Hok) as Hfs.
  rewrite (pad_short_sample_read inp out t wd w Hr), Hd.
  apply true_div_inv in Hd as [Hfr0 ->].
  split.
  - intros -> Hfit. destruct (String.eqb_spec inp out) as [<-|Hne]; cbn [negb].
    + exists wd. split; [done|]. unfold read_asset. by rewrite Hr.
    + destruct (copy_of_facts w Hok Hwhole) as (Hlen & _ & _ & _ & Ha).
      rewrite (wave_write_frames_ok out w _ wd Hro Hok Hfmt Hfit) by lia.
      eexists. split; [done|].
      unfold read_asset. rewrite wave_open_read_put.
      * simpl. exact (f_equal Some Ha).
      * change (written _ _) with (copy_of w).
        unfold riff_ok, copy_of, written. simpl. rewrite length_readframes by done.
        Z_bools; lia.
  - intros Hlt tf Htf Hfit. rewrite (ltb_not_geb _ _ Hlt), Htf.
    destruct (target_frames_not_below (getnframes w) (framerate w) t tf)
      as [Hle Hfloor]; [lia | lia | done | by apply ltb_not_geb | done |].
    destruct (padded_of_facts w tf Hok Hwhole) as (Hplen & Hpg & Hprf & _).
    rewrite Z.max_r in Hplen, Hpg by done.
    rewrite (wave_write_frames_ok out w _ wd Hro Hok Hfmt) by nia.
    change (written (getparams w) (data (padded_of w tf))) with (padded_of w tf).
    eexists. exists (asset_of (padded_of w tf)). split; [done|].
    unfold read_asset. rewrite wave_open_read_put.
    2:{ unfold riff_ok, padded_of, written. cbn [nchannels sampwidth framerate chunksize].
        change (readframes w (getnframes w) ++ _) with (data (padded_of w tf)).
        rewrite Hplen. cbn [getparams p_nchannels p_sampwidth p_framerate].
        Z_bools; nia. }
    split; [done|].
    change (frame_count (asset_of (padded_of w tf))) with (getnframes (padded_of w tf)).
    change (raw_frame_bytes (asset_of (padded_of w tf)))
      with (readframes (padded_of w tf) (getnframes (padded_of w tf))).
    change (frame_count (asset_of w)) with (getnframes w).
    rewrite Hprf, Hpg.
    split; [done|]. split; [done|]. split; [done|].
    split; [|done].
    unfold padded_of, written, framesize. cbn [data asset_of raw_frame_bytes].
    by rewrite Z.mul_assoc.
Qed.

(** ** preprocess_directory *)

Lemma get_wav_info_Some (path : string) (wd : world) (i : wav_info) :
  get_wav_info path wd = Some i →
  ∃ w, wave_open_read path wd = Some w ∧ framerate w ≠ 0
       ∧ channels i = nchannels w ∧ sample_width i = sampwidth w
       ∧ info_framerate i = framerate w ∧ frames i = getnframes w
       ∧ duration i = div (of_int (getnframes w)) (of_int (framerate w)).
Proof.
  unfold get_wav_info. destruct (wave_open_read path wd) as [w|]; [|done].
  destruct (true_div _ _) as [d|] eqn:Hd; [|done]. intros [= <-].
  apply true_div_inv in Hd as [Hfr ->]. by exists w.
Qed.

Lemma get_wav_info_read (path : string) (wd : world) (w : wav_file) :
  wave_open_read path wd = Some w → framerate w ≠ 0 →
  ∃ i, get_wav_info path wd = Some i
       ∧ info_framerate i = framerate w ∧ sample_width i = sampwidth w.
Proof.
  intros Hr Hfr. unfold get_wav_info. rewrite Hr, true_div_Some by done.
  by eexists.
Qed.

(** [convert_format] returns True only for a file in the format. *)
Lemma convert_format_true (inp out : string) (wd wd1 : world) :
  convert_format inp out wd = (true, wd1) →
  ∃ w, wave_open_read inp wd = Some w ∧ framerate w = 44100 ∧ sampwidth w = 2.
Proof.
  unfold convert_format. destruct (wave_open_read inp wd) as [w|]; [|done].
  cbn [getparams p_framerate p_sampwidth].
  destruct (Z.eqb_spec (framerate w) 44100) as [Hf|Hf];
    destruct (Z.eqb_spec (sampwidth w) 2) as [Hs|Hs]; cbn [negb orb];
    try (by destruct (negb (String.eqb inp out))).
  intros _. by exists w.
Qed.

(** The loop body counts along the branch [classify] names. *)
Lemma process_file_follows_classify (inp outp : string) (copy_out : bool)
    (name : string) (c : counters) (wd : world) :
  let c' := (process_file inp outp copy_out name (c, wd)).1 in
  match classify (get_wav_info (join inp name) wd) with
  | Unreadable => c' = count_error c
  | TooShort =>
      c' = count_error c ∨ c' = count_padded c
      ∨ c' = count_format_issue (count_padded c)
  | FormatMismatch => c' = count_format_issue c
  | Compliant => c' = count_compatible c
  end.
Proof.
  unfold process_file, classify.
  destruct (get_wav_info (join inp name) wd) as [i|] eqn:Hi; [|done].
  destruct (is_too_short (Some i)).
  - destruct (pad_short_sample _ _ _ _) as [[] wd1]; [|by left].
    destruct (get_wav_info _ wd1) as [new_info|]; [|by right; left].
    destruct (format_differs new_info); [by right; right | by right; left].
  - destruct (format_differs i) eqn:Hf; [|done].
    destruct (convert_format _ _ _) as [[] wd1] eqn:Hc; [|done].
    exfalso. apply convert_format_true in Hc as (w & Hr & Hfr & Hsw).
    apply get_wav_info_Some in Hi as (w' & Hr' & _ & _ & Hsw' & Hfr' & _).
    assert (w' = w) as -> by congruence.
    unfold format_differs in Hf. rewrite Hsw', Hfr', Hfr, Hsw in Hf. done.
Qed.

(** C10.  Every file moves the sum of the four counters up by one or by
    two; a readable file that is too short, is padded, and still differs in
    frame rate or sample width moves both the padded and the format-issue
    count, so after the example run the sum is 2 for a single file. *)
Theorem counters_are_not_a_partition :
  (∀ inp outp copy_out name c wd,
     let c' := (process_file inp outp copy_out name (c, wd)).1 in
     (S (total c) ≤ total c' ≤ total c + 2)%nat)
  ∧ (∀ inp outp copy_out name c wd i wd1,
       get_wav_info (join inp name) wd = Some i →
       is_too_short (Some i) = true →
       format_differs i = true →
       pad_short_sample (join inp name) (join outp name) MIN_DURATION wd
         = (true, wd1) →
       let c' := (process_file inp outp copy_out name (c, wd)).1 in
       c' = count_format_issue (count_padded c)
       ∧ total c' = (total c + 2)%nat)
  ∧ (let run := preprocess_directory "in" (Some "out"%string) short_16k_names
                  short_16k_world in
     padded_count run.1 = 1%nat ∧ format_issues run.1 = 1%nat
     ∧ total run.1 = 2%nat ∧ length short_16k_names = 1%nat).
Proof.
  split; [|split].
  - intros inp outp copy_out name c wd c'.
    pose proof (process_file_follows_classify inp outp copy_out name c wd) as H.
    cbv zeta in H. fold c' in H.
    destruct (classify _); cbv iota in H; destruct_or?; rewrite H;
      unfold total; simpl; lia.
  - intros inp outp copy_out name c wd i wd1 Hi Hshort Hdiff Hpad c'.
    assert (Hc : c' = count_format_issue (count_padded c)).
    { unfold c', process_file. rewrite Hi, Hshort, Hpad.
      destruct (pad_short_sample_format _ _ _ _ _ Hpad)
        as (w & w1 & Hr & Hr1 & Hfr0 & _ & Hs & Hf).
      destruct (get_wav_info_read _ _ _ Hr1 ltac:(congruence)) as (ni & -> & Hnf & Hns).
      apply get_wav_info_Some in Hi as (w' & Hr' & _ & _ & Hsw & Hfr & _).
      assert (w' = w) as -> by congruence.
      replace (format_differs ni) with true; [done|].
      rewrite <- Hdiff. unfold format_differs. congruence. }
    split; [done|]. rewrite Hc. unfold total. simpl. lia.
  - vm_compute. done.
Qed.

(** C3, on the code.  A long enough three-channel file at 44100 Hz and
    16 bits takes the last branch and is counted as compatible, although
    [is_sp303_compatible] rejects it and the worded precedence calls it a
    format mismatch. *)
Theorem three_channel_file_counts_as_compatible :
  let info := get_wav_info "in/wide.wav" three_channel_world in
  (channels <$> info) = Some 3
  ∧ classify info = Compliant
  ∧ is_sp303_compatible info = false
  ∧ spec_verdict info = FormatMismatch
  ∧ (process_file "in" "in" false "wide.wav" (no_counts, three_channel_world)).1
    = count_compatible no_counts.
Proof. vm_compute. done. Qed.

(** Where the channel count is 1 or 2 the two precedences agree. *)
Lemma classify_matches_spec (info : option wav_info) :
  match info with
  | Some i => channels i = 1 ∨ channels i = 2
  | None => True
  end →
  classify info = spec_verdict info.
Proof.
  destruct info as [i|]; [|done]. intros Hch.
  unfold classify, spec_verdict, is_too_short, format_differs.
  destruct (ltb _ _); [done|].
  replace ((channels i =? 1) || (channels i =? 2)) with true; [by rewrite orb_false_r|].
  symmetry. apply orb_true_iff. destruct Hch as [->| ->]; auto.
Qed.

(** With the default target the frame count always exists: the product
    with a frame rate below [2^53] stays far from the largest exponent. *)
Lemma target_frames_exist (r : Z) :
  1 ≤ r < 2 ^ 53 → is_Some (to_int (mul MIN_DURATION (of_int r))).
Proof.
  intros Hr. destruct r as [|rp|rp]; [lia| |lia].
  destruct (of_int_pos rp) as (R & er & -> & HR & Her & _); [lia|].
  destruct (SFmul_normal 7926335344172073 R (-56) er) as
    (md & ed & Mp & k & Hmul & Hk & _ & _ & Hshape);
    [vm_compute; split; [discriminate | reflexivity] | done | lia | done |].
  unfold mul, MIN_DURATION, prec, emax. rewrite Hmul.
  replace (ed <=? 971) with true; [by eexists|].
  symmetry. apply Z.leb_le. destruct_or?; destruct_and?; lia.
Qed.

(** The literal [0.11] and the two frame counts the specification names. *)
Lemma MIN_DURATION_nearest : MIN_DURATION = div (of_int 11) (of_int 100).
Proof. vm_compute. reflexivity. Qed.

Lemma target_frames_at_44100 : to_int (mul MIN_DURATION (of_int 44100)) = Some 4851.
Proof. vm_compute. reflexivity. Qed.

Lemma target_frames_at_16000 : to_int (mul MIN_DURATION (of_int 16000)) = Some 1760.
Proof. vm_compute. reflexivity. Qed.

(** ** Durations and frame counts in whole numbers *)

(** The quotient of two 53-digit mantissas, bounded from both sides by the
    quotient cut to 53 digits. *)
Lemma SFdiv_normal_between (N R : positive) (en er : Z) :
  2 ^ 52 <= Z.pos N < 2 ^ 53 -> 2 ^ 52 <= Z.pos R < 2 ^ 53 ->
  -52 <= en <= 0 -> -52 <= er <= 0 ->
  exists md ed Mq k,
    SFdiv 53 1024 (S754_finite false N en) (S754_finite false R er)
      = S754_finite false md ed
    /\ 0 <= k <= 1 /\ 2 ^ 52 <= Mq < 2 ^ 53
    /\ Mq * 2 ^ k * Z.pos R <= Z.pos N * 2 ^ 53 < (Mq + 1) * 2 ^ k * Z.pos R
    /\ ((Z.pos md = Mq /\ ed = en - er - 53 + k)
        \/ (Z.pos md = Mq + 1 /\ Mq + 1 < 2 ^ 53 /\ ed = en - er - 53 + k)
        \/ (Mq + 1 = 2 ^ 53 /\ Z.pos md = 2 ^ 52 /\ ed = en - er - 53 + k + 1)).
Proof.
  intros HN HR Hen Her. unfold SFdiv. rewrite SFdiv_core_normal by assumption.
  cbn [xorb].
  set (q := Z.pos N * 2 ^ 53 / Z.pos R).
  pose proof (Z.div_mod (Z.pos N * 2 ^ 53) (Z.pos R) ltac:(lia)) as Hdm.
  pose proof (Z.mod_pos_bound (Z.pos N * 2 ^ 53) (Z.pos R) ltac:(lia)) as Hrem.
  fold q in Hdm.
  assert (Hq : 2 ^ 52 <= q < 2 ^ 54).
  { unfold q. split.
    - apply Z.div_le_lower_bound; [lia|]. nia.
    - apply Z.div_lt_upper_bound; [lia|].
      change (2 ^ 54) with (2 * 2 ^ 53). nia. }
  destruct q as [|qp|qp] eqn:Eq; [lia| |lia].
  pose proof (digits2_pos_bounds qp) as [Dlo Dhi].
  set (D := Z.pos (digits2_pos qp)) in *.
  assert (HD : 53 <= D <= 54).
  { split.
    - destruct (Z_le_gt_dec 53 D) as [|Hgt]; [assumption|].
      assert (2 ^ D <= 2 ^ 52) by (apply Z.pow_le_mono_r; lia). lia.
    - destruct (Z_le_gt_dec D 54) as [|Hgt]; [assumption|].
      assert (2 ^ 54 <= 2 ^ (D - 1)) by (apply Z.pow_le_mono_r; lia). lia. }
  destruct (binary_round_aux_normal qp (en - er - 53)
              (new_location (Z.pos R) ((Z.pos N * 2 ^ 53) mod Z.pos R)))
    as (md & ed & -> & Hmd & Hshape & _); [lia | fold D; lia |].
  fold D in Hshape.
  set (k := D - 53) in *. set (Mq := Z.pos qp / 2 ^ k) in *.
  assert (Hpk : 0 < 2 ^ k) by (apply Z.pow_pos_nonneg; unfold k; lia).
  pose proof (Z.div_mod (Z.pos qp) (2 ^ k) ltac:(lia)) as Hqm.
  pose proof (Z.mod_pos_bound (Z.pos qp) (2 ^ k) Hpk) as Hqr.
  fold Mq in Hqm.
  assert (HMq : 2 ^ 52 <= Mq < 2 ^ 53).
  { unfold Mq. split.
    - apply Z.div_le_lower_bound; [assumption|].
      rewrite <- Z.pow_add_r by (unfold k; lia).
      replace (k + 52) with (D - 1) by (unfold k; lia). assumption.
    - apply Z.div_lt_upper_bound; [assumption|].
      rewrite <- Z.pow_add_r by (unfold k; lia).
      replace (k + 53) with D by (unfold k; lia). assumption. }
  exists md, ed, Mq, k.
  replace (ed <=? 971) with true by (symmetry; apply Z.leb_le; unfold k in *; lia).
  split; [reflexivity|]. split; [unfold k; lia|].
  split; [assumption|]. split; [|unfold k in *; lia].
  assert (Z.pos qp + 1 <= (Mq + 1) * 2 ^ k) by lia.
  assert (Mq * 2 ^ k <= Z.pos qp) by lia.
  split; nia.
Qed.

Lemma SFltb_finite (m1 m2 : positive) (e1 e2 : Z) :
  e1 < e2 \/ (e1 = e2 /\ Z.pos m1 < Z.pos m2) ->
  SFltb (S754_finite false m1 e1) (S754_finite false m2 e2) = true.
Proof.
  intros H. unfold SFltb, SFcompare.
  destruct (Z.compare_spec e1 e2) as [->|Hlt|Hgt]; [|reflexivity|lia].
  change (Pos.compare_cont Eq m1 m2) with (Pos.compare m1 m2).
  destruct (Pos.compare_spec m1 m2); [lia|reflexivity|lia].
Qed.

Lemma SFleb_finite (m1 m2 : positive) (e1 e2 : Z) :
  e1 < e2 \/ (e1 = e2 /\ Z.pos m1 <= Z.pos m2) ->
  SFleb (S754_finite false m1 e1) (S754_finite false m2 e2) = true.
Proof.
  intros H. unfold SFleb, SFcompare.
  destruct (Z.compare_spec e1 e2) as [->|Hlt|Hgt]; [|reflexivity|lia].
  change (Pos.compare_cont Eq m1 m2) with (Pos.compare m1 m2).
  destruct (Pos.compare_spec m1 m2); [reflexivity|reflexivity|lia].
Qed.

Lemma pow2_split (x y : Z) : 0 <= y <= x -> 2 ^ x = 2 ^ y * 2 ^ (x - y).
Proof. intros H. rewrite <- Z.pow_add_r by lia. f_equal. lia. Qed.

Lemma pow2_ge_1 (x : Z) : 0 <= x -> 1 <= 2 ^ x.
Proof. intros H. pose proof (Z.pow_pos_nonneg 2 x). lia. Qed.

(** An integer below [2^32] converts to a mantissa shifted by at least 21
    places. *)
Lemma of_int_frames (p : positive) :
  Z.pos p < 2 ^ 32 ->
  exists mz s,
    of_int (Z.pos p) = S754_finite false mz (- s)
    /\ 2 ^ 52 <= Z.pos mz < 2 ^ 53 /\ 21 <= s <= 52
    /\ Z.pos mz = Z.pos p * 2 ^ s.
Proof.
  intros Hp. destruct (of_int_pos p) as (mz & ez & Hof & Hmz & Hez & Hv); [lia|].
  exists mz, (- ez). replace (- - ez) with ez by lia.
  split; [assumption|]. split; [assumption|]. split; [|assumption].
  split; [|lia].
  destruct (Z_le_gt_dec 21 (- ez)) as [|Hs]; [assumption|].
  assert (2 ^ (- ez) <= 2 ^ 20) by (apply Z.pow_le_mono_r; lia).
  change (2 ^ 52) with (2 ^ 32 * 2 ^ 20) in Hmz. nia.
Qed.

Section Duration.

Context (np rp N R md : positive) (s1 s2 ed Mq k : Z).
Hypothesis Hnp : Z.pos np < 2 ^ 32.
Hypothesis Hrp : Z.pos rp < 2 ^ 32.
Hypothesis HN : Z.pos N = Z.pos np * 2 ^ s1.
Hypothesis HR : Z.pos R = Z.pos rp * 2 ^ s2.
Hypothesis Hs1 : 21 <= s1 <= 52.
Hypothesis Hs2 : 21 <= s2 <= 52.
Hypothesis Hk : 0 <= k <= 1.
Hypothesis HMq : 2 ^ 52 <= Mq < 2 ^ 53.
Hypothesis Hbetween :
  Mq * 2 ^ k * Z.pos R <= Z.pos N * 2 ^ 53 < (Mq + 1) * 2 ^ k * Z.pos R.
Hypothesis Hshape :
  (Z.pos md = Mq /\ ed = - s1 - - s2 - 53 + k)
  \/ (Z.pos md = Mq + 1 /\ Mq + 1 < 2 ^ 53 /\ ed = - s1 - - s2 - 53 + k)
  \/ (Mq + 1 = 2 ^ 53 /\ Z.pos md = 2 ^ 52 /\ ed = - s1 - - s2 - 53 + k + 1).

Let e0 := s2 + k - s1 - 53.

(** The bounds in terms of the integers themselves, by the place of the
    result. *)
Lemma quotient_high : -55 <= e0 -> Mq * Z.pos rp <= Z.pos np * 2 ^ 55.
Proof.
  intros He. destruct Hbetween as [HL _]. rewrite HN, HR in HL.
  set (P := 2 ^ (s1 - 2)). assert (HP : 0 < P) by (apply Z.pow_pos_nonneg; lia).
  assert (E1 : 2 ^ s1 * 2 ^ 53 = P * 2 ^ 55).
  { unfold P. rewrite <- !Z.pow_add_r by lia. f_equal. lia. }
  assert (E2 : 2 ^ k * 2 ^ s2 = P * 2 ^ (s2 + k - s1 + 2)).
  { unfold P. rewrite <- !Z.pow_add_r by (unfold e0 in He; lia). f_equal. lia. }
  assert (Hc : 1 <= 2 ^ (s2 + k - s1 + 2)) by (apply pow2_ge_1; unfold e0 in He; lia).
  assert (HL' : Mq * Z.pos rp * (2 ^ k * 2 ^ s2) <= Z.pos np * (2 ^ s1 * 2 ^ 53)) by lia.
  rewrite E1, E2 in HL'.
  set (c := 2 ^ (s2 + k - s1 + 2)) in *.
  assert (H2 : Mq * Z.pos rp * c <= Z.pos np * 2 ^ 55) by nia.
  nia.
Qed.

Lemma quotient_at : e0 = -56 ->
  Mq * Z.pos rp <= Z.pos np * 2 ^ 56 < (Mq + 1) * Z.pos rp.
Proof.
  intros He. rewrite HN, HR in Hbetween.
  set (P := 2 ^ (s1 - 3)). assert (HP : 0 < P) by (apply Z.pow_pos_nonneg; lia).
  assert (E1 : 2 ^ s1 * 2 ^ 53 = P * 2 ^ 56).
  { unfold P. rewrite <- !Z.pow_add_r by lia. f_equal. lia. }
  assert (E2 : 2 ^ k * 2 ^ s2 = P).
  { unfold P. rewrite <- !Z.pow_add_r by lia. f_equal. unfold e0 in He. lia. }
  destruct Hbetween as [HL HU].
  assert (HL' : Mq * Z.pos rp * (2 ^ k * 2 ^ s2) <= Z.pos np * (2 ^ s1 * 2 ^ 53)) by lia.
  assert (HU' : Z.pos np * (2 ^ s1 * 2 ^ 53) < (Mq + 1) * Z.pos rp * (2 ^ k * 2 ^ s2)) by lia.
  rewrite E1, E2 in HL', HU'.
  split; nia.
Qed.

Lemma quotient_low : e0 <= -57 -> Z.pos np * 2 ^ 57 < (Mq + 1) * Z.pos rp.
Proof.
  intros He. destruct Hbetween as [_ HU]. rewrite HN, HR in HU.
  set (P := 2 ^ (s2 + k)). assert (HP : 0 < P) by (apply Z.pow_pos_nonneg; lia).
  assert (E1 : 2 ^ s1 * 2 ^ 53 = P * 2 ^ (s1 + 53 - s2 - k)).
  { unfold P. rewrite <- !Z.pow_add_r by (unfold e0 in He; lia). f_equal. lia. }
  assert (E2 : 2 ^ k * 2 ^ s2 = P).
  { unfold P. rewrite <- !Z.pow_add_r by lia. f_equal. lia. }
  assert (Hc : 2 ^ 57 <= 2 ^ (s1 + 53 - s2 - k))
    by (apply Z.pow_le_mono_r; unfold e0 in He; lia).
  assert (HU' : Z.pos np * (2 ^ s1 * 2 ^ 53) < (Mq + 1) * Z.pos rp * (2 ^ k * 2 ^ s2)) by lia.
  rewrite E1, E2 in HU'.
  set (c := 2 ^ (s1 + 53 - s2 - k)) in *.
  assert (H2 : Z.pos np * c < (Mq + 1) * Z.pos rp) by nia.
  nia.
Qed.

Lemma short_is_below :
  100 * Z.pos np < 11 * Z.pos rp ->
  SFltb (S754_finite false md ed) MIN_DURATION = true.
Proof.
  intros Hshort. unfold MIN_DURATION. apply SFltb_finite.
  destruct (Z_le_gt_dec (-55) e0) as [Hhi|Hnhi].
  { pose proof (quotient_high Hhi). exfalso.
    assert (2 ^ 52 * Z.pos rp <= Mq * Z.pos rp) by nia.
    change (2 ^ 55) with (2 ^ 52 * 8) in *. change (2 ^ 52) with 4503599627370496 in *. nia. }
  destruct (Z.eq_dec e0 (-56)) as [Hat|Hnat].
  - pose proof (quotient_at Hat) as [HL _].
    assert (Hlt : Mq + 1 < 7926335344172073).
    { destruct (Z_lt_le_dec (Mq + 1) 7926335344172073) as [|Hge]; [assumption|exfalso].
      assert (7926335344172072 * Z.pos rp <= Mq * Z.pos rp) by nia.
      change (2 ^ 56) with 72057594037927936 in HL.
      change (2 ^ 32) with 4294967296 in *. lia. }
    destruct Hshape as [[Hm He]|[(Hm & _ & He)|(Hc & Hm & He)]].
    + right. split; [unfold e0 in Hat; lia|]. lia.
    + right. split; [unfold e0 in Hat; lia|]. lia.
    + exfalso. change (2 ^ 53) with 9007199254740992 in Hc. lia.
  - assert (He0 : e0 <= -57) by lia.
    destruct Hshape as [[Hm He]|[(Hm & _ & He)|(Hc & Hm & He)]].
    + left. unfold e0 in He0. lia.
    + left. unfold e0 in He0. lia.
    + destruct (Z.eq_dec e0 (-57)) as [E|E].
      * right. split; [unfold e0 in E; lia|]. rewrite Hm. reflexivity.
      * left. unfold e0 in He0, E. lia.
Qed.

Lemma long_is_not_below :
  11 * Z.pos rp < 100 * Z.pos np ->
  SFleb MIN_DURATION (S754_finite false md ed) = true.
Proof.
  intros Hlong. unfold MIN_DURATION. apply SFleb_finite.
  destruct (Z_le_gt_dec (-55) e0) as [Hhi|Hnhi].
  { left. unfold e0 in Hhi.
    destruct Hshape as [[Hm He]|[(Hm & _ & He)|(Hc & Hm & He)]]; lia. }
  destruct (Z.eq_dec e0 (-56)) as [Hat|Hnat].
  - pose proof (quotient_at Hat) as [_ HU].
    assert (Hge : 7926335344172073 <= Mq).
    { destruct (Z_le_gt_dec 7926335344172073 Mq) as [|Hlt]; [assumption|exfalso].
      assert ((Mq + 1) * Z.pos rp <= 7926335344172073 * Z.pos rp) by nia.
      change (2 ^ 56) with 72057594037927936 in HU.
      change (2 ^ 32) with 4294967296 in *. lia. }
    unfold e0 in Hat.
    destruct Hshape as [[Hm He]|[(Hm & _ & He)|(Hc & Hm & He)]].
    + right. split; [lia|]. lia.
    + right. split; [lia|]. lia.
    + left. lia.
  - exfalso. assert (He0 : e0 <= -57) by lia.
    pose proof (quotient_low He0).
    assert ((Mq + 1) * Z.pos rp <= 2 ^ 53 * Z.pos rp) by nia.
    change (2 ^ 57) with (2 ^ 53 * 16) in *. change (2 ^ 53) with 9007199254740992 in *.
    nia.
Qed.

End Duration.

Lemma new_location_above_half (R rem : Z) :
  0 < R -> R < 2 * rem -> new_location R rem = loc_Inexact Gt.
Proof.
  intros HR Hrem. unfold new_location.
  destruct rem as [|p|p]; [lia| |lia].
  destruct (IntDef.Z.even R).
  - change (loc_Inexact (2 * Z.pos p ?= R) = loc_Inexact Gt).
    f_equal. apply Z.compare_gt_iff. lia.
  - change (loc_Inexact match 2 * Z.pos p + 1 ?= R with Gt => Gt | _ => Lt end
            = loc_Inexact Gt).
    replace (2 * Z.pos p + 1 ?= R) with Gt; [reflexivity|].
    symmetry. apply Z.compare_gt_iff. lia.
Qed.

(** A quotient of exactly 11/100 rounds to [MIN_DURATION], whatever the two
    integers. *)
Lemma threshold_quotient (N R : positive) (s1 s2 : Z) :
  2 ^ 52 <= Z.pos N < 2 ^ 53 -> 2 ^ 52 <= Z.pos R < 2 ^ 53 ->
  0 <= s1 <= 52 -> 0 <= s2 <= 52 ->
  100 * Z.pos N * 2 ^ s2 = 11 * Z.pos R * 2 ^ s1 ->
  SFdiv 53 1024 (S754_finite false N (- s1)) (S754_finite false R (- s2)) = MIN_DURATION.
Proof.
  intros HN HR Hs1 Hs2 Heq.
  assert (Hp2 : 0 < 2 ^ s2) by (apply Z.pow_pos_nonneg; lia).
  assert (Hlo : s2 + 3 <= s1).
  { destruct (Z_le_gt_dec (s2 + 3) s1) as [|Hgt]; [assumption|exfalso].
    assert (2 ^ s1 <= 2 ^ (s2 + 2)) by (apply Z.pow_le_mono_r; lia).
    rewrite Z.pow_add_r in H by lia. change (2 ^ 2) with 4 in H.
    change (2 ^ 52) with 4503599627370496 in *.
    change (2 ^ 53) with 9007199254740992 in *. nia. }
  assert (Hhi : s1 <= s2 + 4).
  { destruct (Z_le_gt_dec s1 (s2 + 4)) as [|Hgt]; [assumption|exfalso].
    assert (2 ^ (s2 + 5) <= 2 ^ s1) by (apply Z.pow_le_mono_r; lia).
    rewrite Z.pow_add_r in H by lia. change (2 ^ 5) with 32 in H.
    change (2 ^ 52) with 4503599627370496 in *.
    change (2 ^ 53) with 9007199254740992 in *. nia. }
  unfold SFdiv. rewrite SFdiv_core_normal by lia. cbn [xorb].
  destruct (Z.eq_dec s1 (s2 + 3)) as [E|E].
  - assert (H25 : 25 * Z.pos N = 22 * Z.pos R).
    { rewrite E, Z.pow_add_r in Heq by lia. change (2 ^ 3) with 8 in Heq. nia. }
    change (2 ^ 53) with 9007199254740992 in *.
    set (rem := Z.pos N * 9007199254740992 - Z.pos R * 7926335344172072).
    assert (Hrem : 25 * rem = 24 * Z.pos R) by (unfold rem; lia).
    assert (Hq : Z.pos N * 9007199254740992 / Z.pos R = 7926335344172072).
    { symmetry. apply (Z.div_unique _ _ _ rem); [lia | unfold rem; lia]. }
    assert (Hm : (Z.pos N * 9007199254740992) mod Z.pos R = rem).
    { symmetry. apply (Z.mod_unique _ _ 7926335344172072); [lia | unfold rem; lia]. }
    rewrite Hq, Hm, new_location_above_half by lia.
    replace (- s1 - - s2 - 53) with (-56) by lia.
    vm_compute. reflexivity.
  - assert (E4 : s1 = s2 + 4) by lia.
    assert (H25 : 25 * Z.pos N = 44 * Z.pos R).
    { rewrite E4, Z.pow_add_r in Heq by lia. change (2 ^ 4) with 16 in Heq. nia. }
    change (2 ^ 53) with 9007199254740992 in *.
    set (rem := Z.pos N * 9007199254740992 - Z.pos R * 15852670688344145).
    assert (Hrem : 25 * rem = 23 * Z.pos R) by (unfold rem; lia).
    assert (Hq : Z.pos N * 9007199254740992 / Z.pos R = 15852670688344145).
    { symmetry. apply (Z.div_unique _ _ _ rem); [lia | unfold rem; lia]. }
    assert (Hm : (Z.pos N * 9007199254740992) mod Z.pos R = rem).
    { symmetry. apply (Z.mod_unique _ _ 15852670688344145); [lia | unfold rem; lia]. }
    rewrite Hq, Hm, new_location_above_half by lia.
    replace (- s1 - - s2 - 53) with (-57) by lia.
    vm_compute. reflexivity.
Qed.

(** The comparison of a duration with [MIN_DURATION], in whole numbers. *)
Lemma duration_below (n r : Z) :
  0 <= n < 2 ^ 32 -> 1 <= r < 2 ^ 32 ->
  ltb (div (of_int n) (of_int r)) MIN_DURATION = (100 * n <? 11 * r)
  /\ geb (div (of_int n) (of_int r)) MIN_DURATION = (11 * r <=? 100 * n).
Proof.
  intros Hn Hr.
  assert (Hboth : forall d, (100 * n < 11 * r -> SFltb d MIN_DURATION = true) ->
            (11 * r <= 100 * n -> SFleb MIN_DURATION d = true) ->
            ltb d MIN_DURATION = (100 * n <? 11 * r)
            /\ geb d MIN_DURATION = (11 * r <=? 100 * n)).
  { intros d H1 H2. unfold ltb, geb.
    destruct (Z.ltb_spec (100 * n) (11 * r)) as [Hlt|Hge].
    - rewrite (H1 Hlt). split; [reflexivity|].
      rewrite (SFltb_SFleb _ _ (H1 Hlt)). symmetry. apply Z.leb_gt. lia.
    - rewrite (H2 Hge). split; [|symmetry; apply Z.leb_le; lia].
      destruct (SFltb d MIN_DURATION) eqn:E; [|reflexivity].
      apply SFltb_SFleb in E. rewrite (H2 Hge) in E. discriminate. }
  apply Hboth; clear Hboth; unfold div, prec, emax;
    destruct r as [|rp|rp]; try lia;
    destruct (of_int_frames rp) as (R & s2 & HofR & HR & Hs2 & HRr); try lia;
    rewrite HofR;
    (destruct n as [|np|np]; [| |lia]).
  - intros _. rewrite of_int_zero. reflexivity.
  - intros Hlt.
    destruct (of_int_frames np) as (N & s1 & HofN & HN & Hs1 & HNn); [lia|].
    rewrite HofN.
    destruct (SFdiv_normal_between N R (- s1) (- s2) HN HR ltac:(lia) ltac:(lia))
      as (md & ed & Mq & k & -> & Hk & HMq & Hbetween & Hshape).
    apply (short_is_below np rp N R md s1 s2 ed Mq k); try assumption; lia.
  - intros Hge. lia.
  - intros Hge.
    destruct (of_int_frames np) as (N & s1 & HofN & HN & Hs1 & HNn); [lia|].
    rewrite HofN.
    destruct (Z.eq_dec (100 * Z.pos np) (11 * Z.pos rp)) as [Heq|Hne].
    + rewrite (threshold_quotient N R s1 s2) by (try lia; rewrite HNn, HRr; nia).
      reflexivity.
    + destruct (SFdiv_normal_between N R (- s1) (- s2) HN HR ltac:(lia) ltac:(lia))
        as (md & ed & Mq & k & -> & Hk & HMq & Hbetween & Hshape).
      apply (long_is_not_below np rp N R md s1 s2 ed Mq k); try assumption; lia.
Qed.

(** [int(MIN_DURATION * framerate)] in whole numbers: eleven hundredths of
    the frame rate, rounded down. *)
Lemma target_frames_exact (r : Z) :
  1 <= r < 2 ^ 32 ->
  to_int (mul MIN_DURATION (of_int r)) = Some (11 * r / 100).
Proof.
  intros Hr. destruct r as [|rp|rp]; [lia| |lia].
  destruct (of_int_frames rp) as (R & s2 & HofR & HR & Hs2 & HRr); [lia|].
  rewrite HofR. unfold mul, MIN_DURATION, prec, emax.
  destruct (SFmul_normal 7926335344172073 R (-56) (- s2))
    as (md & ed & Mp & k & -> & Hk & HMp & HMpb & Hshape); [lia | lia | lia | lia |].
  set (T := 11 * Z.pos rp / 100).
  pose proof (Z.div_mod (11 * Z.pos rp) 100 ltac:(lia)) as HT.
  pose proof (Z.mod_pos_bound (11 * Z.pos rp) 100 ltac:(lia)) as HTr.
  fold T in HT.
  assert (HT0 : 0 <= T) by (unfold T; apply Z.div_pos; lia).
  set (E := 56 + s2 - k).
  assert (HE : 24 <= E) by (unfold E; lia).
  assert (Hpk : 0 < 2 ^ k) by (apply Z.pow_pos_nonneg; lia).
  assert (Hpb : 2 ^ 21 <= 2 ^ s2) by (apply Z.pow_le_mono_r; lia).
  assert (HpE : 0 < 2 ^ E) by (apply Z.pow_pos_nonneg; lia).
  assert (HEk : 2 ^ E * 2 ^ k = 2 ^ 56 * 2 ^ s2).
  { rewrite <- !Z.pow_add_r by lia. f_equal. unfold E. lia. }
  assert (Hk53 : 2 ^ k <= 2 ^ 53) by (apply Z.pow_le_mono_r; lia).
  pose proof (Z.div_mod (7926335344172073 * Z.pos R) (2 ^ k) ltac:(lia)) as Hpm.
  pose proof (Z.mod_pos_bound (7926335344172073 * Z.pos R) (2 ^ k) Hpk) as Hpr.
  rewrite <- HMp in Hpm. rewrite HRr in Hpm, Hpr.
  set (b := 2 ^ s2) in *. set (c := 2 ^ k) in *. set (a := 2 ^ E) in *.
  change (2 ^ 21) with 2097152 in Hpb. change (2 ^ 53) with 9007199254740992 in *.
  change (2 ^ 56) with 72057594037927936 in *. change (2 ^ 32) with 4294967296 in *.
  change (2 ^ 52) with 4503599627370496 in *.
  assert (Hac : a * c = 72057594037927936 * b) by exact HEk.
  assert (Hb0 : 0 < b) by lia.
  assert (Hlow : T * a <= Mp).
  { destruct (Z_le_gt_dec (T * a) Mp) as [|Hgt]; [assumption|exfalso].
    assert (H1 : (Mp + 1) * c <= T * a * c)
      by (apply Z.mul_le_mono_nonneg_r; lia).
    replace (T * a * c) with (T * (a * c)) in H1 by ring.
    rewrite Hac in H1.
    assert (H3 : 7926335344172073 * Z.pos rp * b < T * 72057594037927936 * b) by lia.
    apply Z.mul_lt_mono_pos_r in H3; [|assumption].
    lia. }
  assert (Hup : Mp + 2 <= (T + 1) * a).
  { destruct (Z_le_gt_dec (Mp + 2) ((T + 1) * a)) as [|Hgt]; [assumption|exfalso].
    assert (H1 : (T + 1) * a * c <= (Mp + 1) * c)
      by (apply Z.mul_le_mono_nonneg_r; lia).
    replace ((T + 1) * a * c) with ((T + 1) * (a * c)) in H1 by ring.
    rewrite Hac in H1.
    assert (H3 : (T + 1) * 72057594037927936 * b
                 <= 7926335344172073 * Z.pos rp * b + c) by lia.
    assert (H4 : (11 * Z.pos rp + 1) * 72057594037927936 * b
                 <= 100 * (T + 1) * 72057594037927936 * b).
    { apply Z.mul_le_mono_nonneg_r; [lia|]. lia. }
    assert (H5 : 72057594037927936 * b <= 4 * (Z.pos rp * b) + 100 * c) by lia.
    assert (H6 : Z.pos rp * b <= 4294967296 * b)
      by (apply Z.mul_le_mono_nonneg_r; lia).
    lia. }
  assert (Hed : ed < 0).
  { destruct Hshape as [[_ He]|[[_ He]|(_ & _ & He)]]; unfold E in HE; lia. }
  replace (ed <=? 971) with true by (symmetry; apply Z.leb_le; lia).
  cbn [to_int cond_Zopp]. rewrite Z.shiftl_div_pow2 by lia. f_equal.
  destruct Hshape as [[Hm He]|[[Hm He]|(Hc & Hm & He)]].
  - replace (- ed) with E by (unfold E; lia). fold a.
    symmetry. apply (Z.div_unique _ _ _ (Z.pos md - T * a)); [lia|]. lia.
  - replace (- ed) with E by (unfold E; lia). fold a.
    symmetry. apply (Z.div_unique _ _ _ (Z.pos md - T * a)); [lia|]. lia.
  - replace (- ed) with (E - 1) by (unfold E; lia).
    assert (Ha : a = 2 * 2 ^ (E - 1)).
    { unfold a. rewrite (pow2_split E 1) by lia. reflexivity. }
    set (a' := 2 ^ (E - 1)) in *.
    symmetry. apply (Z.div_unique _ _ _ (Z.pos md - T * a')); [lia|]. lia.
Qed.

(** ** What a call may touch *)

Lemma same_elsewhere_refl (out : string) (wd : world) : same_elsewhere out wd wd.
Proof. by split. Qed.

Lemma pad_short_sample_frame (inp out : string) (t : float) (wd : world) :
  same_elsewhere out wd (pad_short_sample inp out t wd).2.
Proof.
  unfold pad_short_sample.
  destruct (wave_open_read inp wd) as [w|]; [|apply same_elsewhere_refl].
  destruct (true_div _ _) as [d|]; [|apply same_elsewhere_refl].
  destruct (geb d t).
  - destruct (negb (String.eqb inp out)); [|apply same_elsewhere_refl].
    apply wave_write_frame.
  - destruct (to_int _) as [tf|]; [|apply same_elsewhere_refl].
    apply wave_write_frame.
Qed.

Lemma convert_format_frame (inp out : string) (wd : world) :
  same_elsewhere out wd (convert_format inp out wd).2.
Proof.
  unfold convert_format.
  destruct (wave_open_read inp wd) as [w|]; [|apply same_elsewhere_refl].
  destruct (negb _).
  - destruct (negb (String.eqb inp out)); [|apply same_elsewhere_refl].
    apply wave_write_frame.
  - destruct (negb (String.eqb inp out)); [|apply same_elsewhere_refl].
    apply wave_write_frame.
Qed.

Lemma same_elsewhere_trans (out : string) (wd1 wd2 wd3 : world) :
  same_elsewhere out wd1 wd2 → same_elsewhere out wd2 wd3 → same_elsewhere out wd1 wd3.
Proof.
  intros [R1 F1] [R2 F2]. split; [congruence|].
  intros p Hp. rewrite F2, F1 by done. done.
Qed.

Lemma process_file_frame (inp outp : string) (copy_out : bool) (name : string)
    (c : counters) (wd : world) :
  same_elsewhere (join outp name) wd (process_file inp outp copy_out name (c, wd)).2.
Proof.
  unfold process_file.
  destruct (get_wav_info (join inp name) wd) as [i|]; [|apply same_elsewhere_refl].
  destruct (is_too_short (Some i)).
  - pose proof (pad_short_sample_frame (join inp name) (join outp name) MIN_DURATION wd) as Hp.
    destruct (pad_short_sample _ _ _ wd) as [[] wd1]; [|exact Hp].
    destruct (get_wav_info (join outp name) wd1) as [ni|]; [|exact Hp].
    destruct (format_differs ni); [|exact Hp].
    eapply same_elsewhere_trans; [exact Hp|]. apply convert_format_frame.
  - destruct (format_differs i).
    + pose proof (convert_format_frame (join inp name) (join outp name) wd) as Hc.
      by destruct (convert_format _ _ wd) as [[] wd1].
    + destruct copy_out; [apply pad_short_sample_frame | apply same_elsewhere_refl].
Qed.

(** ** The tests on a file, in whole numbers *)

(** The frame count and frame rate of a readable file with a non-zero rate
    are in the range of the whole-number lemmas. *)
Lemma readable_ranges (w : wav_file) :
  riff_ok w = true → framerate w ≠ 0 →
  0 ≤ getnframes w < 2 ^ 32 ∧ 1 ≤ framerate w < 2 ^ 32.
Proof.
  intros Hok Hr. pose proof (riff_ok_bounds w Hok) as (_ & _ & Hfr & _).
  pose proof (getnframes_bounds w Hok) as (Hn0 & _ & Hn). lia.
Qed.

Lemma get_wav_info_duration (path : string) (wd : world) (w : wav_file) :
  wave_open_read path wd = Some w → framerate w ≠ 0 →
  get_wav_info path wd
  = Some {| channels := nchannels w; sample_width := sampwidth w;
            info_framerate := framerate w; frames := getnframes w;
            duration := div (of_int (getnframes w)) (of_int (framerate w)) |}.
Proof.
  intros Hread Hr. unfold get_wav_info. rewrite Hread.
  by rewrite true_div_Some.
Qed.

Lemma get_wav_info_None (path : string) (wd : world) :
  get_wav_info path wd = None
  ↔ wave_open_read path wd = None
    ∨ ∃ w, wave_open_read path wd = Some w ∧ framerate w = 0.
Proof.
  unfold get_wav_info. destruct (wave_open_read path wd) as [w|]; [|by split; auto].
  unfold true_div. destruct (Z.eqb_spec (framerate w) 0) as [E|E].
  - split; [|done]. intros _. right. by exists w.
  - split; [done|]. intros [H|(w' & [= <-] & H)]; done.
Qed.

(** The test for a short file, by what the path holds. *)
Lemma is_too_short_read (path : string) (wd : world) :
  match wave_open_read path wd with
  | Some w =>
      is_too_short (get_wav_info path wd)
      = negb (framerate w =? 0) && (100 * getnframes w <? 11 * framerate w)
  | None => is_too_short (get_wav_info path wd) = false
  end.
Proof.
  destruct (wave_open_read path wd) as [w|] eqn:Hread.
  - destruct (Z.eqb_spec (framerate w) 0) as [E|E].
    + replace (get_wav_info path wd) with (@None wav_info); [done|].
      symmetry. apply get_wav_info_None. right. by exists w.
    + rewrite (get_wav_info_duration path wd w Hread E). cbn [is_too_short duration negb andb].
      apply wave_open_read_ok in Hread as [_ Hok].
      destruct (readable_ranges w Hok E) as [Hn Hr].
      apply (duration_below _ _ Hn Hr).
  - replace (get_wav_info path wd) with (@None wav_info); [done|].
    symmetry. apply get_wav_info_None. by left.
Qed.

(** X8.  For a readable file with a non-zero frame rate, [is_too_short] of
    its info is the whole-number test [100 * frames < 11 * framerate]: the
    binary64 division and the comparison with 0.11 never err, not even at
    the boundary.  A file that cannot be read, or whose header gives the
    frame rate zero, has no info and is not too short. *)
Theorem too_short_in_whole_numbers (path : string) (wd : world) :
  match wave_open_read path wd with
  | Some w =>
      is_too_short (get_wav_info path wd)
      = negb (framerate w =? 0) && (100 * getnframes w <? 11 * framerate w)
  | None => is_too_short (get_wav_info path wd) = false
  end.
Proof. apply is_too_short_read. Qed.

(** X9.  [is_sp303_compatible] holds of the info of a path exactly when the
    file is readable with 44100 Hz, 2 bytes per sample, one or two channels
    and at least 4851 frames; such a file is not too short and takes the
    last branch of the loop. *)
Theorem compatible_in_whole_numbers (path : string) (wd : world) :
  (is_sp303_compatible (get_wav_info path wd) = true
   ↔ ∃ w, wave_open_read path wd = Some w
          ∧ framerate w = 44100 ∧ sampwidth w = 2
          ∧ (nchannels w = 1 ∨ nchannels w = 2)
          ∧ 4851 ≤ getnframes w)
  ∧ (is_sp303_compatible (get_wav_info path wd) = true →
     is_too_short (get_wav_info path wd) = false
     ∧ classify (get_wav_info path wd) = Compliant).
Proof.
  assert (Hiff : is_sp303_compatible (get_wav_info path wd) = true
   ↔ ∃ w, wave_open_read path wd = Some w
          ∧ framerate w = 44100 ∧ sampwidth w = 2
          ∧ (nchannels w = 1 ∨ nchannels w = 2)
          ∧ 4851 ≤ getnframes w).
  { split.
    - destruct (get_wav_info path wd) as [i|] eqn:Hi; [|done].
      apply get_wav_info_Some in Hi as (w & Hread & Hr & Hc & Hw & Hf & Hn & Hd).
      cbn [is_sp303_compatible]. rewrite Hc, Hw, Hf, Hd.
      pose proof Hread as Hok. apply wave_open_read_ok in Hok as [_ Hok].
      destruct (readable_ranges w Hok Hr) as [Hnb Hrb].
      rewrite (proj2 (duration_below _ _ Hnb Hrb)).
      rewrite !andb_true_iff, orb_true_iff, !Z.eqb_eq, Z.leb_le.
      intros (((Hf' & Hw') & Hc') & Hlong). exists w. repeat split; try done. lia.
    - intros (w & Hread & Hf & Hw & Hc & Hn).
      rewrite (get_wav_info_duration path wd w Hread) by lia.
      cbn [is_sp303_compatible info_framerate sample_width channels duration].
      pose proof Hread as Hok. apply wave_open_read_ok in Hok as [_ Hok].
      destruct (readable_ranges w Hok ltac:(lia)) as [Hnb Hrb].
      rewrite (proj2 (duration_below _ _ Hnb Hrb)).
      rewrite !andb_true_iff, orb_true_iff, !Z.eqb_eq, Z.leb_le.
      repeat split; try done. lia. }
  split; [exact Hiff|].
  intros Hc. apply Hiff in Hc as (w & Hread & Hf & Hw & Hc & Hn).
  pose proof (is_too_short_read path wd) as Hs. rewrite Hread in Hs.
  assert (Hshort : is_too_short (get_wav_info path wd) = false).
  { rewrite Hs. apply andb_false_iff. right. apply Z.ltb_ge. lia. }
  split; [exact Hshort|].
  rewrite (get_wav_info_duration path wd w Hread) in * by lia.
  unfold classify. rewrite Hshort. unfold format_differs.
  cbn [info_framerate sample_width]. rewrite Hf, Hw. reflexivity.
Qed.

(** ** Padding to the minimum, copying, converting *)


(** A format the writer takes has a frame rate that is not zero. *)
Lemma writable_format_rate (w : wav_file) :
  writable_format w = true → sampwidth w ≤ 4 ∧ 0 < framerate w.
Proof. unfold writable_format. intros H. Z_bools_in H. lia. Qed.

(** X10.  Padding a too-short file to the minimum, for a file that holds
    its frames in a format the writer takes, a writable output and a padded
    length that fits a header: the call returns True and leaves
    [11 * framerate / 100] frames, rounded down, so that the output is
    still too short exactly when the frame rate is no multiple of 100. *)
Theorem padding_stops_at_the_floor (inp out : string) (wd : world) (w : wav_file) :
  wave_open_read inp wd = Some w →
  holds_its_frames w = true →
  writable_format w = true →
  out ∉ readonly wd →
  100 * getnframes w < 11 * framerate w →
  36 + (11 * framerate w / 100) * framesize w < 2 ^ 32 →
  ∃ wd' w',
    pad_short_sample inp out MIN_DURATION wd = (true, wd')
    ∧ wave_open_read out wd' = Some w'
    ∧ framerate w' = framerate w
    ∧ getnframes w' = 11 * framerate w / 100
    ∧ is_too_short (get_wav_info out wd') = negb (framerate w mod 100 =? 0).
Proof.
  intros Hread Hwhole Hfmt Hro Hshort Hfit.
  pose proof Hread as Hok. apply wave_open_read_ok in Hok as [_ Hok].
  destruct (writable_format_rate w Hfmt) as [Hsw Hr0].
  assert (Hr : framerate w ≠ 0) by lia.
  destruct (readable_ranges w Hok Hr) as [Hnb Hrb].
  pose proof (framesize_pos w Hok) as Hfs.
  set (tf := 11 * framerate w / 100) in *.
  pose proof (Z.div_mod (11 * framerate w) 100 ltac:(lia)) as Htf.
  pose proof (Z.mod_pos_bound (11 * framerate w) 100 ltac:(lia)) as Htfr.
  fold tf in Htf.
  assert (Hle : getnframes w ≤ tf) by lia.
  rewrite (pad_short_sample_read inp out MIN_DURATION wd w Hread).
  rewrite true_div_Some by done.
  rewrite (proj2 (duration_below _ _ Hnb Hrb)).
  replace (11 * framerate w <=? 100 * getnframes w) with false
    by (symmetry; apply Z.leb_gt; lia).
  rewrite (target_frames_exact _ Hrb). fold tf.
  destruct (padded_of_facts w tf Hok Hwhole) as (Hlen & Hn & _).
  rewrite Z.max_r in Hlen, Hn by lia.
  rewrite (wave_write_frames_ok out w _ wd Hro Hok Hfmt) by nia.
  change (written (getparams w) (data (padded_of w tf))) with (padded_of w tf).
  assert (Hpok : riff_ok (padded_of w tf) = true).
  { pose proof (riff_ok_bounds w Hok) as (Hc & Hs & Hf & _).
    unfold riff_ok, padded_of, written. cbn [nchannels sampwidth framerate chunksize].
    change (readframes w (getnframes w) ++ _) with (data (padded_of w tf)).
    rewrite Hlen. cbn [getparams p_nchannels p_sampwidth p_framerate].
    Z_bools; nia. }
  pose proof (wave_open_read_put out (padded_of w tf) wd Hpok) as Hread'.
  eexists. exists (padded_of w tf). split; [done|]. split; [exact Hread'|].
  split; [done|]. split; [exact Hn|].
  pose proof (is_too_short_read out (put out (Pcm (padded_of w tf)) wd)) as Hs.
  rewrite Hread' in Hs. rewrite Hs, Hn.
  change (framerate (padded_of w tf)) with (framerate w).
  replace (framerate w =? 0) with false by (symmetry; apply Z.eqb_neq; lia).
  cbn [negb andb].
  pose proof (Z.div_mod (framerate w) 100 ltac:(lia)) as Hrm.
  pose proof (Z.mod_pos_bound (framerate w) 100 ltac:(lia)) as Hrmb.
  destruct (Z.eqb_spec (framerate w mod 100) 0) as [E|E]; cbn [negb].
  - apply Z.ltb_ge. lia.
  - apply Z.ltb_lt. lia.
Qed.

Lemma duration_not_negative (n r : Z) :
  0 ≤ n < 2 ^ 32 → 1 ≤ r < 2 ^ 32 →
  geb (div (of_int n) (of_int r)) (of_int 0) = true.
Proof.
  intros Hn Hr. unfold geb, div, prec, emax.
  destruct r as [|rp|rp]; [lia| |lia].
  destruct (of_int_frames rp) as (R & s2 & -> & HR & Hs2 & _); [lia|].
  destruct n as [|np|np]; [reflexivity| |lia].
  destruct (of_int_frames np) as (N & s1 & -> & HN & Hs1 & _); [lia|].
  destruct (SFdiv_normal_between N R (- s1) (- s2) HN HR ltac:(lia) ltac:(lia))
    as (md & ed & Mq & k & -> & _). reflexivity.
Qed.

(** X11.  The call with target 0, by which a run copies a compliant file,
    never pads: for a file that holds its frames in a format the writer
    takes, with frames that fit a header and a writable output, it returns
    True, the output holds the asset of the input, and the input is as it
    was. *)
Theorem zero_target_only_copies (inp out : string) (wd : world) (w : wav_file) :
  wave_open_read inp wd = Some w →
  holds_its_frames w = true →
  writable_format w = true →
  out ∉ readonly wd →
  36 + getnframes w * framesize w < 2 ^ 32 →
  ∃ wd', pad_short_sample inp out (of_int 0) wd = (true, wd')
         ∧ read_asset out wd' = Some (asset_of w)
         ∧ (inp ≠ out → read_asset inp wd' = Some (asset_of w)).
Proof.
  intros Hread Hwhole Hfmt Hro Hfit.
  pose proof Hread as Hok. apply wave_open_read_ok in Hok as [_ Hok].
  destruct (writable_format_rate w Hfmt) as [Hsw Hr0].
  assert (Hr : framerate w ≠ 0) by lia.
  destruct (readable_ranges w Hok Hr) as [Hnb Hrb].
  rewrite (pad_short_sample_read inp out (of_int 0) wd w Hread).
  rewrite true_div_Some by done.
  rewrite (duration_not_negative _ _ Hnb Hrb).
  destruct (String.eqb_spec inp out) as [<-|Hne]; cbn [negb].
  - exists wd. split; [done|]. unfold read_asset. rewrite Hread. done.
  - destruct (copy_of_facts w Hok Hwhole) as (Hlen & _ & _ & _ & Hasset).
    rewrite (wave_write_frames_ok out w _ wd Hro Hok Hfmt Hfit) by lia.
    change (written (getparams w) (data (copy_of w))) with (copy_of w).
    assert (Hcok : riff_ok (copy_of w) = true).
    { pose proof (riff_ok_bounds w Hok) as (Hc & Hs & Hf & _).
      unfold riff_ok, copy_of, written. cbn [nchannels sampwidth framerate chunksize].
      change (readframes w (getnframes w)) with (data (copy_of w)).
      rewrite Hlen. cbn [getparams p_nchannels p_sampwidth p_framerate].
      Z_bools; lia. }
    eexists. split; [done|]. unfold read_asset.
    rewrite wave_open_read_put by done.
    rewrite wave_open_read_put_ne, Hread by congruence.
    split; [|done]. simpl. f_equal. exact Hasset.
Qed.

Lemma wave_open_read_ext (path : string) (wd1 wd2 : world) :
  files wd1 !! path = files wd2 !! path →
  wave_open_read path wd1 = wave_open_read path wd2.
Proof. intros H. unfold wave_open_read. by rewrite H. Qed.

Lemma get_wav_info_ext (path : string) (wd1 wd2 : world) :
  files wd1 !! path = files wd2 !! path →
  get_wav_info path wd1 = get_wav_info path wd2.
Proof. intros H. unfold get_wav_info. by rewrite (wave_open_read_ext path wd1 wd2 H). Qed.

Lemma convert_format_in_place (path : string) (wd : world) :
  (convert_format path path wd).2 = wd.
Proof.
  unfold convert_format. destruct (wave_open_read path wd) as [w|]; [|done].
  rewrite String.eqb_refl. cbn [negb]. by destruct (negb _).
Qed.



(** ** A whole run *)

Lemma preprocess_directory_fold (inp : string) (odir : option string)
    (names : list string) (wd : world) :
  preprocess_directory inp odir names wd
  = fold_left (λ st name,
       process_file (path_str (Path inp)) (output_path_of inp odir)
         (copies_out inp odir) name st)
      names (no_counts, wd).
Proof.
  unfold preprocess_directory, copies_out, output_path_of.
  destruct odir as [d|]; [|done]. simpl.
  by destruct (String.eqb d "").
Qed.

(** A directory named in another way, as with a slash at its end, is the
    same directory: the run is the run in place. *)
Lemma same_directory_runs_in_place (inp d : string) (names : list string)
    (wd : world) :
  Path d = Path inp →
  preprocess_directory inp (Some d) names wd = preprocess_directory inp None names wd.
Proof.
  intros H. rewrite !preprocess_directory_fold.
  unfold output_path_of, copies_out. rewrite H.
  rewrite bool_decide_eq_true_2 by done. cbn [negb]. rewrite andb_false_r.
  by destruct (String.eqb d "").
Qed.



Lemma process_file_in_place_keeps (inp name : string) (c : counters) (wd : world)
    (p : string) :
  is_too_short (get_wav_info p wd) = false →
  files (process_file inp inp false name (c, wd)).2 !! p = files wd !! p.
Proof.
  intros Hlong.
  destruct (decide (p = join inp name)) as [->|Hne].
  - unfold process_file.
    destruct (get_wav_info (join inp name) wd) as [i|]; [|done].
    rewrite Hlong.
    destruct (format_differs i); [|done].
    pose proof (convert_format_in_place (join inp name) wd) as Hc.
    destruct (convert_format _ _ wd) as [[] wd1]; simpl in *; by subst.
  - destruct (process_file_frame inp inp false name c wd) as [_ Hf]. by apply Hf.
Qed.

Lemma fold_in_place_keeps (inp : string) (names : list string) (p : string)
    (st : counters * world) :
  is_too_short (get_wav_info p st.2) = false →
  files (fold_left (λ st name, process_file inp inp false name st) names st).2 !! p
  = files st.2 !! p.
Proof.
  revert st. induction names as [|name names IH]; intros [c wd] Hlong; [done|].
  simpl fold_left. simpl snd in *.
  pose proof (process_file_in_place_keeps inp name c wd p Hlong) as Hstep.
  rewrite IH; [exact Hstep|].
  erewrite get_wav_info_ext; [exact Hlong | exact Hstep].
Qed.

(** X15.  In a run in place, a path whose file is not too short when the
    run begins, whatever its format, holds the same file when it ends. *)
Theorem in_place_rewrites_only_short_files (inp : string) (names : list string)
    (wd : world) (p : string) :
  is_too_short (get_wav_info p wd) = false →
  files (preprocess_directory inp None names wd).2 !! p = files wd !! p.
Proof.
  intros Hlong. rewrite preprocess_directory_fold.
  unfold copies_out, output_path_of.
  exact (fold_in_place_keeps (path_str (Path inp)) names p (no_counts, wd) Hlong).
Qed.

Local Open Scope nat_scope.

Lemma process_file_counts (inp outp : string) (copy_out : bool) (name : string)
    (c : counters) (wd : world) :
  let c' := (process_file inp outp copy_out name (c, wd)).1 in
  c' = count_error c ∨ c' = count_padded c
  ∨ c' = count_format_issue (count_padded c)
  ∨ c' = count_format_issue c ∨ c' = count_compatible c.
Proof.
  intros c'. subst c'.
  pose proof (process_file_follows_classify inp outp copy_out name c wd) as H.
  cbv zeta in H.
  destruct (classify _); tauto.
Qed.

Lemma fold_process_counts (inp outp : string) (copy_out : bool)
    (names : list string) (st : counters * world) :
  let c := st.1 in
  let c' := (fold_left (λ st name, process_file inp outp copy_out name st)
               names st).1 in
  total c + length names ≤ total c'
  ∧ total c' + padded_count c ≤ total c + length names + padded_count c'
  ∧ compatible_count c' + padded_count c' + error_count c'
    ≤ compatible_count c + padded_count c + error_count c + length names
  ∧ format_issues c' ≤ format_issues c + length names
  ∧ padded_count c ≤ padded_count c'.
Proof.
  revert st. induction names as [|name names IH]; intros [c wd];
    cbn [fold_left length fst].
  - lia.
  - specialize (IH (process_file inp outp copy_out name (c, wd))).
    cbv zeta in IH.
    pose proof (process_file_counts inp outp copy_out name c wd) as Hstep.
    cbv zeta in Hstep.
    destruct (process_file inp outp copy_out name (c, wd)) as [c1 wd1].
    set (cf := (fold_left _ names (c1, wd1)).1) in *. clearbody cf.
    simpl fst in *. destruct c as [a b f e].
    destruct Hstep as [-> | [-> | [-> | [-> | ->]]]]; unfold total in *; simpl in *; lia.
Qed.

(** X16.  The four counts of the summary against the number of files:
    their sum is at least that number and exceeds it by at most the padded
    count; the compatible, padded and error counts together, and the
    format-issue count alone, never exceed it. *)
Theorem summary_counts_bounds (inp : string) (odir : option string)
    (names : list string) (wd : world) :
  let c := (preprocess_directory inp odir names wd).1 in
  length names ≤ total c ≤ length names + padded_count c
  ∧ compatible_count c + padded_count c + error_count c ≤ length names
  ∧ format_issues c ≤ length names.
Proof.
  intros c. subst c. rewrite preprocess_directory_fold.
  pose proof (fold_process_counts (path_str (Path inp)) (output_path_of inp odir)
                (copies_out inp odir) names (no_counts, wd)) as H.
  cbv zeta in H. simpl fst in H. unfold total in *. simpl in H.
  unfold total. lia.
Qed.

(** ** The theorems at concrete inputs *)

Local Open Scope nat_scope.

(** A header without the magic is refused although a valid record follows. *)
Example no_magic_is_refused :
  parse_pgm_file no_magic = Some (Raise (ValueError (header no_magic)))
  ∧ record_name no_magic 0 = "KICK"%string.
Proof. split; vm_compute; reflexivity. Qed.

(** The scenario of the specification: the pad named KICK finds
    [kick.wav] by its lower-cased stem and is copied to slot 1 of bank A. *)
Example kick_goes_to_bank_A :
  ∃ log, create_sp303_banks one_pad_data healthy_world "out" = Some (log, Ok tt)
         ∧ log !! 1 = Some (Copied 0 "KICK" "kick.wav" "out/Bank_A/SMPL0001.WAV")
         ∧ pads_handled log = seq 0 64.
Proof. eexists. split; [vm_compute; reflexivity|]. split; reflexivity. Qed.

Lemma parse_synthetic_descriptor_witness :
  length example_header = FIRST_SAMPLE_OFFSET
  ∧ contains MAGIC (header example_header) = true
  ∧ length two_pads ≤ MAX_PADS
  ∧ ∃ m, parse_pgm_file (make_descriptor example_header two_pads) = Some (Ok m)
         ∧ size m = length two_pads
         ∧ (∀ i, i ∈ dom m ↔ i < length two_pads)
         ∧ (∀ i, m !! i = fst <$> two_pads !! i)
         ∧ m = map_seq 0 (two_pads.*1).
Proof.
  split; [reflexivity|]. split; [reflexivity|]. split; [unfold MAX_PADS; simpl; lia|].
  apply (parse_synthetic_descriptor example_header two_pads).
  - reflexivity.
  - reflexivity.
  - unfold MAX_PADS. simpl. lia.
  - repeat constructor.
Defined.

(** C1 as worded fails twice: a printable name ending in a space comes
    back without the space, and of 65 well-formed records 64 are kept. *)
Lemma printable_records_not_recovered :
  (length example_header = FIRST_SAMPLE_OFFSET
   ∧ contains MAGIC (header example_header) = true
   ∧ forallb printable_record untrimmed = true
   ∧ parse_pgm_file (make_descriptor example_header untrimmed)
     = Some (Ok {[0 := "KICK"%string]})
   ∧ parse_pgm_file (make_descriptor example_header untrimmed)
     ≠ Some (Ok (map_seq 0 (untrimmed.*1))))
  ∧ (forallb printable_record sixty_five = true
     ∧ length sixty_five = 65
     ∧ parsed_size (make_descriptor example_header sixty_five) = Some 64).
Proof.
  split.
  - split; [reflexivity|]. split; [reflexivity|]. split; [reflexivity|].
    assert (E : parse_pgm_file (make_descriptor example_header untrimmed)
                = Some (Ok {[0 := "KICK"%string]})) by (vm_compute; reflexivity).
    split; [exact E|]. rewrite E. intros H.
    assert (H0 := f_equal (λ r : option (result (gmap nat string)),
                             match r with Some (Ok m) => m !! 0 | _ => None end) H).
    vm_compute in H0. discriminate H0.
  - split; [vm_compute; reflexivity|]. split; [reflexivity|].
    vm_compute. reflexivity.
Qed.


Lemma parse_no_name_field_witness :
  contains MAGIC (header example_header) = true
  ∧ length example_header < FIRST_SAMPLE_OFFSET + SAMPLE_NAME_SIZE
  ∧ parse_pgm_file example_header = Some (Ok ∅).
Proof.
  split; [reflexivity|]. split; [vm_compute; lia|].
  apply (parse_no_name_field example_header).
  - reflexivity.
  - vm_compute. lia.
Defined.

(** C9 as worded fails: 16 bytes after the header, far short of a
    164-byte record, already give one pad. *)
Lemma short_buffer_with_a_name :
  contains MAGIC (header bare_name) = true
  ∧ length bare_name - FIRST_SAMPLE_OFFSET = 16
  ∧ 16 < PAD_ENTRY_SIZE
  ∧ parse_pgm_file bare_name = Some (Ok {[0 := "KICK"%string]})
  ∧ parsed_size bare_name = Some 1.
Proof. repeat split; vm_compute; first [reflexivity | lia]. Qed.

(** C4 as worded fails in its last clause: with the magic present a failed
    copy ends the whole run. *)
Lemma copy_failure_is_fatal_too :
  contains MAGIC (header one_pad_data) = true
  ∧ create_sp303_banks one_pad_data failing_world "out"
    = Some ([BankDir "A"], Raise (OSError "kick.wav")).
Proof. split; vm_compute; reflexivity. Qed.

(** A directory that cannot be made is fatal as well: bank A is complete,
    bank B is not begun. *)
Example unmade_directory_ends_the_run :
  ∃ log, create_sp303_banks one_pad_data no_bank_B_world "out"
           = Some (log, Raise (OSError "out/Bank_B"))
         ∧ pads_handled log = seq 0 8.
Proof. eexists. split; [vm_compute; reflexivity|]. reflexivity. Qed.



Local Open Scope Z_scope.

Lemma pad_short_sample_pads_witness :
  wave_open_read "in/a.wav" short_16k_world = Some short_16k
  ∧ holds_its_frames short_16k = true
  ∧ writable_format short_16k = true
  ∧ is_float MIN_DURATION = true
  ∧ ltb (div (of_int 800) (of_int 16000)) MIN_DURATION = true
  ∧ ∃ wd' a',
      pad_short_sample "in/a.wav" "out/a.wav" MIN_DURATION short_16k_world = (true, wd')
      ∧ read_asset "out/a.wav" wd' = Some a'
      ∧ frame_count a' = 1760
      ∧ floor (mul MIN_DURATION (of_int (framerate short_16k))) = Some 1760
      ∧ frame_count (asset_of short_16k) ≤ frame_count a'
      ∧ raw_frame_bytes a'
        = raw_frame_bytes (asset_of short_16k)
          ++ replicate (Z.to_nat ((1760 - frame_count (asset_of short_16k))
                                  * framesize short_16k)) x00
      ∧ frame_rate_hz a' = frame_rate_hz (asset_of short_16k)
      ∧ sample_width_bytes a' = sample_width_bytes (asset_of short_16k)
      ∧ channel_count a' = channel_count (asset_of short_16k).
Proof.
  split; [vm_compute; reflexivity|]. split; [vm_compute; reflexivity|].
  split; [vm_compute; reflexivity|]. split; [reflexivity|].
  split; [vm_compute; reflexivity|].
  refine (proj2 (pad_short_sample_pads "in/a.wav" "out/a.wav" MIN_DURATION
                   short_16k_world short_16k
                   (div (of_int 800) (of_int 16000)) _ _ _ _ _ _) _ 1760 _ _).
  - vm_compute. reflexivity.
  - vm_compute. reflexivity.
  - vm_compute. reflexivity.
  - vm_compute. reflexivity.
  - apply not_elem_of_empty.
  - reflexivity.
  - vm_compute. reflexivity.
  - vm_compute. reflexivity.
  - vm_compute. reflexivity.
Defined.

(** C2 as worded fails for readable files.  A file that was cut short is
    padded with the silence its header calls for, and the output has 4801
    frames where [int(0.11 * 44100)] is 4851.  A file of 5 bytes a sample
    is read and found too short, the writer refuses its format, and the
    call returns False, leaving no WAV file. *)
Lemma pad_short_sample_misses_the_target :
  (wave_open_read "in/cut.wav" cut_short_world = Some cut_short
   ∧ is_too_short (get_wav_info "in/cut.wav" cut_short_world) = true
   ∧ to_int (mul MIN_DURATION (of_int (framerate cut_short))) = Some 4851
   ∧ ∃ wd', pad_short_sample "in/cut.wav" "out/cut.wav" MIN_DURATION cut_short_world
              = (true, wd')
            ∧ (frame_count <$> read_asset "out/cut.wav" wd') = Some 4801)
  ∧ (wave_open_read "in/wide5.wav" five_bytes_wide_world = Some five_bytes_wide
     ∧ is_too_short (get_wav_info "in/wide5.wav" five_bytes_wide_world) = true
     ∧ ∃ wd', pad_short_sample "in/wide5.wav" "out/wide5.wav" MIN_DURATION
                five_bytes_wide_world = (false, wd')
              ∧ read_asset "out/wide5.wav" wd' = None).
Proof.
  split.
  - split; [vm_compute; reflexivity|]. split; [vm_compute; reflexivity|].
    split; [vm_compute; reflexivity|].
    eexists. split; [vm_compute; reflexivity|]. vm_compute. reflexivity.
  - split; [vm_compute; reflexivity|]. split; [vm_compute; reflexivity|].
    eexists. split; [vm_compute; reflexivity|]. vm_compute. reflexivity.
Qed.


(** The writer refuses formats that the reader takes, and a refused write
    leaves no WAV file at the output, which in place is the input. *)
Example refused_formats :
  wave_open_read "in/many.wav" refused_world = Some many_channels
  ∧ wave_open_read "in/fast.wav" refused_world = Some fast_pair
  ∧ pad_short_sample "in/many.wav" "out/many.wav" (of_int 0) refused_world
    = (false, put "out/many.wav" NotWave refused_world)
  ∧ pad_short_sample "in/fast.wav" "out/fast.wav" (of_int 0) refused_world
    = (false, put "out/fast.wav" NotWave refused_world)
  ∧ pad_short_sample "in/wide5.wav" "in/wide5.wav" MIN_DURATION five_bytes_wide_world
    = (false, put "in/wide5.wav" NotWave five_bytes_wide_world).
Proof. repeat split; vm_compute; reflexivity. Qed.


(** ** The further theorems at concrete inputs *)

Local Open Scope nat_scope.

Lemma parsed_names_are_valid_witness :
  1 < MAX_PADS
  ∧ record_offset 1 + SAMPLE_NAME_SIZE ≤ length (make_descriptor example_header two_pads)
  ∧ "SNARE"%string = record_name (make_descriptor example_header two_pads) 1
  ∧ 2 ≤ String.length "SNARE" ≤ SAMPLE_NAME_SIZE
  ∧ Forall (λ c, printable_char c = true) (list_ascii_of_string "SNARE")
  ∧ strip "SNARE" = "SNARE"%string
  ∧ is_Some ((<[1 := "SNARE"%string]> {[0 := "KICK"%string]} : gmap nat string) !! 0).
Proof.
  apply (parsed_names_are_valid (make_descriptor example_header two_pads)
           (<[1 := "SNARE"%string]> {[0 := "KICK"%string]}) 1 "SNARE").
  - vm_compute. reflexivity.
  - reflexivity.
Defined.

(** Another payload in every record and other bytes before the magic: the
    same map. *)
Lemma parse_reads_only_name_fields_witness :
  parse_pgm_file (make_descriptor example_header two_pads) = parse_pgm_file loud_pads
  ∧ (∀ w out, create_sp303_banks (make_descriptor example_header two_pads) w out
              = create_sp303_banks loud_pads w out).
Proof.
  apply (parse_reads_only_name_fields (make_descriptor example_header two_pads) loud_pads).
  apply agree_by_check; vm_compute; reflexivity.
Defined.

Lemma find_wav_file_sound_witness :
  In "My Kick 2.wav"%string mixed_listing
  ∧ ends_with ".wav" "My Kick 2.wav" = true
  ∧ contains (lower (strip "kick")) (lower (stem "My Kick 2.wav")) = true.
Proof.
  apply (find_wav_file_sound "kick" mixed_listing "My Kick 2.wav").
  - reflexivity.
  - reflexivity.
  - vm_compute. reflexivity.
Defined.

(** A file with the upper-case extension is not found by its own name. *)
Lemma find_wav_file_none_iff_witness :
  find_wav_file "KICK" shouting_listing = None.
Proof.
  apply (proj2 (find_wav_file_none_iff "KICK" shouting_listing eq_refl eq_refl)).
  intros f [<-|[<-|[]]] Hw.
  - vm_compute in Hw. discriminate Hw.
  - vm_compute. reflexivity.
Defined.

Lemma find_wav_file_priority_witness :
  (In (String.append (strip "Kick") ".wav") three_kicks →
   find_wav_file "Kick" three_kicks = Some (String.append (strip "Kick") ".wav"))
  ∧ (¬ In (String.append (strip "Kick") ".wav") three_kicks →
     ∀ g, In g three_kicks → ends_with ".wav" g = true →
          lower (stem g) = lower (strip "Kick") →
          ∃ f, find_wav_file "Kick" three_kicks = Some f
               ∧ lower (stem f) = lower (strip "Kick")).
Proof.
  apply (find_wav_file_priority "Kick" three_kicks).
  - reflexivity.
  - reflexivity.
Defined.

Lemma copies_land_in_their_slot_witness :
  let pads : gmap nat string := {[0 := "KICK"%string]} in
  let log := (organize pads healthy_world "out" []).1 in
  (∀ p sample_name wav_file dest,
     In (Copied p sample_name wav_file dest) log →
     p < 64 ∧ pads !! p = Some sample_name
     ∧ find_wav_file sample_name (wav_listing healthy_world) = Some wav_file
     ∧ copy_fails healthy_world wav_file = false
     ∧ ∃ b, bank_names !! (p / 8) = Some b ∧ dest = dest_path "out" b (p mod 8))
  ∧ (∀ p q name name' f f' dest,
       In (Copied p name f dest) log → In (Copied q name' f' dest) log → p = q).
Proof.
  intros pads log.
  apply (copies_land_in_their_slot one_pad_data healthy_world "out" pads log (Ok tt)).
  - vm_compute. reflexivity.
  - vm_compute. reflexivity.
Defined.

Lemma complete_run_log_witness :
  let pads : gmap nat string := {[0 := "KICK"%string]} in
  let log := (organize pads healthy_world "out" []).1 in
  length log = 80
  ∧ ∀ b name, bank_names !! b = Some name →
      log !! (10 * b) = Some (BankDir name)
      ∧ log !! (10 * b + 9) = Some (BankCreated name)
      ∧ ∀ s, s < 8 →
          log !! (10 * b + 1 + s)
          = Some match pads !! (b * 8 + s) with
                 | Some sample_name =>
                     match find_wav_file sample_name (wav_listing healthy_world) with
                     | Some wav_file =>
                         Copied (b * 8 + s) sample_name wav_file
                           (dest_path "out" name s)
                     | None => NotFound (b * 8 + s) sample_name
                     end
                 | None => NoAssignment (b * 8 + s)
                 end.
Proof.
  intros pads log.
  apply (complete_run_log one_pad_data healthy_world "out" pads log).
  - vm_compute. reflexivity.
  - vm_compute. reflexivity.
Defined.

Local Open Scope Z_scope.

(** 22050 Hz is not a multiple of 100: the padded file has 2425 frames and
    is too short again. *)
Lemma padding_stops_at_the_floor_witness :
  ∃ wd' w',
    pad_short_sample "in/b.wav" "out/b.wav" MIN_DURATION short_22k_world = (true, wd')
    ∧ wave_open_read "out/b.wav" wd' = Some w'
    ∧ framerate w' = framerate short_22k
    ∧ getnframes w' = 11 * framerate short_22k / 100
    ∧ is_too_short (get_wav_info "out/b.wav" wd')
      = negb (framerate short_22k mod 100 =? 0).
Proof.
  apply (padding_stops_at_the_floor "in/b.wav" "out/b.wav" short_22k_world short_22k).
  - vm_compute. reflexivity.
  - vm_compute. reflexivity.
  - vm_compute. reflexivity.
  - apply not_elem_of_empty.
  - vm_compute. reflexivity.
  - vm_compute. reflexivity.
Defined.

Lemma zero_target_only_copies_witness :
  ∃ wd', pad_short_sample "in/c.wav" "out/c.wav" (of_int 0) long_8k_world = (true, wd')
         ∧ read_asset "out/c.wav" wd' = Some (asset_of long_8k)
         ∧ ("in/c.wav"%string ≠ "out/c.wav"%string →
            read_asset "in/c.wav" wd' = Some (asset_of long_8k)).
Proof.
  apply (zero_target_only_copies "in/c.wav" "out/c.wav" long_8k_world long_8k).
  - vm_compute. reflexivity.
  - vm_compute. reflexivity.
  - vm_compute. reflexivity.
  - apply not_elem_of_empty.
  - vm_compute. reflexivity.
Defined.

(** The output directory named as the input directory with a slash at its
    end: the short file is padded where it is. *)
Example trailing_slash_runs_in_place :
  let run := preprocess_directory "in" (Some "in/"%string) short_16k_names
               short_16k_world in
  run = preprocess_directory "in" None short_16k_names short_16k_world
  ∧ (getnframes <$> wave_open_read "in/a.wav" run.2) = Some 1760.
Proof.
  split; [by apply same_directory_runs_in_place|]. vm_compute. reflexivity.
Qed.


(** A file in another format that is long enough is left alone. *)
Lemma in_place_rewrites_only_short_files_witness :
  files (preprocess_directory "in" None ["c.wav"%string] long_8k_world).2
    !! "in/c.wav"%string
  = files long_8k_world !! "in/c.wav"%string.
Proof.
  apply (in_place_rewrites_only_short_files "in" ["c.wav"%string] long_8k_world
           "in/c.wav").
  vm_compute. reflexivity.
Defined.
